(** * IterGraph / IterGraphModule: triple-graph synchronisation and dispatch

    Shallow embedding of [torch/distributed/_spmd/iter_graph_module.py].
    The three [fx.Graph]s share one store of nodes (Python objects are
    identified by their index in the store); every method of the source
    becomes a computation in a state-and-exception monad over the engine
    record, so that the state reached when an exception is raised is
    still observable, as it is in Python. *)

From stdpp Require Import gmap list strings pretty.
From Stdlib Require Import ZArith Lia.

#[local] Open Scope nat_scope.
#[local] Set Warnings "-register-all".

(** ** Data model *)

(** The graph a node is owned by.  [OrigG] is the graph handed to the
    constructor; [MainG] is the engine itself ([super()] in the source). *)
Inductive GraphId := OrigG | SetupG | CleanupG | MainG.

#[global] Instance GraphId_eq_dec : EqDecision GraphId.
Proof. solve_decision. Defined.

Inductive Op :=
  | placeholder_op | get_attr_op | call_function_op
  | call_module_op | call_method_op | output_op.

#[global] Instance Op_eq_dec : EqDecision Op.
Proof. solve_decision. Defined.

(** A node target: a string (placeholder name, ["output"]) or a callable,
    identified by a number. *)
Inductive Target := TName (s : string) | TCallable (f : nat).

#[global] Instance Target_eq_dec : EqDecision Target.
Proof. solve_decision. Defined.

(** [fx.node.Argument]: a pytree whose leaves are nodes, [None] or
    constants. *)
Inductive Argument :=
  | ANode (n : nat)
  | ANone
  | AConst (z : Z)
  | ATuple (l : list Argument).

(** Keys of [Node.users]: nodes, or any other hashable such as the
    string ["__hold__"]. *)
Inductive User := UNode (n : nat) | UMark (s : string).

#[global] Instance User_eq_dec : EqDecision User.
Proof. solve_decision. Defined.

Record Node := mkNode {
  n_graph : GraphId;
  n_op : Op;
  n_target : Target;
  n_args : list Argument;
  n_kwargs : list (string * Argument);
  n_type : option string;
  n_users : list User;
  n_erased : bool
}.

(** Where [Graph.create_node] links a new node: [fx] keeps a bound method
    [anchor.prepend] or [anchor.append]; [None] stands for the root
    sentinel of the node list. *)
Inductive InsertPoint := Before (anchor : option nat) | After (anchor : option nat).

Record Graph := mkGraph {
  g_nodes : list nat;
  g_insert : InsertPoint
}.

(** Ghost log of the [fx] primitives invoked, in order, with the graph
    they were invoked on. *)
Inductive Edit :=
  | ECreate (op : Op) | EErase | EPrepend | EAppend | EUpdateArg.

#[global] Instance Edit_eq_dec : EqDecision Edit.
Proof. solve_decision. Defined.

Record IterGraph := mkIterGraph {
  heap : list Node;
  self_graph : Graph;
  setup_graph : Graph;
  cleanup_graph : Graph;
  _setup_mapping : gmap nat nat;
  _cleanup_mapping : gmap nat nat;
  _freeze_cross_iter_movement : bool;
  _cross_iter_block_count : nat;
  num_extra_output : nat;
  edits : list (GraphId * Edit)
}.

(** ** Exceptions and the engine monad *)

Inductive Exn :=
  | RuntimeError | ValueError | AssertionError | KeyError
  | AttributeError | TypeError | IndexError.

#[global] Instance Exn_eq_dec : EqDecision Exn.
Proof. solve_decision. Defined.

Inductive Res (A : Type) := Ok (a : A) | Raise (e : Exn).
Arguments Ok {A} a.
Arguments Raise {A} e.

Definition M (A : Type) : Type := IterGraph -> Res A * IterGraph.

Definition ret {A} (a : A) : M A := fun st => (Ok a, st).
Definition raise {A} (e : Exn) : M A := fun st => (Raise e, st).
Definition bind {A B} (m : M A) (k : A -> M B) : M B :=
  fun st => match m st with
            | (Ok a, st') => k a st'
            | (Raise e, st') => (Raise e, st')
            end.

Notation "x <- m ;; k" := (bind m (fun x => k))
  (at level 100, m at next level, right associativity).
Notation "m >> k" := (bind m (fun _ => k))
  (at level 100, right associativity).

Definition get : M IterGraph := fun st => (Ok st, st).
Definition modify (f : IterGraph -> IterGraph) : M unit := fun st => (Ok tt, f st).
Definition assert_ (b : bool) : M unit := if b then ret tt else raise AssertionError.

(** [for x in l: f x] *)
Fixpoint forM_ {A} (l : list A) (f : A -> M unit) : M unit :=
  match l with
  | [] => ret tt
  | x :: l' => f x >> forM_ l' f
  end.

(** [[f x for x in l]] *)
Fixpoint mapM {A B} (f : A -> M B) (l : list A) : M (list B) :=
  match l with
  | [] => ret []
  | x :: l' => y <- f x ;; ys <- mapM f l' ;; ret (y :: ys)
  end.

(** ** Pytrees ([torch.utils._pytree]) *)

(** Modelled from the spec: [tree_flatten], [tree_unflatten] and
    [tree_map] of [torch.utils._pytree] are not part of the sources at
    hand.  Leaves are listed left to right; the shape of the flattened
    value plays the role of the [TreeSpec]. *)
Fixpoint arg_leaves (a : Argument) : list Argument :=
  match a with
  | ATuple l => flat_map arg_leaves l
  | _ => [a]
  end.

Definition tree_flatten (args : list Argument) (kwargs : list (string * Argument))
  : list Argument :=
  flat_map arg_leaves args ++ flat_map (fun kv => arg_leaves (snd kv)) kwargs.

Fixpoint tree_map (f : Argument -> Argument) (a : Argument) : Argument :=
  match a with
  | ATuple l => ATuple (map (tree_map f) l)
  | _ => f a
  end.

Fixpoint arg_unflatten (shape : Argument) (leaves : list Argument)
  : Argument * list Argument :=
  match shape with
  | ATuple l =>
      let '(l', rest) :=
        (fix go (l : list Argument) (leaves : list Argument) :=
           match l with
           | [] => ([], leaves)
           | x :: xs =>
               let '(x', r1) := arg_unflatten x leaves in
               let '(xs', r2) := go xs r1 in
               (x' :: xs', r2)
           end) l leaves in
      (ATuple l', rest)
  | _ => match leaves with
         | v :: rest => (v, rest)
         | [] => (shape, [])
         end
  end.

Fixpoint args_unflatten (shape : list Argument) (leaves : list Argument)
  : list Argument * list Argument :=
  match shape with
  | [] => ([], leaves)
  | x :: xs =>
      let '(x', r1) := arg_unflatten x leaves in
      let '(xs', r2) := args_unflatten xs r1 in
      (x' :: xs', r2)
  end.

Fixpoint kwargs_unflatten (shape : list (string * Argument)) (leaves : list Argument)
  : list (string * Argument) * list Argument :=
  match shape with
  | [] => ([], leaves)
  | (k, x) :: xs =>
      let '(x', r1) := arg_unflatten x leaves in
      let '(xs', r2) := kwargs_unflatten xs r1 in
      ((k, x') :: xs', r2)
  end.

(** [tree_unflatten(leaves, spec)] for the spec of [(args, kwargs)]; a
    wrong number of leaves is a [ValueError]. *)
Definition tree_unflatten (leaves : list Argument)
    (spec : list Argument * list (string * Argument))
  : M (list Argument * list (string * Argument)) :=
  if length leaves =? length (tree_flatten (fst spec) (snd spec)) then
    let '(args', r1) := args_unflatten (fst spec) leaves in
    let '(kwargs', _) := kwargs_unflatten (snd spec) r1 in
    ret (args', kwargs')
  else raise ValueError.

(** [isinstance(a, fx.Node)] *)
Definition is_node (a : Argument) : option nat :=
  match a with ANode n => Some n | _ => None end.

(** ** Engine record updates *)

Definition graph_of (g : GraphId) (st : IterGraph) : Graph :=
  match g with
  | MainG => self_graph st
  | SetupG => setup_graph st
  | CleanupG => cleanup_graph st
  | OrigG => mkGraph [] (Before None)
  end.

Definition with_heap (h : list Node) (st : IterGraph) : IterGraph :=
  mkIterGraph h (self_graph st) (setup_graph st) (cleanup_graph st)
    (_setup_mapping st) (_cleanup_mapping st) (_freeze_cross_iter_movement st)
    (_cross_iter_block_count st) (num_extra_output st) (edits st).

Definition with_graph (g : GraphId) (gr : Graph) (st : IterGraph) : IterGraph :=
  mkIterGraph (heap st)
    (if decide (g = MainG) then gr else self_graph st)
    (if decide (g = SetupG) then gr else setup_graph st)
    (if decide (g = CleanupG) then gr else cleanup_graph st)
    (_setup_mapping st) (_cleanup_mapping st) (_freeze_cross_iter_movement st)
    (_cross_iter_block_count st) (num_extra_output st) (edits st).

Definition with_mappings (sm cm : gmap nat nat) (st : IterGraph) : IterGraph :=
  mkIterGraph (heap st) (self_graph st) (setup_graph st) (cleanup_graph st)
    sm cm (_freeze_cross_iter_movement st)
    (_cross_iter_block_count st) (num_extra_output st) (edits st).

Definition with_freeze (b : bool) (st : IterGraph) : IterGraph :=
  mkIterGraph (heap st) (self_graph st) (setup_graph st) (cleanup_graph st)
    (_setup_mapping st) (_cleanup_mapping st) b
    (_cross_iter_block_count st) (num_extra_output st) (edits st).

Definition with_counters (blocks extra : nat) (st : IterGraph) : IterGraph :=
  mkIterGraph (heap st) (self_graph st) (setup_graph st) (cleanup_graph st)
    (_setup_mapping st) (_cleanup_mapping st) (_freeze_cross_iter_movement st)
    blocks extra (edits st).

Definition with_edits (es : list (GraphId * Edit)) (st : IterGraph) : IterGraph :=
  mkIterGraph (heap st) (self_graph st) (setup_graph st) (cleanup_graph st)
    (_setup_mapping st) (_cleanup_mapping st) (_freeze_cross_iter_movement st)
    (_cross_iter_block_count st) (num_extra_output st) es.

Definition log (g : GraphId) (e : Edit) : M unit :=
  modify (fun st => with_edits (edits st ++ [(g, e)]) st).

(** Reading a node object; an identifier outside the store stands for no
    object at all, and attribute access on it fails. *)
Definition deref (n : nat) : M Node :=
  fun st => match heap st !! n with
            | Some nd => (Ok nd, st)
            | None => (Raise AttributeError, st)
            end.

(** Attribute access through an [Optional[fx.Node]]. *)
Definition deref_opt (o : option nat) : M (nat * Node) :=
  match o with
  | Some n => nd <- deref n ;; ret (n, nd)
  | None => raise AttributeError
  end.

Definition update_node (n : nat) (f : Node -> Node) : M unit :=
  modify (fun st => with_heap (alter f n (heap st)) st).

Definition set_args (a : list Argument) (k : list (string * Argument)) (nd : Node) : Node :=
  mkNode (n_graph nd) (n_op nd) (n_target nd) a k (n_type nd) (n_users nd) (n_erased nd).

Definition set_users (us : list User) (nd : Node) : Node :=
  mkNode (n_graph nd) (n_op nd) (n_target nd) (n_args nd) (n_kwargs nd)
    (n_type nd) us (n_erased nd).

Definition set_erased (nd : Node) : Node :=
  mkNode (n_graph nd) (n_op nd) (n_target nd) (n_args nd) (n_kwargs nd)
    (n_type nd) (n_users nd) true.

(** [graph.nodes] *)
Definition nodes (g : GraphId) (st : IterGraph) : list nat := g_nodes (graph_of g st).

(** ** The [torch.fx] primitives

    [torch/fx/graph.py] and [torch/fx/node.py] are not among the sources
    at hand; the definitions of this section model them. *)

Fixpoint dedup_from (seen : list nat) (l : list nat) : list nat :=
  match l with
  | [] => []
  | x :: l' =>
      if bool_decide (x ∈ seen) then dedup_from seen l'
      else x :: dedup_from (x :: seen) l'
  end.

(** Modelled from the spec: [Node._input_nodes] of [torch.fx], the nodes
    among a node's arguments, each once, in order of first appearance
    ("a set of argument-values that are themselves nodes"). *)
Definition input_nodes (args : list Argument) (kwargs : list (string * Argument))
  : list nat :=
  dedup_from [] (omap is_node (tree_flatten args kwargs)).

(** [node.users.setdefault(u)], also [node.users[u] = None] *)
Definition users_setdefault (n : nat) (u : User) : M unit :=
  nd <- deref n ;;
  if bool_decide (u ∈ n_users nd) then ret tt
  else update_node n (set_users (n_users nd ++ [u])).

(** [node.users.pop(u)], also [del node.users[u]] *)
Definition users_pop (n : nat) (u : User) : M unit :=
  nd <- deref n ;;
  if bool_decide (u ∈ n_users nd)
  then update_node n (set_users (filter (fun v => v ≠ u) (n_users nd)))
  else raise KeyError.

(** Modelled from the spec: the setter behind [Node.args] and
    [Node.kwargs] of [torch.fx], which keeps the user sets in step with
    the argument edges ("every node's user set is ... who references me
    as an argument"). *)
Definition update_args_kwargs (self : nat) (new_args : list Argument)
    (new_kwargs : list (string * Argument)) : M unit :=
  nd <- deref self ;;
  update_node self (set_args new_args new_kwargs) >>
  forM_ (input_nodes (n_args nd) (n_kwargs nd))
        (fun old_use => users_pop old_use (UNode self)) >>
  forM_ (input_nodes new_args new_kwargs)
        (fun new_use => users_setdefault new_use (UNode self)).

Fixpoint insert_before (a x : nat) (l : list nat) : list nat :=
  match l with
  | [] => [x]
  | y :: l' => if decide (a = y) then x :: y :: l' else y :: insert_before a x l'
  end.

Fixpoint insert_after (a x : nat) (l : list nat) : list nat :=
  match l with
  | [] => [x]
  | y :: l' => if decide (a = y) then y :: x :: l' else y :: insert_after a x l'
  end.

(** Linking [x] into the node list at an insertion point; [x] is first
    unlinked from wherever it was. *)
Definition link (ip : InsertPoint) (x : nat) (l : list nat) : list nat :=
  let l := filter (fun y => y ≠ x) l in
  match ip with
  | Before None => l ++ [x]
  | Before (Some a) => insert_before a x l
  | After None => x :: l
  | After (Some a) => insert_after a x l
  end.

Definition set_nodes (g : GraphId) (f : list nat -> list nat) : M unit :=
  modify (fun st =>
    with_graph g (mkGraph (f (nodes g st)) (g_insert (graph_of g st))) st).

(** Modelled from the spec: [Graph.create_node] of [torch.fx] ("create
    node"): a new node object, registered as a user of its argument
    nodes, linked at the graph's insertion point. *)
Definition fx_create_node (g : GraphId) (op : Op) (target : Target)
    (args : list Argument) (kwargs : list (string * Argument))
    (type_expr : option string) : M nat :=
  st <- get ;;
  let n := length (heap st) in
  modify (with_heap (heap st ++ [mkNode g op target [] [] type_expr [] false])) >>
  update_args_kwargs n args kwargs >>
  set_nodes g (link (g_insert (graph_of g st)) n) >>
  log g (ECreate op) >>
  ret n.

Definition fx_call_function (g : GraphId) (the_function : Target)
    (args : list Argument) (kwargs : list (string * Argument))
    (type_expr : option string) : M nat :=
  fx_create_node g call_function_op the_function args kwargs type_expr.

(** What [Graph.placeholder] is given as a name: a string, or, when
    misused, some other object. *)
Inductive NameArg := NameStr (s : string) | NameObj (a : Argument).

(** Modelled from the spec: [Graph.placeholder] of [torch.fx]; a name that
    is not a string is refused. *)
Definition fx_placeholder (g : GraphId) (name : NameArg)
    (type_expr : option string) (default_value : option Argument) : M nat :=
  match name with
  | NameStr s =>
      fx_create_node g placeholder_op (TName s)
        (match default_value with Some d => [d] | None => [] end) [] type_expr
  | NameObj _ => raise AssertionError
  end.

(** Modelled from the spec: [Graph.output] of [torch.fx], the terminal
    node whose single argument is the graph's result. *)
Definition fx_output (g : GraphId) (result : Argument) (type_expr : option string)
  : M nat :=
  fx_create_node g output_op (TName "output") [result] [] type_expr.

(** [lambda n: None] under [map_arg]: an argument node is replaced by
    [None]. *)
Definition drop_node_ref (a : Argument) : Argument :=
  match a with ANode _ => ANone | _ => a end.

(** The sentinel user that keeps a node alive. *)
Definition held : User := UMark "__hold__".

(** Modelled from the spec: [Graph.erase_node] of [torch.fx] ("Fails
    (refuses) if the node still has non-held users"); a node of another
    graph is refused, a node erased before is left alone, and the erased
    node gives up its argument edges. *)
Definition fx_erase_node (g : GraphId) (to_erase : option nat) : M unit :=
  p <- deref_opt to_erase ;;
  let '(n, nd) := p in
  if existsb (fun u => negb (bool_decide (u = held))) (n_users nd) then raise RuntimeError
  else if negb (bool_decide (n_graph nd = g)) then raise RuntimeError
  else if n_erased nd then ret tt
  else
    set_nodes g (filter (fun y => y ≠ n)) >>
    update_node n set_erased >>
    log g EErase >>
    update_args_kwargs n (map (tree_map drop_node_ref) (n_args nd))
      (map (fun kv => (fst kv, tree_map drop_node_ref (snd kv))) (n_kwargs nd)).

(** Modelled from the spec: [Node.prepend] of [torch.fx]
    ("insert_before(anchor, node)"): [x] is unlinked and linked again
    just before [self]. *)
Definition fx_node_prepend (self x : nat) : M unit :=
  nd <- deref self ;;
  xd <- deref x ;;
  assert_ (bool_decide (n_graph nd = n_graph xd)) >>
  if decide (self = x) then ret tt
  else set_nodes (n_graph nd) (link (Before (Some self)) x) >>
       log (n_graph nd) EPrepend.

(** The node following [a] in a node list, if any. *)
Fixpoint next_of (a : nat) (l : list nat) : option nat :=
  match l with
  | [] => None
  | y :: l' => if decide (a = y) then head l' else next_of a l'
  end.

(** Modelled from the spec: [Node.append] of [torch.fx]
    ("insert_after(anchor, node)"), which is [self._next.prepend(x)]. *)
Definition fx_node_append (self x : nat) : M unit :=
  nd <- deref self ;;
  xd <- deref x ;;
  assert_ (bool_decide (n_graph nd = n_graph xd)) >>
  st <- get ;;
  if decide (next_of self (nodes (n_graph nd) st) = Some x) then ret tt
  else set_nodes (n_graph nd) (link (After (Some self)) x) >>
       log (n_graph nd) EAppend.

(** What [Node.update_arg] is given as an index: an integer, or the type
    object [int]. *)
Inductive Index := IInt (i : Z) | IType.

(** Modelled from the spec: [Node.update_arg] of [torch.fx]
    ("rewrite_argument(node, index, new_value)"): the argument tuple is
    copied to a list, the list is assigned at the index, and the tuple
    is stored back through the setter. *)
Definition fx_update_arg (self : nat) (idx : Index) (arg : Argument) : M unit :=
  nd <- deref self ;;
  match idx with
  | IType => raise TypeError
  | IInt i =>
      let len := Z.of_nat (length (n_args nd)) in
      if ((0 <=? i) && (i <? len))%Z then
        update_args_kwargs self (<[Z.to_nat i := arg]> (n_args nd)) (n_kwargs nd) >>
        log (n_graph nd) EUpdateArg
      else if ((- len <=? i) && (i <? 0))%Z then
        update_args_kwargs self (<[Z.to_nat (len + i) := arg]> (n_args nd)) (n_kwargs nd) >>
        log (n_graph nd) EUpdateArg
      else raise IndexError
  end.

Definition set_insert (g : GraphId) (ip : InsertPoint) (st : IterGraph) : IterGraph :=
  with_graph g (mkGraph (nodes g st) ip) st.

(** The context manager [_InsertPoint]: the insertion point is replaced
    for the duration of the body and put back on exit, also when the
    body raises. *)
Definition with_insert {A} (g : GraphId) (ip : InsertPoint) (body : M A) : M A :=
  fun st =>
    let old := g_insert (graph_of g st) in
    let '(r, st') := body (set_insert g ip st) in
    (r, set_insert g old st').

(** Modelled from the spec: [Graph.inserting_before] and
    [Graph.inserting_after] of [torch.fx]. *)
Definition fx_inserting_before {A} (g : GraphId) (n : option nat) (body : M A) : M A :=
  match n with
  | None => with_insert g (After None) body
  | Some a =>
      nd <- deref a ;;
      assert_ (bool_decide (n_graph nd = g)) >>
      with_insert g (Before (Some a)) body
  end.

Definition fx_inserting_after {A} (g : GraphId) (n : option nat) (body : M A) : M A :=
  match n with
  | None => with_insert g (Before None) body
  | Some a =>
      nd <- deref a ;;
      assert_ (bool_decide (n_graph nd = g)) >>
      with_insert g (After (Some a)) body
  end.

(** [map_arg(a, lambda n: val_map[n])]: a node without an entry is a
    [KeyError]. *)
Definition map_arg_val (val_map : gmap nat nat) (args : list Argument)
  : M (list Argument) :=
  if forallb (fun n => bool_decide (is_Some (val_map !! n)))
             (omap is_node (flat_map arg_leaves args))
  then ret (map (tree_map (fun a =>
              match a with
              | ANode n => match val_map !! n with Some m => ANode m | None => a end
              | _ => a
              end)) args)
  else raise KeyError.

(** Modelled from the spec: [Graph.graph_copy] of [torch.fx] with
    [return_output_node=True]: the nodes of [g] are copied into the
    engine's own graph up to the output node, whose translated result
    is returned together with the output node itself. *)
Fixpoint graph_copy (g_nodes : list nat) (val_map : gmap nat nat)
  : M (option (Argument * nat)) :=
  match g_nodes with
  | [] => ret None
  | node :: rest =>
      if bool_decide (is_Some (val_map !! node)) then graph_copy rest val_map
      else
        nd <- deref node ;;
        if decide (n_op nd = output_op) then
          match n_args nd with
          | [] => raise IndexError
          | a :: _ =>
              rv <- map_arg_val val_map [a] ;;
              ret (Some (default a (head rv), node))
          end
        else
          args <- map_arg_val val_map (n_args nd) ;;
          kwvals <- map_arg_val val_map (map snd (n_kwargs nd)) ;;
          copy <- fx_create_node MainG (n_op nd) (n_target nd) args
                    (zip (map fst (n_kwargs nd)) kwvals) (n_type nd) ;;
          graph_copy rest (<[node := copy]> val_map)
  end.

(** ** [IterGraph] *)

(** [zip(self.nodes, self.setup_graph.nodes, self.cleanup_graph.nodes)]
    filling the two mappings. *)
Fixpoint pair_up (ms ss cs : list nat) (sm cm : gmap nat nat)
  : gmap nat nat * gmap nat nat :=
  match ms, ss, cs with
  | m :: ms', s :: ss', c :: cs' => pair_up ms' ss' cs' (<[m := s]> sm) (<[m := c]> cm)
  | _, _, _ => (sm, cm)
  end.

(** [IterGraph.__init__]: [store] holds the node objects of the three
    graphs handed in, given by their node lists. *)
Definition __init__ (store : list Node) (orig_graph setup_graph cleanup_graph : list nat)
  : Res unit * IterGraph :=
  (output_vals <- graph_copy orig_graph ∅ ;;
   match output_vals with
   | None => raise AssertionError
   | Some (output_val, old_output_val) =>
       old <- deref old_output_val ;;
       fx_output MainG output_val (n_type old) >>
       modify (fun st =>
         let '(sm, cm) := pair_up (nodes MainG st) (nodes SetupG st) (nodes CleanupG st) ∅ ∅ in
         with_counters 0 0 (with_freeze false (with_mappings sm cm st)))
   end)
  (mkIterGraph store (mkGraph [] (Before None))
     (mkGraph setup_graph (Before None)) (mkGraph cleanup_graph (Before None))
     ∅ ∅ false 0 0 []).

Definition _lookup_node (node : nat) (graph : GraphId) (st : IterGraph) : option nat :=
  match graph with
  | SetupG => _setup_mapping st !! node
  | CleanupG => _cleanup_mapping st !! node
  | _ => Some node
  end.

Definition lookup (node : nat) (graph : GraphId) : M (option nat) :=
  st <- get ;; ret (_lookup_node node graph st).

(** [self._all_graphs] *)
Definition _all_graphs : list GraphId := [SetupG; CleanupG; MainG].

(** [lambda arg: self._lookup_node(arg, graph) if isinstance(arg, fx.Node) else arg] *)
Definition lookup_arg (graph : GraphId) (st : IterGraph) (arg : Argument) : Argument :=
  match arg with
  | ANode n => match _lookup_node n graph st with
               | Some m => ANode m
               | None => ANone
               end
  | _ => arg
  end.

Definition map_kwargs (f : Argument -> Argument) (kwargs : list (string * Argument))
  : list (string * Argument) :=
  map (fun kv => (fst kv, tree_map f (snd kv))) kwargs.

Definition is_frozen : M bool :=
  st <- get ;; ret (_freeze_cross_iter_movement st).

Definition record_mapping (main_node setup_node cleanup_node : nat) : M unit :=
  modify (fun st =>
    with_mappings (<[main_node := setup_node]> (_setup_mapping st))
                  (<[main_node := cleanup_node]> (_cleanup_mapping st)) st).

Definition call_function (the_function : Target) (args : list Argument)
    (kwargs : list (string * Argument)) (type_expr : option string) : M nat :=
  frozen <- is_frozen ;;
  if frozen then fx_call_function MainG the_function args kwargs type_expr
  else
    st <- get ;;
    let setup_args := map (tree_map (lookup_arg SetupG st)) args in
    let setup_kwargs := map_kwargs (lookup_arg SetupG st) kwargs in
    let cleanup_args := map (tree_map (lookup_arg CleanupG st)) args in
    let cleanup_kwargs := map_kwargs (lookup_arg CleanupG st) kwargs in
    setup_node <- fx_call_function SetupG the_function setup_args setup_kwargs type_expr ;;
    main_node <- fx_call_function MainG the_function args kwargs type_expr ;;
    cleanup_node <- fx_call_function CleanupG the_function cleanup_args cleanup_kwargs type_expr ;;
    record_mapping main_node setup_node cleanup_node >>
    ret main_node.

Definition erase_node (to_erase : nat) : M unit :=
  frozen <- is_frozen ;;
  if frozen then fx_erase_node MainG (Some to_erase)
  else
    setup_node <- lookup to_erase SetupG ;;
    assert_ (bool_decide (is_Some setup_node)) >>
    fx_erase_node SetupG setup_node >>
    fx_erase_node MainG (Some to_erase) >>
    cleanup_node <- lookup to_erase CleanupG ;;
    fx_erase_node CleanupG cleanup_node.

(** The unfrozen branch has no [return]: the caller gets [None]. *)
Definition placeholder (name : string) (type_expr : option string)
    (default_value : option Argument) : M (option nat) :=
  frozen <- is_frozen ;;
  if frozen then
    n <- fx_placeholder MainG (NameStr name) type_expr default_value ;; ret (Some n)
  else
    main_placeholder <- fx_placeholder MainG (NameStr name) type_expr default_value ;;
    setup_placeholder <- fx_placeholder SetupG (NameStr name) type_expr default_value ;;
    cleanup_placeholder <- fx_placeholder CleanupG (NameStr name) type_expr default_value ;;
    record_mapping main_placeholder setup_placeholder cleanup_placeholder >>
    ret None.

Definition output (result : Argument) (type_expr : option string) : M nat :=
  frozen <- is_frozen ;;
  if frozen then fx_placeholder MainG (NameObj result) type_expr None
  else
    main_output <- fx_output MainG result type_expr ;;
    st <- get ;;
    let setup_result := tree_map (lookup_arg SetupG st) result in
    let cleanup_result := tree_map (lookup_arg CleanupG st) result in
    fx_output SetupG setup_result type_expr >>
    fx_output CleanupG cleanup_result type_expr >>
    ret main_output.

Definition node_prepend (target_node node : nat) : M unit :=
  frozen <- is_frozen ;;
  if frozen then fx_node_prepend target_node node
  else
    forM_ _all_graphs (fun graph =>
      actual_node <- lookup node graph ;;
      match actual_node with
      | None => raise AssertionError
      | Some actual_node =>
          actual_target_node <- lookup target_node graph ;;
          match actual_target_node with
          | None => raise AssertionError
          | Some actual_target_node => fx_node_prepend actual_target_node actual_node
          end
      end).

Definition node_append (target_node node : nat) : M unit :=
  frozen <- is_frozen ;;
  if frozen then fx_node_append target_node node
  else
    forM_ _all_graphs (fun graph =>
      actual_node <- lookup node graph ;;
      match actual_node with
      | None => raise AssertionError
      | Some actual_node =>
          actual_target_node <- lookup target_node graph ;;
          match actual_target_node with
          | None => raise AssertionError
          | Some actual_target_node => fx_node_append actual_target_node actual_node
          end
      end).

Definition node_update_arg (node : nat) (idx : Z) (arg : Argument) : M unit :=
  frozen <- is_frozen ;;
  if frozen then fx_update_arg node IType arg
  else
    st <- get ;;
    let setup_arg := tree_map (lookup_arg SetupG st) arg in
    setup_node <- lookup node SetupG ;;
    match setup_node with
    | None => raise AssertionError
    | Some setup_node =>
        fx_update_arg setup_node (IInt idx) setup_arg >>
        fx_update_arg node (IInt idx) arg >>
        st <- get ;;
        let cleanup_arg := tree_map (lookup_arg CleanupG st) arg in
        cleanup_node <- lookup node CleanupG ;;
        match cleanup_node with
        | None => raise AssertionError
        | Some cleanup_node => fx_update_arg cleanup_node (IInt idx) cleanup_arg
        end
    end.

Definition freeze_cross_iter_movement : M unit :=
  modify (with_freeze true).

(** ** Boundary-value threading *)

Definition has_target_output (st : IterGraph) (n : nat) : bool :=
  match heap st !! n with
  | Some nd => bool_decide (n_target nd = TName "output")
  | None => false
  end.

Definition _find_output (graph : GraphId) (st : IterGraph) : option nat :=
  List.find (has_target_output st) (rev (nodes graph st)).

(** The test on one user in [_is_connect_to_output]. *)
Definition user_allowed (all_nodes : list nat) (output : option nat) (user : User) : bool :=
  match user with
  | UMark _ => true
  | UNode u => negb (negb (bool_decide (u ∈ all_nodes)) && negb (bool_decide (Some u = output)))
  end.

Fixpoint is_connect_loop (all_nodes subgraph : list nat) (output : option nat) : M bool :=
  match subgraph with
  | [] => ret true
  | node :: rest =>
      nd <- deref node ;;
      if forallb (user_allowed all_nodes output) (n_users nd)
      then is_connect_loop all_nodes rest output
      else ret false
  end.

Definition _is_connect_to_output (subgraph : list nat) (output : option nat) : M bool :=
  is_connect_loop subgraph subgraph output.

(** [x in all_nodes] for a flattened argument [x] and a set of
    [Optional[fx.Node]]. *)
Definition arg_in (a : Argument) (all_nodes : list (option nat)) : bool :=
  match a with
  | ANode n => bool_decide (Some n ∈ all_nodes)
  | ANone => bool_decide (None ∈ all_nodes)
  | _ => false
  end.

Definition set_node_args (n : nat) (a : list Argument) : M unit :=
  nd <- deref n ;; update_args_kwargs n a (n_kwargs nd).

Definition set_node_kwargs (n : nat) (k : list (string * Argument)) : M unit :=
  nd <- deref n ;; update_args_kwargs n (n_args nd) k.

Definition clone_input (all_nodes : list (option nat)) (mapping : gmap nat nat)
    (oc : Argument * Argument) : M Argument :=
  let '(original_input_node, cloned_input_node) := oc in
  if arg_in original_input_node all_nodes then
    match original_input_node with
    | ANode n => match mapping !! n with
                 | Some c => ret (ANode c)
                 | None => raise AssertionError
                 end
    | _ => raise AssertionError
    end
  else ret cloned_input_node.

Fixpoint clone_loop (graph : GraphId) (all_nodes subgraph : list (option nat))
    (mapping : gmap nat nat) : M (list nat) :=
  match subgraph with
  | [] => ret []
  | o :: rest =>
      p <- deref_opt o ;;
      let '(node, nd) := p in
      cloned_node <- fx_call_function graph (n_target nd) (n_args nd) (n_kwargs nd) (n_type nd) ;;
      nd <- deref node ;;
      let original_input := tree_flatten (n_args nd) (n_kwargs nd) in
      cd <- deref cloned_node ;;
      let cloned_input := tree_flatten (n_args cd) (n_kwargs cd) in
      mapped_cloned_input <- mapM (clone_input all_nodes mapping) (zip original_input cloned_input) ;;
      ak <- tree_unflatten mapped_cloned_input (n_args cd, n_kwargs cd) ;;
      set_node_args cloned_node (fst ak) >>
      set_node_kwargs cloned_node (snd ak) >>
      cloned_subgraph <- clone_loop graph all_nodes rest (<[node := cloned_node]> mapping) ;;
      ret (cloned_node :: cloned_subgraph)
  end.

Definition _clone_subgraph (subgraph : list (option nat)) (graph : GraphId) (target : nat)
  : M (list nat) :=
  fx_inserting_before graph (Some target) (clone_loop graph subgraph subgraph ∅).

(** The first loop of [_forward_subgraph_inputs]: the node-valued inputs
    of the block that are not themselves in the block. *)
Definition external_inputs (all_nodes : list (option nat)) (nd : Node) : list nat :=
  omap (fun _input =>
          match is_node _input with
          | None => None
          | Some i => if bool_decide (Some i ∈ all_nodes) then None else Some i
          end)
       (tree_flatten (n_args nd) (n_kwargs nd)).

Fixpoint collect_inputs (all_nodes subgraph : list (option nat)) : M (list nat) :=
  match subgraph with
  | [] => ret []
  | o :: rest =>
      p <- deref_opt o ;;
      inputs <- collect_inputs all_nodes rest ;;
      ret (external_inputs all_nodes (snd p) ++ inputs)
  end.

(** [key in new_output], membership in a tuple of arguments. *)
Definition user_in_args (key : User) (new_output : list Argument) : bool :=
  match key with
  | UNode k => existsb (fun a => bool_decide (is_node a = Some k)) new_output
  | UMark _ => false
  end.

Fixpoint erase_loop (graph : GraphId) (output : nat) (new_output : list Argument)
    (subgraph : list (option nat)) (erased : list nat) : M unit :=
  match subgraph with
  | [] => ret tt
  | o :: rest =>
      p <- deref_opt o ;;
      let '(node, nd) := p in
      (match n_users nd with
       | [key] =>
           if negb (user_in_args key new_output) && bool_decide (key = UNode output)
           then update_node node (set_users [])
           else ret tt
       | _ => ret tt
       end) >>
      nd <- deref node ;;
      forM_ (n_users nd) (fun user =>
        match user with
        | UNode u => if bool_decide (u ∈ erased) then users_pop node user else ret tt
        | UMark _ => ret tt
        end) >>
      nd <- deref node ;;
      if negb (length (n_users nd) =? 0) then raise RuntimeError
      else
        fx_erase_node graph (Some node) >>
        erase_loop graph output new_output rest (node :: erased)
  end.

Definition _forward_subgraph_inputs (subgraph : list (option nat)) (graph : GraphId)
    (erase_node : bool) : M nat :=
  st <- get ;;
  let output := _find_output graph st in
  inputs <- collect_inputs subgraph subgraph ;;
  p <- deref_opt output ;;
  let '(output, od) := p in
  let new_output := n_args od ++ map ANode inputs in
  (if erase_node then erase_loop graph output new_output (rev subgraph) [] else ret tt) >>
  fx_erase_node graph (Some output) >>
  fx_output graph (ATuple new_output) None >>
  ret (length inputs).

(** The leading placeholders of a node list: the last one, if any. *)
Fixpoint last_placeholder_loop (l : list nat) (last_placeholder : option nat)
  : M (option nat) :=
  match l with
  | [] => ret last_placeholder
  | node :: rest =>
      nd <- deref node ;;
      if decide (n_op nd = placeholder_op)
      then last_placeholder_loop rest (Some node)
      else ret last_placeholder
  end.

(** [f"cross_iter_input_{self._cross_iter_block_count}_{i}"] *)
Definition cross_iter_input_name (count i : nat) : string :=
  ("cross_iter_input_" +:+ pretty count +:+ "_" +:+ pretty i)%string.

(** Rewriting the flattened inputs of one node, drawing on the iterator
    [new_input_nodes]; [None] stands for [StopIteration]. *)
Fixpoint redirect_inputs (all_nodes : list nat) (node_inputs : list Argument)
    (new_input_nodes : list nat) : option (list Argument * list nat) :=
  match node_inputs with
  | [] => Some ([], new_input_nodes)
  | input_node :: rest =>
      match is_node input_node with
      | Some n =>
          if bool_decide (n ∈ all_nodes) then
            match redirect_inputs all_nodes rest new_input_nodes with
            | Some (r, it) => Some (input_node :: r, it)
            | None => None
            end
          else
            match new_input_nodes with
            | [] => None
            | p :: it =>
                match redirect_inputs all_nodes rest it with
                | Some (r, it') => Some (ANode p :: r, it')
                | None => None
                end
            end
      | None =>
          match redirect_inputs all_nodes rest new_input_nodes with
          | Some (r, it) => Some (input_node :: r, it)
          | None => None
          end
      end
  end.

Fixpoint import_loop (all_nodes subgraph : list nat) (new_input_nodes : list nat)
  : M (list nat) :=
  match subgraph with
  | [] => ret new_input_nodes
  | node :: rest =>
      nd <- deref node ;;
      match redirect_inputs all_nodes (tree_flatten (n_args nd) (n_kwargs nd)) new_input_nodes with
      | None => raise RuntimeError
      | Some (new_node_inputs, it) =>
          ak <- tree_unflatten new_node_inputs (n_args nd, n_kwargs nd) ;;
          set_node_args node (fst ak) >>
          set_node_kwargs node (snd ak) >>
          import_loop all_nodes rest it
      end
  end.

Definition _forward_inputs_to_subgraph (subgraph : list nat) (graph : GraphId)
    (extra_input : nat) : M unit :=
  st <- get ;;
  last_placeholder <- last_placeholder_loop (nodes graph st) None ;;
  assert_ (bool_decide (is_Some last_placeholder)) >>
  created <- fx_inserting_after graph last_placeholder
    (mapM (fun i =>
             fx_placeholder graph
               (NameStr (cross_iter_input_name (_cross_iter_block_count st) i)) None None)
          (rev (seq 0 extra_input))) ;;
  let new_input_nodes := rev created in
  unused <- import_loop subgraph subgraph new_input_nodes ;;
  match unused with
  | [] => ret tt
  | unused_node :: _ => raise RuntimeError
  end.

(** ** The cross-iteration move *)

(** [for node in graph.nodes: if len(node.users) == 0: node.users["__hold__"] = None] *)
Definition hold_unused (graph : GraphId) : M unit :=
  st <- get ;;
  forM_ (nodes graph st) (fun node =>
    nd <- deref node ;;
    if length (n_users nd) =? 0 then users_setdefault node held
    else ret tt).

(** The part of [move_to_next_iter_before] that works on the setup
    graph. *)
Definition move_setup_part (subgraph : list nat) : M nat :=
  st <- get ;;
  _forward_subgraph_inputs (map (fun node => _lookup_node node SetupG st) subgraph)
    SetupG true.

(** The part that works on the cleanup graph. *)
Definition move_cleanup_part (subgraph : list nat) (target_node : nat)
    (setup_extra_input : nat) : M unit :=
  target_cleanup_node <- lookup target_node CleanupG ;;
  match target_cleanup_node with
  | None => raise AssertionError
  | Some target_cleanup_node =>
      st <- get ;;
      cloned_subgraph <-
        _clone_subgraph (map (fun node => _lookup_node node CleanupG st) subgraph)
          CleanupG target_cleanup_node ;;
      _forward_inputs_to_subgraph cloned_subgraph CleanupG setup_extra_input
  end.

(** The export on the main graph. *)
Definition move_main_export (subgraph : list nat) : M nat :=
  _forward_subgraph_inputs (map Some subgraph) MainG false.

Definition bump_counters (blocks extra : nat) : M unit :=
  modify (fun st =>
    with_counters (_cross_iter_block_count st + blocks) (num_extra_output st + extra) st).

Definition move_to_next_iter_before (subgraph : list nat) (target_node : nat) : M unit :=
  frozen <- is_frozen ;;
  if frozen then raise RuntimeError
  else
    st <- get ;;
    connected <- _is_connect_to_output subgraph (_find_output MainG st) ;;
    if negb connected then raise ValueError
    else
      bump_counters 1 0 >>
      setup_extra_input <- move_setup_part subgraph ;;
      move_cleanup_part subgraph target_node setup_extra_input >>
      main_extra_input <- move_main_export subgraph ;;
      assert_ (main_extra_input =? setup_extra_input) >>
      forM_ subgraph (fun node => fx_node_prepend target_node node) >>
      _forward_inputs_to_subgraph subgraph MainG main_extra_input >>
      hold_unused CleanupG >>
      hold_unused MainG >>
      bump_counters 0 main_extra_input.

(** ** [IterGraphModule], the iteration dispatcher *)

(** Run-time values: tuples, and other objects, which may or may not
    support [len]. *)
Inductive PyVal :=
  | VTuple (l : list PyVal)
  | VObj (len : option nat) (id : Z).

(** The three graph modules a call can be routed to. *)
Inductive Gm := setup_gm | cleanup_gm | main_gm.

#[global] Instance Gm_eq_dec : EqDecision Gm.
Proof. solve_decision. Defined.

Record IterGraphModule := mkIterGraphModule {
  graph : IterGraph;
  _iter : Z;
  _max_iters : Z;
  _previous_output : list PyVal
}.

Definition py_len (v : PyVal) : Res nat :=
  match v with
  | VTuple l => Ok (length l)
  | VObj (Some n) _ => Ok n
  | VObj None _ => Raise TypeError
  end.

Definition setup (max_iters : Z) (d : IterGraphModule) : Res unit * IterGraphModule :=
  if (max_iters <=? 0)%Z then (Raise ValueError, d)
  else (Ok tt, mkIterGraphModule (graph d) 0 max_iters (_previous_output d)).

Section Dispatcher.

(** The graph executor, an external collaborator: calling a graph
    module on positional and keyword arguments. *)
Variable call_gm : Gm -> list PyVal -> list (string * PyVal) -> Res PyVal.

(** [logger.debug(f"... size={len(output)} ...")] evaluates
    [len(output)] before the value is returned. *)
Definition debug_and_return (output : PyVal) (d : IterGraphModule)
  : Res PyVal * IterGraphModule :=
  match py_len output with
  | Ok _ => (Ok output, d)
  | Raise e => (Raise e, d)
  end.

Definition _run (gm : Gm) (args : list PyVal) (kwargs : list (string * PyVal))
    (d : IterGraphModule) : Res PyVal * IterGraphModule :=
  if 0 <? num_extra_output (graph d) then
    match kwargs with
    | _ :: _ => (Raise AssertionError, d)
    | [] =>
        let new_args := args ++ _previous_output d in
        match call_gm gm new_args kwargs with
        | Raise e => (Raise e, d)
        | Ok output =>
            if (_iter d <? _max_iters d)%Z then
              match output with
              | VTuple l =>
                  if num_extra_output (graph d) <? length l then
                    let num_actual_output := length l - num_extra_output (graph d) in
                    let d' := mkIterGraphModule (graph d) (_iter d) (_max_iters d)
                                (drop num_actual_output l) in
                    let output := take num_actual_output l in
                    match output with
                    | [v] => debug_and_return v d'
                    | _ => debug_and_return (VTuple output) d'
                    end
                  else (Raise AssertionError, d)
              | VObj _ _ => (Raise AssertionError, d)
              end
            else debug_and_return output d
        end
    end
  else
    match call_gm gm args kwargs with
    | Raise e => (Raise e, d)
    | Ok output => debug_and_return output d
    end.

(** [self._iter += 1] *)
Definition tick (d : IterGraphModule) : IterGraphModule :=
  mkIterGraphModule (graph d) (_iter d + 1) (_max_iters d) (_previous_output d).

(** The graph module [forward] picks, from the incremented counter. *)
Definition select_gm (d : IterGraphModule) : Gm :=
  if (_iter d =? 1)%Z then setup_gm
  else if (_iter d =? _max_iters d)%Z then cleanup_gm
  else main_gm.

Definition forward (args : list PyVal) (kwargs : list (string * PyVal))
    (d : IterGraphModule) : Res PyVal * IterGraphModule :=
  let d := tick d in
  _run (select_gm d) args kwargs d.

(** The dispatcher after a sequence of calls, whatever they returned. *)
Fixpoint after_calls (calls : list (list PyVal * list (string * PyVal)))
    (d : IterGraphModule) : IterGraphModule :=
  match calls with
  | [] => d
  | (args, kwargs) :: rest => after_calls rest (snd (forward args kwargs d))
  end.

(** The graph modules a sequence of calls is routed to. *)
Fixpoint routes (calls : list (list PyVal * list (string * PyVal)))
    (d : IterGraphModule) : list Gm :=
  match calls with
  | [] => []
  | (args, kwargs) :: rest =>
      select_gm (tick d) :: routes rest (snd (forward args kwargs d))
  end.

End Dispatcher.

(** ** The engine without its user sets

    Which nodes exist, how they are linked, what their arguments are and
    what the correspondence maps hold does not depend on the [users]
    dictionaries; the effect of each [fx] primitive on this part of the
    state is a pure function. *)

Definition forget_users (st : IterGraph) : IterGraph :=
  with_heap (map (set_users []) (heap st)) st.

Definition sk_set_args (self : nat) (a : list Argument) (k : list (string * Argument))
    (st : IterGraph) : IterGraph :=
  with_heap (alter (set_args a k) self (heap st)) st.

(** A node object made and given its arguments, not yet linked. *)
Definition sk_alloc (g : GraphId) (op : Op) (target : Target) (args : list Argument)
    (kwargs : list (string * Argument)) (type_expr : option string)
    (st : IterGraph) : IterGraph :=
  with_heap (heap st ++ [mkNode g op target args kwargs type_expr [] false]) st.

(** The effect of [fx_create_node]. *)
Definition sk_create (g : GraphId) (op : Op) (target : Target) (args : list Argument)
    (kwargs : list (string * Argument)) (type_expr : option string)
    (st : IterGraph) : IterGraph :=
  with_edits (edits st ++ [(g, ECreate op)])
    (with_graph g
       (mkGraph (link (g_insert (graph_of g st)) (length (heap st)) (nodes g st))
                (g_insert (graph_of g st)))
       (sk_alloc g op target args kwargs type_expr st)).

Definition erased_node (nd : Node) : Node :=
  mkNode (n_graph nd) (n_op nd) (n_target nd)
    (map (tree_map drop_node_ref) (n_args nd))
    (map (fun kv => (fst kv, tree_map drop_node_ref (snd kv))) (n_kwargs nd))
    (n_type nd) (n_users nd) true.

(** The effect of [fx_erase_node] on a node that was not erased before. *)
Definition sk_erase (g : GraphId) (n : nat) (st : IterGraph) : IterGraph :=
  with_heap (alter erased_node n (heap st))
    (with_edits (edits st ++ [(g, EErase)])
       (with_graph g
          (mkGraph (filter (fun y => y <> n) (nodes g st)) (g_insert (graph_of g st)))
          st)).

(** ** The values a block takes from outside *)

(** The node-valued inputs of the nodes of [block] that are not in
    [all_nodes], one entry for each use, in the order of the traversal. *)
Definition inputs_of (st : IterGraph) (all_nodes : list (option nat)) (block : list nat)
  : list nat :=
  flat_map (fun n => match heap st !! n with
                     | Some nd => external_inputs all_nodes nd
                     | None => []
                     end) block.

Definition block_inputs (st : IterGraph) (block : list nat) : list nat :=
  inputs_of st (map Some block) block.

(** The same values as the export is described: each value once, in
    first-seen order. *)
Definition block_inputs_dedup (st : IterGraph) (block : list nat) : list nat :=
  dedup_from [] (block_inputs st block).

(** The fields of the engine that no [fx] primitive can reach: the
    correspondence maps, the freeze flag and the two counters. *)
Definition control (st : IterGraph)
  : gmap nat nat * gmap nat nat * bool * nat * nat :=
  (_setup_mapping st, _cleanup_mapping st, _freeze_cross_iter_movement st,
   _cross_iter_block_count st, num_extra_output st).

(** The graphs edited between two states of the engine, in order. *)
Definition edited_graphs (st st' : IterGraph) : list GraphId :=
  map fst (drop (length (edits st)) (edits st')).

(** ** Structural correspondence *)

(** A node object owned by graph [g] and not erased. *)
Definition alive (st : IterGraph) (g : GraphId) (n : nat) : Prop :=
  exists nd, heap st !! n = Some nd /\ n_graph nd = g /\ n_erased nd = false.

(** [s] is the counterpart recorded for the steady node [m] in the
    satellite graph [g]. *)
Definition counterpart (st : IterGraph) (g : GraphId) (m s : nat) : Prop :=
  _lookup_node m g st = Some s /\ s ∈ nodes g st.

Definition structural_correspondence (st : IterGraph) : Prop :=
  (forall m, m ∈ nodes MainG st ->
     (exists! s, counterpart st SetupG m s) /\ (exists! c, counterpart st CleanupG m c))
  /\ length (nodes SetupG st) = length (nodes MainG st)
  /\ length (nodes CleanupG st) = length (nodes MainG st).

(** The invariant behind it, in two parts.  [well_formed]: the engine
    is not frozen, no node is linked twice, every linked node is a live
    object of its graph, and the maps speak of existing objects. *)
Definition well_formed (st : IterGraph) : Prop :=
  _freeze_cross_iter_movement st = false
  /\ (forall g, g <> OrigG -> NoDup (nodes g st))
  /\ (forall g n, g <> OrigG -> n ∈ nodes g st -> alive st g n)
  /\ (forall m s, _setup_mapping st !! m = Some s ->
        m < length (heap st) /\ s < length (heap st))
  /\ (forall m c, _cleanup_mapping st !! m = Some c ->
        m < length (heap st) /\ c < length (heap st)).

(** A map pairs the steady nodes [ms] one to one with the satellite
    nodes [ss]. *)
Definition paired (mapping : gmap nat nat) (ms ss : list nat) : Prop :=
  (forall m, m ∈ ms -> exists s, mapping !! m = Some s /\ s ∈ ss)
  /\ (forall m s, mapping !! m = Some s -> s ∈ ss -> m ∈ ms)
  /\ (forall m m' s, mapping !! m = Some s -> mapping !! m' = Some s -> s ∈ ss -> m = m')
  /\ length ss = length ms.

Definition pairs_with (st : IterGraph) (mapping : gmap nat nat) (g : GraphId) : Prop :=
  paired mapping (nodes MainG st) (nodes g st).

Definition in_correspondence (st : IterGraph) : Prop :=
  well_formed st
  /\ pairs_with st (_setup_mapping st) SetupG
  /\ pairs_with st (_cleanup_mapping st) CleanupG.

(** One map of the constructor's pairing, when the lists are equally
    long. *)
Fixpoint pair_map (ms ss : list nat) (mapping : gmap nat nat) : gmap nat nat :=
  match ms, ss with
  | m :: ms', s :: ss' => pair_map ms' ss' (<[m := s]> mapping)
  | _, _ => mapping
  end.

(** The mirrored creations and erasures. *)
Inductive MirroredOp :=
  | DoCallFunction (the_function : Target) (args : list Argument)
      (kwargs : list (string * Argument)) (type_expr : option string)
  | DoPlaceholder (name : string) (type_expr : option string)
      (default_value : option Argument)
  | DoEraseNode (to_erase : nat).

Definition perform (op : MirroredOp) : M unit :=
  match op with
  | DoCallFunction f args kwargs ty => call_function f args kwargs ty >> ret tt
  | DoPlaceholder name ty dv => placeholder name ty dv >> ret tt
  | DoEraseNode n => erase_node n
  end.

(** A sequence of operations each of which is performed, that is,
    returns normally; [None] when one of them raises. *)
Fixpoint perform_all (ops : list MirroredOp) (st : IterGraph) : option IterGraph :=
  match ops with
  | [] => Some st
  | op :: rest =>
      match perform op st with
      | (Ok _, st') => perform_all rest st'
      | (Raise _, _) => None
      end
  end.

(** [IterGraphModule.__init__], given the engine built from the three
    copies of the traced graph. *)
Definition new_module (g : IterGraph) : IterGraphModule :=
  mkIterGraphModule g 0 0 [].

(** What the dispatcher is described to do with the raw result [l] of a
    graph when boundary values are threaded: keep the last
    [num_extra_output] values for the next call and return the others,
    a single one as a bare value. *)
Definition unwrap (real : list PyVal) : PyVal :=
  match real with
  | [v] => v
  | _ => VTuple real
  end.

Definition threads_boundary (l : list PyVal) (d : IterGraphModule)
    (r : Res PyVal * IterGraphModule) : Prop :=
  let n := length l - num_extra_output (graph d) in
  fst r = Ok (unwrap (take n l)) /\ _previous_output (snd r) = drop n l.

(** The graph module for call [i] under the bound [N], as the three
    routing rules give it. *)
Definition gm_at (i N : Z) : Gm :=
  if (i =? 1)%Z then setup_gm
  else if (i =? N)%Z then cleanup_gm
  else main_gm.

(** ** A sample engine

    The traced graph [x; y = f(x); z = g(x); return (y,)], with [z] a
    node without users, and its two deep copies. *)
Module Sample.

Definition sample_graph (g : GraphId) (base : nat) : list Node :=
  [ mkNode g placeholder_op (TName "x") [] [] None
      [UNode (base + 1); UNode (base + 2)] false;
    mkNode g call_function_op (TCallable 0) [ANode base] [] None
      [UNode (base + 3)] false;
    mkNode g call_function_op (TCallable 1) [ANode base] [] None [] false;
    mkNode g output_op (TName "output") [ATuple [ANode (base + 1)]] [] None [] false ].

Definition store : list Node :=
  sample_graph OrigG 0 ++ sample_graph SetupG 4 ++ sample_graph CleanupG 8.

(** The engine as constructed: its own nodes are 12 ([x]), 13 ([y]),
    14 ([z]) and 15 (output). *)
Definition engine : IterGraph :=
  snd (__init__ store [0; 1; 2; 3] [4; 5; 6; 7] [8; 9; 10; 11]).

(** The engine after [z] has been moved to the next iteration, before
    [y]. *)
Definition moved : IterGraph :=
  snd (move_to_next_iter_before [14] 13 engine).

(** An executor that answers every call with the same pair. *)
Definition pair_gm (gm : Gm) (args : list PyVal) (kwargs : list (string * PyVal))
  : Res PyVal :=
  Ok (VTuple [VObj (Some 1) 1; VObj (Some 1) 2]).

End Sample.


(** * The remaining methods of [IterGraph] *)

(** [target.prepend(x)] for an [x] that may be [None]: reading
    [x.graph] fails on [None]. *)
Definition fx_node_prepend_opt (self : nat) (x : option nat) : M unit :=
  match x with
  | Some x => fx_node_prepend self x
  | None => raise AttributeError
  end.

Definition fx_node_append_opt (self : nat) (x : option nat) : M unit :=
  match x with
  | Some x => fx_node_append self x
  | None => raise AttributeError
  end.

(** [move_before]: no test of the freeze flag. *)
Definition move_before (nodes : list nat) (target_node : nat) : M unit :=
  forM_ _all_graphs (fun graph =>
    st <- get ;;
    let actual_nodes := map (fun node => _lookup_node node graph st) nodes in
    actual_target_node <- lookup target_node graph ;;
    match actual_target_node with
    | None => raise AssertionError
    | Some actual_target_node =>
        forM_ actual_nodes (fun actual_node =>
          fx_node_prepend_opt actual_target_node actual_node)
    end).

(** The inner loop of [move_after]: the target moves along with the
    nodes appended. *)
Fixpoint move_after_loop (actual_nodes : list (option nat))
    (actual_target_node : option nat) : M unit :=
  match actual_nodes with
  | [] => ret tt
  | actual_node :: rest =>
      match actual_target_node with
      | None => raise AssertionError
      | Some target =>
          fx_node_append_opt target actual_node >>
          move_after_loop rest actual_node
      end
  end.

Definition move_after (nodes : list nat) (target_node : nat) : M unit :=
  forM_ _all_graphs (fun graph =>
    st <- get ;;
    let actual_nodes := map (fun node => _lookup_node node graph st) nodes in
    actual_target_node <- lookup target_node graph ;;
    move_after_loop actual_nodes actual_target_node).

(** The key [None] of a [users] dictionary, one of the hashables that
    are not nodes. *)
Definition none_key : User := UMark "None".

(** [self._lookup_node(user, graph) if isinstance(user, fx.Node) else user] *)
Definition actual_user (user : User) (graph : GraphId) (st : IterGraph) : User :=
  match user with
  | UNode u => match _lookup_node u graph st with
               | Some a => UNode a
               | None => none_key
               end
  | UMark _ => user
  end.

Definition node_add_user (node : nat) (user : User) : M unit :=
  forM_ _all_graphs (fun graph =>
    actual_node <- lookup node graph ;;
    st <- get ;;
    let actual_user_node := actual_user user graph st in
    match actual_node with
    | None => raise AssertionError
    | Some actual_node => users_setdefault actual_node actual_user_node
    end).

Definition node_remove_user (node : nat) (user : User) : M unit :=
  forM_ _all_graphs (fun graph =>
    actual_node <- lookup node graph ;;
    st <- get ;;
    let actual_user_node := actual_user user graph st in
    match actual_node with
    | None => raise AssertionError
    | Some actual_node => users_pop actual_node actual_user_node
    end).

Definition keep_unused_nodes : M unit :=
  st <- get ;;
  forM_ (nodes MainG st) (fun node =>
    nd <- deref node ;;
    if (length (n_users nd) =? 0) && negb (bool_decide (n_op nd = output_op))
    then node_add_user node held
    else ret tt).

(** [_insert_context]: the insertion contexts of the three graphs are
    entered one after the other and left in reverse order, also when
    the lookup of a later graph fails or the body raises. *)
Fixpoint insert_context_loop {A} (before : bool) (node : option nat)
    (graphs : list GraphId) (body : M A) : M A :=
  match graphs with
  | [] => body
  | graph :: rest =>
      let enter := if before then @fx_inserting_before A else @fx_inserting_after A in
      match node with
      | Some n =>
          actual_node <- lookup n graph ;;
          match actual_node with
          | None => raise AssertionError
          | Some a => enter graph (Some a) (insert_context_loop before node rest body)
          end
      | None => enter graph None (insert_context_loop before node rest body)
      end
  end.

Definition _insert_context {A} (before : bool) (node : option nat) (body : M A) : M A :=
  insert_context_loop before node _all_graphs body.

Definition inserting_after {A} (node : option nat) (body : M A) : M A :=
  _insert_context false node body.

Definition inserting_before {A} (node : option nat) (body : M A) : M A :=
  _insert_context true node body.

(** The editing methods of the engine, as one type of calls. *)
Inductive Call :=
  | CallFunction (the_function : Target) (args : list Argument)
      (kwargs : list (string * Argument)) (type_expr : option string)
  | CallEraseNode (to_erase : nat)
  | CallPlaceholder (name : string) (type_expr : option string)
      (default_value : option Argument)
  | CallOutput (result : Argument) (type_expr : option string)
  | CallNodePrepend (target_node node : nat)
  | CallNodeAppend (target_node node : nat)
  | CallNodeUpdateArg (node : nat) (idx : Z) (arg : Argument)
  | CallMoveBefore (nodes : list nat) (target_node : nat)
  | CallMoveAfter (nodes : list nat) (target_node : nat)
  | CallNodeAddUser (node : nat) (user : User)
  | CallNodeRemoveUser (node : nat) (user : User)
  | CallKeepUnusedNodes
  | CallMoveToNextIterBefore (subgraph : list nat) (target_node : nat)
  | CallFreeze.

Definition call (c : Call) : M unit :=
  match c with
  | CallFunction f args kwargs ty => call_function f args kwargs ty >> ret tt
  | CallEraseNode n => erase_node n
  | CallPlaceholder name ty dv => placeholder name ty dv >> ret tt
  | CallOutput result ty => output result ty >> ret tt
  | CallNodePrepend t n => node_prepend t n
  | CallNodeAppend t n => node_append t n
  | CallNodeUpdateArg n idx arg => node_update_arg n idx arg
  | CallMoveBefore ns t => move_before ns t
  | CallMoveAfter ns t => move_after ns t
  | CallNodeAddUser n u => node_add_user n u
  | CallNodeRemoveUser n u => node_remove_user n u
  | CallKeepUnusedNodes => keep_unused_nodes
  | CallMoveToNextIterBefore subgraph t => move_to_next_iter_before subgraph t
  | CallFreeze => freeze_cross_iter_movement
  end.

(** A run of calls, each on the engine the previous one left, whether it
    returned or raised. *)
Fixpoint calls (cs : list Call) (st : IterGraph) : IterGraph :=
  match cs with
  | [] => st
  | c :: rest => calls rest (snd (call c st))
  end.

(** The freeze flag and the two counters. *)
Definition switches (st : IterGraph) : bool * nat * nat :=
  (_freeze_cross_iter_movement st, _cross_iter_block_count st, num_extra_output st).

(** The two correspondence maps. *)
Definition maps (st : IterGraph) : gmap nat nat * gmap nat nat :=
  (_setup_mapping st, _cleanup_mapping st).

Definition is_creation (c : Call) : bool :=
  match c with
  | CallFunction _ _ _ _ | CallPlaceholder _ _ _ => true
  | _ => false
  end.

Definition is_move_to_next_iter (c : Call) : bool :=
  match c with
  | CallMoveToNextIterBefore _ _ => true
  | _ => false
  end.

Definition is_freeze (c : Call) : bool :=
  match c with
  | CallFreeze => true
  | _ => false
  end.

(** A creation leaves the maps as they are or extends both with one
    entry under the same key. *)
Definition maps_grown (mp mp' : gmap nat nat * gmap nat nat) : Prop :=
  mp' = mp \/ exists m s c, mp' = (<[m := s]> (fst mp), <[m := c]> (snd mp)).

(** The insertion points of the three graphs. *)
Definition insert_points (st : IterGraph) : InsertPoint * InsertPoint * InsertPoint :=
  (g_insert (setup_graph st), g_insert (cleanup_graph st), g_insert (self_graph st)).

(** [n] has been put next to [x] in a node list: just before it, or
    just after it. *)
Definition placed (before : bool) (x n : nat) (l l' : list nat) : Prop :=
  exists l1 l2, l = l1 ++ x :: l2
    /\ l' = if before then l1 ++ n :: x :: l2 else l1 ++ x :: n :: l2.

(** The condition [_is_connect_to_output] is documented to test: every
    user of a block node that is a node is in the block or is the
    output node. *)
Definition connected_to_output (st : IterGraph) (subgraph : list nat)
    (output : option nat) : Prop :=
  forall node nd u, node ∈ subgraph -> heap st !! node = Some nd ->
    UNode u ∈ n_users nd -> u ∈ subgraph \/ output = Some u.

(** A step that leaves the block counter alone and, when it raises, the
    count of extra outputs as well. *)
Definition counts_kept (m : M unit) : Prop :=
  forall s,
    _cross_iter_block_count (snd (m s)) = _cross_iter_block_count s
    /\ (forall e, fst (m s) = Raise e -> num_extra_output (snd (m s)) = num_extra_output s).

(** The engine after the user set of the node object [a] has been
    replaced. *)
Definition with_users (a : nat) (us : list User) (st : IterGraph) : IterGraph :=
  with_heap (alter (set_users us) a (heap st)) st.

(** Between two engines nothing but user sets has changed, and no node
    has lost a user. *)
Definition users_grow (st st' : IterGraph) : Prop :=
  forget_users st' = forget_users st
  /\ forall n nd, heap st !! n = Some nd ->
       exists nd', heap st' !! n = Some nd' /\ (forall v, v ∈ n_users nd -> v ∈ n_users nd').

(** The steady node [x] has both counterparts recorded, and the three
    node objects exist. *)
Definition has_counterparts (st : IterGraph) (x : nat) : Prop :=
  x < length (heap st)
  /\ (exists sx, _setup_mapping st !! x = Some sx /\ sx < length (heap st))
  /\ (exists cx, _cleanup_mapping st !! x = Some cx /\ cx < length (heap st)).

(** The node object [i] is in [st'] what it is in [st], up to its user
    set. *)
Definition same_object (st st' : IterGraph) (i : nat) : Prop :=
  forall nd, heap st !! i = Some nd ->
    exists nd', heap st' !! i = Some nd' /\ set_users [] nd' = set_users [] nd.

(** The graph does not begin with a placeholder. *)
Definition no_leading_placeholder (st : IterGraph) (graph : GraphId) : Prop :=
  match nodes graph st with
  | [] => True
  | n :: _ => exists nd, heap st !! n = Some nd /\ n_op nd <> placeholder_op
  end.



(** ** What it is for a call to execute a graph module *)

(** The positional arguments a call hands to the graph module it
    executes: extended with the retained boundary tuple when boundary
    values are threaded, as given otherwise. *)
Definition passed_args (args : list PyVal) (d : IterGraphModule) : list PyVal :=
  if 0 <? num_extra_output (graph d) then args ++ _previous_output d else args.

(** The call of [forward] with the given arguments, made on the
    dispatcher [d], executes the graph module [gm]: [gm] is called on the arguments
    passed; an exception of [gm] is the exception of the call; a result
    of [gm] is the result of the call, whole when no boundary value is
    to be taken off it, and split when boundary values are threaded and
    the counter is below the bound. *)
Definition executes
    (call_gm : Gm -> list PyVal -> list (string * PyVal) -> Res PyVal)
    (gm : Gm) (args : list PyVal) (kwargs : list (string * PyVal))
    (d : IterGraphModule) : Prop :=
  let r := forward call_gm args kwargs d in
  let k := num_extra_output (graph d) in
  (forall e, call_gm gm (passed_args args d) kwargs = Raise e -> r = (Raise e, tick d))
  /\ (forall output n,
        call_gm gm (passed_args args d) kwargs = Ok output ->
        k = 0 \/ (_max_iters d <= _iter d + 1)%Z ->
        py_len output = Ok n ->
        r = (Ok output, tick d))
  /\ (forall l n,
        call_gm gm (passed_args args d) kwargs = Ok (VTuple l) ->
        0 < k -> (_iter d + 1 < _max_iters d)%Z -> k < length l ->
        py_len (unwrap (take (length l - k) l)) = Ok n ->
        threads_boundary l d r).

(** ** Erasure *)

(** The node object [n] is marked erased. *)
Definition erased (st : IterGraph) (n : nat) : Prop :=
  exists nd, heap st !! n = Some nd /\ n_erased nd = true.

(** The edit that erasing the node object [n] from graph [g] makes:
    none when the node was erased before. *)
Definition erasure (st : IterGraph) (g : GraphId) (n : nat) : list (GraphId * Edit) :=
  match heap st !! n with
  | Some nd => if n_erased nd then [] else [(g, EErase)]
  | None => []
  end.

(** * Properties *)

(** ** The dispatcher *)

Section DispatcherFacts.

Variable call_gm : Gm -> list PyVal -> list (string * PyVal) -> Res PyVal.

Lemma debug_and_return_state output d :
  snd (debug_and_return output d) = d.
Proof. unfold debug_and_return. by destruct (py_len output). Qed.

(** [_run] never touches the counter, the bound or the engine. *)
Lemma run_counters gm args kwargs d :
  _iter (snd (_run call_gm gm args kwargs d)) = _iter d
  /\ _max_iters (snd (_run call_gm gm args kwargs d)) = _max_iters d
  /\ graph (snd (_run call_gm gm args kwargs d)) = graph d.
Proof.
  unfold _run.
  repeat case_match; rewrite ?debug_and_return_state; simpl; auto.
Qed.

Lemma forward_counters args kwargs d :
  _iter (snd (forward call_gm args kwargs d)) = (_iter d + 1)%Z
  /\ _max_iters (snd (forward call_gm args kwargs d)) = _max_iters d.
Proof.
  unfold forward.
  destruct (run_counters (select_gm (tick d)) args kwargs (tick d)) as (Hi & Hm & _).
  rewrite Hi, Hm. done.
Qed.

Lemma after_calls_counters calls : forall d,
  _iter (after_calls call_gm calls d) = (_iter d + Z.of_nat (length calls))%Z
  /\ _max_iters (after_calls call_gm calls d) = _max_iters d.
Proof.
  induction calls as [|[args kwargs] calls IH]; intros d; simpl.
  - split; [lia | done].
  - destruct (IH (snd (forward call_gm args kwargs d))) as [Hi Hm].
    destruct (forward_counters args kwargs d) as [Hi' Hm'].
    rewrite Hi, Hm, Hi', Hm'. split; [lia | done].
Qed.

Lemma select_gm_at d : select_gm d = gm_at (_iter d) (_max_iters d).
Proof. reflexivity. Qed.

(** The routes of a run of calls are read off the call numbers. *)
Lemma routes_gm_at calls : forall d,
  routes call_gm calls d =
  map (fun j => gm_at (_iter d + 1 + Z.of_nat j) (_max_iters d)) (seq 0 (length calls)).
Proof.
  induction calls as [|[args kwargs] calls IH]; intros d; simpl; [done|].
  rewrite IH. destruct (forward_counters args kwargs d) as [-> ->].
  f_equal.
  - rewrite select_gm_at. simpl. f_equal. lia.
  - rewrite <- seq_shift, map_map. apply map_ext. intros j. f_equal. lia.
Qed.

Lemma setup_ok N d d0 :
  setup N d = (Ok tt, d0) -> (0 < N)%Z /\ _iter d0 = 0%Z /\ _max_iters d0 = N.
Proof.
  unfold setup. destruct (N <=? 0)%Z eqn:E; [discriminate|].
  intros [= <-]. simpl. split; [lia | done].
Qed.

(** A call that carries no keyword arguments, or is made when no
    boundary value is threaded, executes the graph module that
    [forward] selects. *)
Lemma forward_executes args kwargs d :
  kwargs = [] \/ num_extra_output (graph d) = 0 ->
  executes call_gm (select_gm (tick d)) args kwargs d.
Proof.
  intros Hk. unfold executes, passed_args, forward, _run. simpl.
  destruct (0 <? num_extra_output (graph d)) eqn:Ek.
  - apply Nat.ltb_lt in Ek. destruct Hk as [->|Hz]; [|lia].
    split; [|split].
    + intros e He. by rewrite He.
    + intros output n Ho [Hz|Hge] Hlen; [lia|]. rewrite Ho.
      destruct (_ <? _)%Z eqn:E; [lia|]. unfold debug_and_return. by rewrite Hlen.
    + intros l n Ho _ Hlt Hlen Hn. rewrite Ho.
      destruct (_ <? _)%Z eqn:E; [|lia].
      destruct (num_extra_output (graph d) <? length l) eqn:El;
        [|apply Nat.ltb_ge in El; lia].
      unfold threads_boundary, unwrap in *.
      destruct (take _ l) as [|v [|w real]];
        unfold debug_and_return; rewrite Hn; simpl; done.
  - apply Nat.ltb_ge in Ek. split; [|split].
    + intros e He. by rewrite He.
    + intros output n Ho _ Hlen. rewrite Ho. unfold debug_and_return. by rewrite Hlen.
    + intros l n _ Hk0. lia.
Qed.

(** C8. After [setup(N)] with [N > 1], call number [i] (the calls made
    before it being [calls], whatever their arguments and outcome) is
    routed to the setup graph module when [i = 1], to the main (steady)
    one when [1 < i < N] and to the cleanup one when [i = N], and it
    executes that graph module: the module is called on the arguments
    passed, its exception or its result is that of the call (a call
    with keyword arguments made while boundary values are threaded is
    refused before any graph module is run).  Five calls under [N = 5]
    are routed to setup, steady, steady, steady, cleanup, and two calls
    under [N = 2] to setup, cleanup. *)
Theorem dispatcher_routing (d d0 : IterGraphModule) (N : Z)
    (calls : list (list PyVal * list (string * PyVal))) :
  (1 < N)%Z ->
  setup N d = (Ok tt, d0) ->
  let i := (Z.of_nat (length calls) + 1)%Z in
  let before := after_calls call_gm calls d0 in
  (forall args kwargs,
     (i = 1%Z -> forward call_gm args kwargs before
                 = _run call_gm setup_gm args kwargs (tick before))
     /\ ((1 < i < N)%Z -> forward call_gm args kwargs before
                          = _run call_gm main_gm args kwargs (tick before))
     /\ (i = N -> forward call_gm args kwargs before
                  = _run call_gm cleanup_gm args kwargs (tick before)))
  /\ (N = 5%Z -> forall c1 c2 c3 c4 c5,
        routes call_gm [c1; c2; c3; c4; c5] d0
        = [setup_gm; main_gm; main_gm; main_gm; cleanup_gm])
  /\ (N = 2%Z -> forall c1 c2,
        routes call_gm [c1; c2] d0 = [setup_gm; cleanup_gm])
  /\ (forall args kwargs,
        kwargs = [] \/ num_extra_output (graph before) = 0 ->
        (i = 1%Z -> executes call_gm setup_gm args kwargs before)
        /\ ((1 < i < N)%Z -> executes call_gm main_gm args kwargs before)
        /\ (i = N -> executes call_gm cleanup_gm args kwargs before)).
Proof.
  intros HN Hsetup i before.
  destruct (setup_ok _ _ _ Hsetup) as (_ & Hi0 & Hm0).
  destruct (after_calls_counters calls d0) as [Hi Hm].
  assert (Hsel : select_gm (tick before) = gm_at i N).
  { rewrite select_gm_at. simpl. fold before in Hi, Hm. rewrite Hi, Hm, Hi0, Hm0.
    f_equal; lia. }
  split; [|split; [|split]].
  - intros args kwargs. unfold forward. rewrite Hsel. unfold gm_at.
    repeat split; intros Hcase.
    + rewrite Hcase. reflexivity.
    + destruct (i =? 1)%Z eqn:E1; [lia|]. destruct (i =? N)%Z eqn:E2; [lia|]. done.
    + destruct (i =? 1)%Z eqn:E1; [lia|]. destruct (i =? N)%Z eqn:E2; [|lia]. done.
  - intros -> c1 c2 c3 c4 c5. rewrite routes_gm_at, Hi0, Hm0. reflexivity.
  - intros -> c1 c2. rewrite routes_gm_at, Hi0, Hm0. reflexivity.
  - intros args kwargs Hk.
    pose proof (forward_executes args kwargs before Hk) as Hex.
    rewrite Hsel in Hex. unfold gm_at in Hex.
    split; [|split]; intros Hcase.
    + by rewrite Hcase in Hex.
    + destruct (i =? 1)%Z eqn:E1; [lia|]. destruct (i =? N)%Z eqn:E2; [lia|]. done.
    + destruct (i =? 1)%Z eqn:E1; [lia|]. destruct (i =? N)%Z eqn:E2; [|lia]. done.
Qed.

(** C10. Configured with a bound of exactly 1, the first call meets
    both the rule for [i = 1] and the rule for [i = N]; it is routed to
    the setup graph module and executes it, not the cleanup one: where
    the two modules raise different exceptions on the arguments passed,
    the call raises the exception of the setup module. *)
Theorem setup_precedes_cleanup_at_one (d : IterGraphModule)
    (args : list PyVal) (kwargs : list (string * PyVal)) :
  let d0 := snd (setup 1 d) in
  fst (setup 1 d) = Ok tt
  /\ _iter (tick d0) = 1%Z
  /\ _iter (tick d0) = _max_iters (tick d0)
  /\ select_gm (tick d0) = setup_gm
  /\ select_gm (tick d0) <> cleanup_gm
  /\ forward call_gm args kwargs d0 = _run call_gm setup_gm args kwargs (tick d0)
  /\ (kwargs = [] \/ num_extra_output (graph d0) = 0 ->
      executes call_gm setup_gm args kwargs d0
      /\ (forall e_setup e_cleanup,
            call_gm setup_gm (passed_args args d0) kwargs = Raise e_setup ->
            call_gm cleanup_gm (passed_args args d0) kwargs = Raise e_cleanup ->
            e_setup <> e_cleanup ->
            forward call_gm args kwargs d0 = (Raise e_setup, tick d0)
            /\ fst (forward call_gm args kwargs d0) <> Raise e_cleanup)).
Proof.
  intros d0.
  split; [done|]. split; [done|]. split; [done|]. split; [done|]. split; [done|].
  split; [done|].
  intros Hk. pose proof (forward_executes args kwargs d0 Hk) as Hex.
  change (select_gm (tick d0)) with setup_gm in Hex.
  split; [exact Hex|].
  intros e1 e2 H1 H2 Hne. rewrite (proj1 Hex e1 H1). split; [done|].
  simpl. congruence.
Qed.

End DispatcherFacts.

Section BoundaryFacts.

Variable call_gm : Gm -> list PyVal -> list (string * PyVal) -> Res PyVal.

Lemma debug_and_return_ok output d n :
  py_len output = Ok n -> debug_and_return output d = (Ok output, d).
Proof. unfold debug_and_return. by intros ->. Qed.

(** C9, as amended.  With a positive count of boundary values and no
    keyword arguments, the selected graph module is called on the
    arguments extended with the retained tuple (empty after
    construction).  While the incremented call counter is below the
    bound, a raw result that is a tuple longer than the count is
    split: the last [num_extra_output] values are retained and the
    others returned, a single one unwrapped (the returned value
    supporting [len]).  Once the counter has reached the bound, the raw
    result is returned whole and the retained tuple is left as it
    was. *)
Theorem boundary_threading (args : list PyVal) (d : IterGraphModule) (l : list PyVal) :
  0 < num_extra_output (graph d) ->
  call_gm (select_gm (tick d)) (args ++ _previous_output d) [] = Ok (VTuple l) ->
  ((_iter (tick d) < _max_iters (tick d))%Z ->
   num_extra_output (graph d) < length l ->
   (exists n, py_len (unwrap (take (length l - num_extra_output (graph d)) l)) = Ok n) ->
   threads_boundary l d (forward call_gm args [] d))
  /\ ((_max_iters (tick d) <= _iter (tick d))%Z ->
      forward call_gm args [] d = (Ok (VTuple l), tick d))
  /\ (forall g, _previous_output (new_module g) = []).
Proof.
  intros Hk Hcall. unfold forward, _run. simpl.
  destruct (0 <? num_extra_output (graph d)) eqn:Ek;
    [|apply Nat.ltb_ge in Ek; lia].
  simpl in Hcall. rewrite Hcall.
  split; [|split].
  - intros Hlt Hlen [n Hn].
    destruct (_ <? _)%Z eqn:Elt; [|lia].
    destruct (num_extra_output (graph d) <? length l) eqn:El;
      [|apply Nat.ltb_ge in El; lia].
    unfold threads_boundary, unwrap in *.
    destruct (take _ l) as [|v [|w real]];
      erewrite debug_and_return_ok by eassumption; simpl; done.
  - intros Hge. destruct (_ <? _)%Z eqn:Elt; [lia|]. reflexivity.
  - done.
Qed.

End BoundaryFacts.

(** C9, witness: the second of three calls on the engine after a move. *)
Lemma boundary_threading_witness :
  let d := snd (forward Sample.pair_gm [] []
                  (snd (setup 3 (new_module Sample.moved)))) in
  let l := [VObj (Some 1) 1; VObj (Some 1) 2] in
  0 < num_extra_output (graph d)
  /\ Sample.pair_gm (select_gm (tick d)) ([] ++ _previous_output d) [] = Ok (VTuple l)
  /\ threads_boundary l d (forward Sample.pair_gm [] [] d).
Proof.
  intros d l.
  assert (Hk : 0 < num_extra_output (graph d)) by (vm_compute; lia).
  split; [exact Hk|]. split; [reflexivity|].
  apply (boundary_threading Sample.pair_gm [] d l Hk eq_refl).
  - vm_compute. reflexivity.
  - vm_compute. lia.
  - exists 1. vm_compute. reflexivity.
Defined.

(** C9, counterexample.  Under a bound of 1 the first call is also the
    last one: with one boundary value threaded, the raw pair comes back
    whole and nothing is retained. *)
Lemma boundary_threading_last_call_counterexample :
  let d := snd (setup 1 (new_module Sample.moved)) in
  let l := [VObj (Some 1) 1; VObj (Some 1) 2] in
  0 < num_extra_output (graph d)
  /\ Sample.pair_gm (select_gm (tick d)) ([] ++ _previous_output d) [] = Ok (VTuple l)
  /\ ~ threads_boundary l d (forward Sample.pair_gm [] [] d).
Proof.
  intros d l. split; [vm_compute; lia|]. split; [reflexivity|].
  intros [Hret _]. vm_compute in Hret. discriminate Hret.
Qed.

(** ** Reasoning about engine computations *)

Lemma bind_ok {A B} (m : M A) (k : A -> M B) st b st' :
  bind m k st = (Ok b, st') ->
  exists a st1, m st = (Ok a, st1) /\ k a st1 = (Ok b, st').
Proof.
  unfold bind. destruct (m st) as [[a|e] st1]; [eauto | discriminate].
Qed.

Lemma bind_inv {A B} (m : M A) (k : A -> M B) st r st' :
  bind m k st = (r, st') ->
  (exists a st1, m st = (Ok a, st1) /\ k a st1 = (r, st'))
  \/ (exists e, m st = (Raise e, st') /\ r = Raise e).
Proof.
  unfold bind. destruct (m st) as [[a|e] st1]; [eauto|].
  intros [= <- <-]. eauto.
Qed.

(** A computation [keeps] an observation [f] of the engine when every
    run, normal or not, leaves it as it was. *)
Definition keeps {X A} (f : IterGraph -> X) (m : M A) : Prop :=
  forall st, f (snd (m st)) = f st.

Section Keeps.

Context {X : Type} (f : IterGraph -> X).

Lemma keeps_ret {A} (a : A) : keeps f (ret a).
Proof. done. Qed.

Lemma keeps_raise {A} e : keeps f (@raise A e).
Proof. done. Qed.

Lemma keeps_get : keeps f get.
Proof. done. Qed.

Lemma keeps_bind {A B} (m : M A) (k : A -> M B) :
  keeps f m -> (forall a, keeps f (k a)) -> keeps f (bind m k).
Proof.
  intros Hm Hk st. unfold bind. specialize (Hm st).
  destruct (m st) as [[a|e] st1]; simpl in *; [|done].
  rewrite Hk. done.
Qed.

Lemma keeps_forM {A} (l : list A) (body : A -> M unit) :
  (forall x, keeps f (body x)) -> keeps f (forM_ l body).
Proof.
  intros Hb. induction l as [|x l IH]; simpl; [apply keeps_ret|].
  apply keeps_bind; [apply Hb | intros _; apply IH].
Qed.

Lemma keeps_mapM {A B} (l : list A) (body : A -> M B) :
  (forall x, keeps f (body x)) -> keeps f (mapM body l).
Proof.
  intros Hb. induction l as [|x l IH]; simpl; [apply keeps_ret|].
  apply keeps_bind; [apply Hb | intros y].
  apply keeps_bind; [apply IH | intros ys; apply keeps_ret].
Qed.

Lemma keeps_modify (h : IterGraph -> IterGraph) :
  (forall st, f (h st) = f st) -> keeps f (modify h).
Proof. intros H st. apply H. Qed.

Lemma keeps_assert b : keeps f (assert_ b).
Proof. destruct b; done. Qed.

Lemma keeps_deref n : keeps f (deref n).
Proof. intros st. unfold deref. by destruct (heap st !! n). Qed.

Lemma keeps_deref_opt o : keeps f (deref_opt o).
Proof.
  destruct o as [n|]; simpl; [|apply keeps_raise].
  apply keeps_bind; [apply keeps_deref | intros; apply keeps_ret].
Qed.

Lemma keeps_lookup n g : keeps f (lookup n g).
Proof. done. Qed.

Lemma keeps_is_frozen : keeps f is_frozen.
Proof. done. Qed.

End Keeps.

(** Reading computations leave the whole engine alone. *)
Lemma deref_state n st : snd (deref n st) = st.
Proof. apply (keeps_deref id). Qed.

Lemma deref_ok n st nd st' : deref n st = (Ok nd, st') -> heap st !! n = Some nd /\ st' = st.
Proof. unfold deref. destruct (heap st !! n); intros [= <- <-]; done. Qed.

Lemma deref_some n st nd : heap st !! n = Some nd -> deref n st = (Ok nd, st).
Proof. unfold deref. by intros ->. Qed.

(** ** The user sets do not matter to the skeleton *)

Lemma map_lookup {A B} (f : A -> B) (l : list A) (i : nat) :
  map f l !! i = f <$> l !! i.
Proof. apply (list_lookup_fmap f). Qed.

Lemma forget_users_alter_users us n st :
  forget_users (with_heap (alter (set_users us) n (heap st)) st) = forget_users st.
Proof.
  unfold forget_users, with_heap. simpl. f_equal.
  apply list_eq. intros i. rewrite !map_lookup.
  destruct (decide (i = n)) as [->|Hne].
  - rewrite list_lookup_alter_eq. by destruct (_ !! n).
  - by rewrite list_lookup_alter_ne.
Qed.

Lemma keeps_skeleton_update_users n us : keeps forget_users (update_node n (set_users us)).
Proof. intros st. apply forget_users_alter_users. Qed.

Lemma keeps_skeleton_setdefault n u : keeps forget_users (users_setdefault n u).
Proof.
  unfold users_setdefault. apply keeps_bind; [apply keeps_deref|]. intros nd.
  case_bool_decide; [apply keeps_ret | apply keeps_skeleton_update_users].
Qed.

Lemma keeps_skeleton_pop n u : keeps forget_users (users_pop n u).
Proof.
  unfold users_pop. apply keeps_bind; [apply keeps_deref|]. intros nd.
  case_bool_decide; [apply keeps_skeleton_update_users | apply keeps_raise].
Qed.

Lemma keeps_after {X A B} (f : IterGraph -> X) (m : M A) (k : A -> M B) st :
  (forall a, keeps f (k a)) -> f (snd (bind m k st)) = f (snd (m st)).
Proof.
  intros Hk. unfold bind. destruct (m st) as [[a|e] st1]; simpl; [apply Hk | done].
Qed.

Lemma skeleton_update_args_kwargs self a k st :
  forget_users (snd (update_args_kwargs self a k st))
  = forget_users (sk_set_args self a k st).
Proof.
  unfold update_args_kwargs, bind at 1. unfold deref.
  destruct (heap st !! self) as [nd|] eqn:E; simpl.
  - rewrite keeps_after; [done|]. intros _.
    apply keeps_bind; [|intros _].
    + apply keeps_forM. intros; apply keeps_skeleton_pop.
    + apply keeps_forM. intros; apply keeps_skeleton_setdefault.
  - unfold sk_set_args. f_equal. destruct st; unfold with_heap; simpl in *. f_equal.
    apply list_eq. intros i. destruct (decide (i = self)) as [->|].
    + rewrite list_lookup_alter_eq, E. done.
    + by rewrite list_lookup_alter_ne.
Qed.

Lemma forget_with_graph g gr st :
  forget_users (with_graph g gr st) = with_graph g gr (forget_users st).
Proof. reflexivity. Qed.

Lemma forget_with_edits es st :
  forget_users (with_edits es st) = with_edits es (forget_users st).
Proof. reflexivity. Qed.

Lemma graph_of_forget g st : graph_of g (forget_users st) = graph_of g st.
Proof. by destruct g. Qed.

(** What two engines with the same skeleton agree on. *)
Lemma same_skeleton_fields st1 st2 :
  forget_users st1 = forget_users st2 ->
  (forall g, graph_of g st1 = graph_of g st2)
  /\ edits st1 = edits st2
  /\ _setup_mapping st1 = _setup_mapping st2
  /\ _cleanup_mapping st1 = _cleanup_mapping st2
  /\ _freeze_cross_iter_movement st1 = _freeze_cross_iter_movement st2
  /\ _cross_iter_block_count st1 = _cross_iter_block_count st2
  /\ num_extra_output st1 = num_extra_output st2
  /\ length (heap st1) = length (heap st2).
Proof.
  intros H. repeat split.
  - intros g. rewrite <- (graph_of_forget g st1), H. apply graph_of_forget.
  - exact (f_equal edits H).
  - exact (f_equal _setup_mapping H).
  - exact (f_equal _cleanup_mapping H).
  - exact (f_equal _freeze_cross_iter_movement H).
  - exact (f_equal _cross_iter_block_count H).
  - exact (f_equal num_extra_output H).
  - apply (f_equal (fun s => length (heap s))) in H. simpl in H.
    by rewrite !length_map in H.
Qed.

Lemma same_skeleton_nodes st1 st2 g :
  forget_users st1 = forget_users st2 -> nodes g st1 = nodes g st2.
Proof.
  intros H. unfold nodes. by rewrite (proj1 (same_skeleton_fields _ _ H) g).
Qed.

Lemma sk_set_args_alloc g op t a k ty st :
  sk_set_args (length (heap st)) a k (sk_alloc g op t [] [] ty st)
  = sk_alloc g op t a k ty st.
Proof.
  unfold sk_set_args, sk_alloc, with_heap. simpl. f_equal.
  apply list_eq. intros i. destruct (decide (i = length (heap st))) as [->|Hne].
  - rewrite list_lookup_alter_eq, !lookup_app_r, Nat.sub_diag by lia. done.
  - rewrite list_lookup_alter_ne by done.
    destruct (decide (i < length (heap st))).
    + by rewrite !lookup_app_l by lia.
    + rewrite !lookup_app_r by lia.
      destruct (i - length (heap st)) as [|j] eqn:E; [lia|done].
Qed.

(** The effect of [fx_create_node]: when it returns, the new node is the
    next object of the store, carries its arguments and is linked at the
    insertion point; when it raises, the object exists but is not
    linked. *)
Lemma fx_create_node_skeleton g op t a k ty st r st' :
  fx_create_node g op t a k ty st = (r, st') ->
  (r = Ok (length (heap st))
   /\ forget_users st' = forget_users (sk_create g op t a k ty st))
  \/ ((exists e, r = Raise e)
      /\ forget_users st' = forget_users (sk_alloc g op t a k ty st)).
Proof.
  unfold fx_create_node, bind at 1. simpl.
  unfold bind at 1. simpl.
  change (with_heap _ st) with (sk_alloc g op t [] [] ty st).
  set (st1 := sk_alloc g op t [] [] ty st).
  pose proof (skeleton_update_args_kwargs (length (heap st)) a k st1) as Hsk.
  unfold st1 in Hsk at 2. rewrite sk_set_args_alloc in Hsk.
  unfold bind at 1.
  destruct (update_args_kwargs (length (heap st)) a k st1) as [[[]|e] st2]; simpl in Hsk.
  - intros [= <- <-]. left. split; [done|].
    destruct (same_skeleton_fields _ _ Hsk) as (Hg & He & _).
    unfold sk_create. rewrite !forget_with_edits, !forget_with_graph.
    simpl. unfold nodes. rewrite Hsk, He, !Hg. reflexivity.
  - intros [= <- <-]. right. eauto.
Qed.

(** The effect of [fx_erase_node]: either the engine is exactly as it
    was (the call raised on one of its checks, or found the node erased
    already), or the node, owned by the graph and not erased before, is
    unlinked and marked, whether or not the call then returns. *)
Lemma fx_erase_node_skeleton g o st r st' :
  fx_erase_node g o st = (r, st') ->
  (st' = st
   /\ (r = Ok tt -> exists n nd, o = Some n /\ heap st !! n = Some nd
                                 /\ n_graph nd = g /\ n_erased nd = true))
  \/ (exists n nd, o = Some n /\ heap st !! n = Some nd
                   /\ n_graph nd = g /\ n_erased nd = false
                   /\ forget_users st' = forget_users (sk_erase g n st)).
Proof.
  unfold fx_erase_node. destruct o as [n|]; simpl.
  2:{ intros [= <- <-]. left. split; [done|discriminate]. }
  unfold bind at 1. unfold bind at 1. unfold deref.
  destruct (heap st !! n) as [nd|] eqn:E; simpl.
  2:{ intros [= <- <-]. left. split; [done|discriminate]. }
  destruct (existsb _ _); simpl.
  { intros [= <- <-]. left. split; [done|discriminate]. }
  case_bool_decide as Hg; simpl.
  2:{ intros [= <- <-]. left. split; [done|discriminate]. }
  destruct (n_erased nd) eqn:Eer.
  { intros [= <- <-]. left. split; [done|]. intros _. eauto 10. }
  intros Hrun. right. exists n, nd. repeat split; try done.
  unfold bind at 1 in Hrun. simpl in Hrun.
  unfold bind at 1 in Hrun. simpl in Hrun.
  unfold bind at 1 in Hrun. simpl in Hrun.
  match type of Hrun with
  | update_args_kwargs ?s ?a ?k ?st3 = _ =>
      pose proof (skeleton_update_args_kwargs s a k st3) as Hsk;
      rewrite Hrun in Hsk; simpl in Hsk; rewrite Hsk
  end.
  f_equal. unfold sk_set_args, sk_erase, with_heap, with_edits, with_graph. simpl.
  f_equal.
  apply list_eq. intros i. destruct (decide (i = n)) as [->|Hne].
  - rewrite !list_lookup_alter_eq, E. reflexivity.
  - by rewrite !list_lookup_alter_ne.
Qed.

(** ** The [fx] primitives stay away from the engine's own fields *)

Lemma control_same_skeleton st1 st2 :
  forget_users st1 = forget_users st2 -> control st1 = control st2.
Proof.
  intros H. destruct (same_skeleton_fields _ _ H) as (_ & _ & H1 & H2 & H3 & H4 & H5 & _).
  unfold control. by rewrite H1, H2, H3, H4, H5.
Qed.

Lemma keeps_control_of_skeleton {A} (m : M A) :
  keeps forget_users m -> keeps control m.
Proof. intros H st. apply control_same_skeleton, H. Qed.

Lemma keeps_control_update_node n h : keeps control (update_node n h).
Proof. done. Qed.

Lemma keeps_control_users_setdefault n u : keeps control (users_setdefault n u).
Proof. apply keeps_control_of_skeleton, keeps_skeleton_setdefault. Qed.

Lemma keeps_control_users_pop n u : keeps control (users_pop n u).
Proof. apply keeps_control_of_skeleton, keeps_skeleton_pop. Qed.

Lemma keeps_control_update_args_kwargs n a k : keeps control (update_args_kwargs n a k).
Proof.
  intros st. rewrite (control_same_skeleton _ _ (skeleton_update_args_kwargs n a k st)).
  reflexivity.
Qed.

Lemma keeps_control_set_node_args n a : keeps control (set_node_args n a).
Proof.
  apply keeps_bind; [apply keeps_deref|]. intros. apply keeps_control_update_args_kwargs.
Qed.

Lemma keeps_control_set_node_kwargs n k : keeps control (set_node_kwargs n k).
Proof.
  apply keeps_bind; [apply keeps_deref|]. intros. apply keeps_control_update_args_kwargs.
Qed.

Lemma keeps_control_create g op t a k ty : keeps control (fx_create_node g op t a k ty).
Proof.
  intros st. destruct (fx_create_node g op t a k ty st) as [r st'] eqn:E.
  destruct (fx_create_node_skeleton _ _ _ _ _ _ _ _ _ E) as [[_ H]|[_ H]];
    simpl; rewrite (control_same_skeleton _ _ H); reflexivity.
Qed.

Lemma keeps_control_placeholder g name ty dv : keeps control (fx_placeholder g name ty dv).
Proof. destruct name; [apply keeps_control_create | apply keeps_raise]. Qed.

Lemma keeps_control_erase g o : keeps control (fx_erase_node g o).
Proof.
  intros st. destruct (fx_erase_node g o st) as [r st'] eqn:E.
  destruct (fx_erase_node_skeleton _ _ _ _ _ E) as [[-> _]|(n & nd & _ & _ & _ & _ & H)];
    simpl; [done|]. rewrite (control_same_skeleton _ _ H). reflexivity.
Qed.

Lemma keeps_control_set_nodes g h : keeps control (set_nodes g h).
Proof. done. Qed.

Lemma keeps_control_log g e : keeps control (log g e).
Proof. done. Qed.

Lemma keeps_control_prepend a x : keeps control (fx_node_prepend a x).
Proof.
  unfold fx_node_prepend.
  apply keeps_bind; [apply keeps_deref|]. intros nd.
  apply keeps_bind; [apply keeps_deref|]. intros xd.
  apply keeps_bind; [apply keeps_assert|]. intros _.
  case_decide; [apply keeps_ret|].
  apply keeps_bind; [apply keeps_control_set_nodes | intros; apply keeps_control_log].
Qed.

Lemma keeps_control_with_insert {A} g ip (body : M A) :
  keeps control body -> keeps control (with_insert g ip body).
Proof.
  intros Hb st. unfold with_insert.
  specialize (Hb (set_insert g ip st)).
  destruct (body (set_insert g ip st)) as [r st1]. simpl in *.
  change (control (set_insert g (g_insert (graph_of g st)) st1)) with (control st1).
  rewrite Hb. reflexivity.
Qed.

Lemma keeps_control_inserting_before {A} g n (body : M A) :
  keeps control body -> keeps control (fx_inserting_before g n body).
Proof.
  intros Hb. destruct n as [a|]; simpl; [|by apply keeps_control_with_insert].
  apply keeps_bind; [apply keeps_deref|]. intros nd.
  apply keeps_bind; [apply keeps_assert|]. intros _.
  by apply keeps_control_with_insert.
Qed.

Lemma keeps_control_inserting_after {A} g n (body : M A) :
  keeps control body -> keeps control (fx_inserting_after g n body).
Proof.
  intros Hb. destruct n as [a|]; simpl; [|by apply keeps_control_with_insert].
  apply keeps_bind; [apply keeps_deref|]. intros nd.
  apply keeps_bind; [apply keeps_assert|]. intros _.
  by apply keeps_control_with_insert.
Qed.

(** ** The export *)

Lemma same_skeleton_lookup st1 st2 n nd2 :
  forget_users st1 = forget_users st2 ->
  heap st2 !! n = Some nd2 ->
  exists nd1, heap st1 !! n = Some nd1 /\ set_users [] nd1 = set_users [] nd2.
Proof.
  intros H Hn. apply (f_equal (fun s => heap s !! n)) in H. simpl in H.
  rewrite !map_lookup, Hn in H. destruct (heap st1 !! n) as [nd1|]; [|done].
  exists nd1. split; [done|]. simpl in H. congruence.
Qed.

Lemma collect_inputs_reads st all_nodes : forall block r st',
  collect_inputs all_nodes (map Some block) st = (r, st') ->
  st' = st /\ (forall inputs, r = Ok inputs -> inputs = inputs_of st all_nodes block).
Proof.
  induction block as [|n block IH]; simpl; intros r st' H.
  - injection H as <- <-. split; [done|]. by intros inputs [= <-].
  - unfold bind at 1, deref in H. unfold bind at 1 in H.
    destruct (heap st !! n) as [nd|] eqn:E; simpl in H.
    2:{ injection H as <- <-. split; [done|]. discriminate. }
    unfold bind at 1 in H.
    destruct (collect_inputs all_nodes (map Some block) st) as [[inputs|e] st1].
    + destruct (IH _ _ eq_refl) as [-> Hin]. injection H as <- <-. split; [done|].
      intros ? [= <-]. unfold inputs_of. cbn [flat_map]. rewrite ?E.
      f_equal. by apply Hin.
    + destruct (IH _ _ eq_refl) as [-> _]. injection H as <- <-. split; [done|]. discriminate.
Qed.

Lemma export_count block graph erase st k st' :
  _forward_subgraph_inputs (map Some block) graph erase st = (Ok k, st') ->
  k = length (block_inputs st block).
Proof.
  unfold _forward_subgraph_inputs. intros H.
  apply bind_ok in H as (s0 & s0' & Hget & H). injection Hget as <- <-.
  apply bind_ok in H as (inputs & s1 & Hin & H).
  destruct (collect_inputs_reads _ _ _ _ _ Hin) as [-> Hinputs].
  specialize (Hinputs _ eq_refl). fold (block_inputs st block) in Hinputs. subst inputs.
  apply bind_ok in H as ([o od] & s1 & _ & H).
  apply bind_ok in H as ([] & s2 & _ & H).
  apply bind_ok in H as ([] & s3 & _ & H).
  apply bind_ok in H as (n & s4 & _ & H). by injection H as <- _.
Qed.

(** ** The cross-iteration move *)

Lemma keeps_run {X A} (f : IterGraph -> X) (m : M A) st r st' :
  keeps f m -> m st = (r, st') -> f st' = f st.
Proof. intros H E. specialize (H st). by rewrite E in H. Qed.

Lemma keeps_control_collect_inputs all_nodes subgraph :
  keeps control (collect_inputs all_nodes subgraph).
Proof.
  induction subgraph as [|o rest IH]; simpl; [apply keeps_ret|].
  apply keeps_bind; [apply keeps_deref_opt|]. intros p.
  apply keeps_bind; [apply IH|]. intros; apply keeps_ret.
Qed.

Lemma keeps_control_erase_loop graph output new_output subgraph :
  forall erased, keeps control (erase_loop graph output new_output subgraph erased).
Proof.
  induction subgraph as [|o rest IH]; intros erased; simpl; [apply keeps_ret|].
  apply keeps_bind; [apply keeps_deref_opt|]. intros [node nd].
  apply keeps_bind.
  { destruct (n_users nd) as [|key [|]]; try apply keeps_ret.
    destruct (_ && _); [apply keeps_control_update_node | apply keeps_ret]. }
  intros _. apply keeps_bind; [apply keeps_deref|]. intros nd1.
  apply keeps_bind.
  { apply keeps_forM. intros [u|s]; [|apply keeps_ret].
    case_bool_decide; [apply keeps_control_users_pop | apply keeps_ret]. }
  intros _. apply keeps_bind; [apply keeps_deref|]. intros nd2.
  destruct (negb _); [apply keeps_raise|].
  apply keeps_bind; [apply keeps_control_erase | intros _; apply IH].
Qed.

Lemma keeps_control_forward_subgraph_inputs subgraph graph erase :
  keeps control (_forward_subgraph_inputs subgraph graph erase).
Proof.
  unfold _forward_subgraph_inputs.
  apply keeps_bind; [apply keeps_get|]. intros st0.
  apply keeps_bind; [apply keeps_control_collect_inputs|]. intros inputs.
  apply keeps_bind; [apply keeps_deref_opt|]. intros [output od].
  apply keeps_bind.
  { destruct erase; [apply keeps_control_erase_loop | apply keeps_ret]. }
  intros _. apply keeps_bind; [apply keeps_control_erase|]. intros _.
  apply keeps_bind; [apply keeps_control_create|]. intros _. apply keeps_ret.
Qed.

Lemma keeps_control_tree_unflatten leaves spec : keeps control (tree_unflatten leaves spec).
Proof.
  unfold tree_unflatten. destruct (_ =? _); [|apply keeps_raise].
  destruct (args_unflatten _ _) as [a r1]. destruct (kwargs_unflatten _ _) as [k r2].
  apply keeps_ret.
Qed.

Lemma keeps_control_clone_loop graph all_nodes subgraph :
  forall mapping, keeps control (clone_loop graph all_nodes subgraph mapping).
Proof.
  induction subgraph as [|o rest IH]; intros mapping; simpl; [apply keeps_ret|].
  apply keeps_bind; [apply keeps_deref_opt|]. intros [node nd].
  apply keeps_bind; [apply keeps_control_create|]. intros cloned.
  apply keeps_bind; [apply keeps_deref|]. intros nd1.
  apply keeps_bind; [apply keeps_deref|]. intros cd.
  apply keeps_bind.
  { apply keeps_mapM. intros [oi ci]. unfold clone_input.
    destruct (arg_in oi all_nodes); [|apply keeps_ret].
    destruct oi; try apply keeps_raise.
    destruct (mapping !! n); [apply keeps_ret | apply keeps_raise]. }
  intros mapped. apply keeps_bind; [apply keeps_control_tree_unflatten|]. intros ak.
  apply keeps_bind; [apply keeps_control_set_node_args|]. intros _.
  apply keeps_bind; [apply keeps_control_set_node_kwargs|]. intros _.
  apply keeps_bind; [apply IH|]. intros; apply keeps_ret.
Qed.

Lemma keeps_control_import_loop all_nodes subgraph :
  forall it, keeps control (import_loop all_nodes subgraph it).
Proof.
  induction subgraph as [|node rest IH]; intros it; simpl; [apply keeps_ret|].
  apply keeps_bind; [apply keeps_deref|]. intros nd.
  destruct (redirect_inputs _ _ _) as [[inputs it']|]; [|apply keeps_raise].
  apply keeps_bind; [apply keeps_control_tree_unflatten|]. intros ak.
  apply keeps_bind; [apply keeps_control_set_node_args|]. intros _.
  apply keeps_bind; [apply keeps_control_set_node_kwargs|]. intros _. apply IH.
Qed.

Lemma keeps_control_last_placeholder l :
  forall last, keeps control (last_placeholder_loop l last).
Proof.
  induction l as [|node rest IH]; intros last; simpl; [apply keeps_ret|].
  apply keeps_bind; [apply keeps_deref|]. intros nd.
  case_decide; [apply IH | apply keeps_ret].
Qed.

Lemma keeps_control_forward_inputs_to_subgraph subgraph graph extra_input :
  keeps control (_forward_inputs_to_subgraph subgraph graph extra_input).
Proof.
  unfold _forward_inputs_to_subgraph.
  apply keeps_bind; [apply keeps_get|]. intros st0.
  apply keeps_bind; [apply keeps_control_last_placeholder|]. intros lp.
  apply keeps_bind; [apply keeps_assert|]. intros _.
  apply keeps_bind.
  { apply keeps_control_inserting_after, keeps_mapM. intros i.
    apply keeps_control_placeholder. }
  intros created. apply keeps_bind; [apply keeps_control_import_loop|].
  intros [|u unused]; [apply keeps_ret | apply keeps_raise].
Qed.

Lemma keeps_control_hold_unused graph : keeps control (hold_unused graph).
Proof.
  unfold hold_unused. apply keeps_bind; [apply keeps_get|]. intros st0.
  apply keeps_forM. intros node. apply keeps_bind; [apply keeps_deref|]. intros nd.
  destruct (_ =? _); [apply keeps_control_users_setdefault | apply keeps_ret].
Qed.

Lemma keeps_control_move_cleanup_part subgraph target k :
  keeps control (move_cleanup_part subgraph target k).
Proof.
  unfold move_cleanup_part. apply keeps_bind; [apply keeps_lookup|].
  intros [tc|]; [|apply keeps_raise].
  apply keeps_bind; [apply keeps_get|]. intros st0.
  apply keeps_bind.
  - apply keeps_control_inserting_before, keeps_control_clone_loop.
  - intros cloned. apply keeps_control_forward_inputs_to_subgraph.
Qed.

Lemma is_connect_loop_reads all_nodes subgraph output :
  keeps id (is_connect_loop all_nodes subgraph output).
Proof.
  induction subgraph as [|node rest IH]; simpl; [apply keeps_ret|].
  apply keeps_bind; [apply keeps_deref|]. intros nd.
  destruct (forallb _ _); [apply IH | apply keeps_ret].
Qed.

(** C6.  Whenever [move_to_next_iter_before] returns normally, the
    number of values exported from the setup graph (first step) is the
    number exported from the steady graph (third step), which is the
    number of outside values the block uses there, and
    [num_extra_output] has grown by exactly that number.  The states
    [st1], [st2], [st3] are those the call goes through: after the setup
    part, after the cleanup part, and after the export on the steady
    graph. *)
Theorem move_export_counts_agree (subgraph : list nat) (target_node : nat)
    (st st' : IterGraph) :
  move_to_next_iter_before subgraph target_node st = (Ok tt, st') ->
  exists k st1 st2 st3,
    move_setup_part subgraph (snd (bump_counters 1 0 st)) = (Ok k, st1)
    /\ move_cleanup_part subgraph target_node k st1 = (Ok tt, st2)
    /\ move_main_export subgraph st2 = (Ok k, st3)
    /\ k = length (block_inputs st2 subgraph)
    /\ num_extra_output st' = num_extra_output st + k.
Proof.
  unfold move_to_next_iter_before. intros H.
  apply bind_ok in H as (frozen & s0 & Hfr & H).
  injection Hfr as <- <-.
  destruct (_freeze_cross_iter_movement st); [discriminate|].
  apply bind_ok in H as (sg & s0 & Hget & H). injection Hget as <- <-.
  apply bind_ok in H as (connected & s0 & Hconn & H).
  pose proof (keeps_run id _ _ _ _ (is_connect_loop_reads _ _ _) Hconn) as Hs0.
  simpl in Hs0. subst s0.
  destruct connected; [|discriminate]. simpl in H.
  apply bind_ok in H as ([] & sb & Hbump & H).
  apply bind_ok in H as (k & st1 & Hsetup & H).
  apply bind_ok in H as ([] & st2 & Hcleanup & H).
  apply bind_ok in H as (k' & st3 & Hmain & H).
  apply bind_ok in H as ([] & s4 & Hassert & H).
  unfold assert_ in Hassert. destruct (k' =? k) eqn:Ek; [|discriminate].
  apply Nat.eqb_eq in Ek. subst k'. injection Hassert as <-.
  apply bind_ok in H as ([] & s5 & Hprep & H).
  apply bind_ok in H as ([] & s6 & Himp & H).
  apply bind_ok in H as ([] & s7 & Hhc & H).
  apply bind_ok in H as ([] & s8 & Hhm & H).
  injection Hbump as <-. injection H as <-.
  exists k, st1, st2, st3. repeat split; try done.
  { by eapply export_count. }
  assert (Hn : forall s s', control s' = control s -> num_extra_output s' = num_extra_output s).
  { intros s s' Hc. unfold control in Hc. by injection Hc. }
  simpl.
  rewrite (Hn _ _ (keeps_run control _ _ _ _ (keeps_control_hold_unused _) Hhm)).
  rewrite (Hn _ _ (keeps_run control _ _ _ _ (keeps_control_hold_unused _) Hhc)).
  rewrite (Hn _ _ (keeps_run control _ _ _ _
                     (keeps_control_forward_inputs_to_subgraph _ _ _) Himp)).
  rewrite (Hn _ _ (keeps_run control _ _ _ _
                     (keeps_forM control _ _ (fun x => keeps_control_prepend _ x)) Hprep)).
  rewrite (Hn _ _ (keeps_run control (move_main_export subgraph) _ _ _
                     (keeps_control_forward_subgraph_inputs _ _ _) Hmain)).
  rewrite (Hn _ _ (keeps_run control _ _ _ _
                     (keeps_control_move_cleanup_part _ _ _) Hcleanup)).
  unfold move_setup_part in Hsetup.
  apply bind_ok in Hsetup as (sx & s9 & Hget & Hsetup). injection Hget as <- <-.
  rewrite (Hn _ _ (keeps_run control _ _ _ _
                     (keeps_control_forward_subgraph_inputs _ _ _) Hsetup)).
  simpl. lia.
Qed.

(** C6, witness: moving [z] before [y] on the sample engine returns
    normally, with one value exported from either graph. *)
Lemma move_export_counts_agree_witness :
  move_to_next_iter_before [14] 13 Sample.engine = (Ok tt, Sample.moved)
  /\ exists st1 st2 st3,
       move_setup_part [14] (snd (bump_counters 1 0 Sample.engine)) = (Ok 1, st1)
       /\ move_cleanup_part [14] 13 1 st1 = (Ok tt, st2)
       /\ move_main_export [14] st2 = (Ok 1, st3)
       /\ 1 = length (block_inputs st2 [14])
       /\ num_extra_output Sample.moved = num_extra_output Sample.engine + 1.
Proof.
  assert (H : move_to_next_iter_before [14] 13 Sample.engine = (Ok tt, Sample.moved))
    by (vm_compute; reflexivity).
  split; [exact H|].
  destruct (move_export_counts_agree _ _ _ _ H)
    as (k & st1 & st2 & st3 & H1 & H2 & H3 & Hk & H4).
  assert (k = 1) as -> by (clear -H4; vm_compute in H4; lia).
  eauto 10.
Defined.

Lemma is_connect_loop_false all_nodes output st : forall subgraph node nd,
  (forall n, n ∈ subgraph -> is_Some (heap st !! n)) ->
  node ∈ subgraph ->
  heap st !! node = Some nd ->
  forallb (user_allowed all_nodes output) (n_users nd) = false ->
  is_connect_loop all_nodes subgraph output st = (Ok false, st).
Proof.
  induction subgraph as [|x rest IH]; intros node nd Hall Hin Hnd Hbad.
  - by apply elem_of_nil in Hin.
  - simpl. unfold bind.
    destruct (Hall x) as [xd Hxd]; [by left|].
    rewrite (deref_some _ _ _ Hxd).
    destruct (forallb (user_allowed all_nodes output) (n_users xd)) eqn:Ex; [|done].
    apply elem_of_cons in Hin as [->|Hin].
    + rewrite Hxd in Hnd. injection Hnd as <-. congruence.
    + eapply IH; eauto. intros n Hn. apply Hall. by right.
Qed.

(** C5.  On an unfrozen engine, a block (of existing node objects) with
    a node one of whose users is a node that is neither in the block nor
    the output node of the steady graph is refused with [ValueError],
    and the engine, hence each of the three graphs, is exactly as it was
    before the call. *)
Theorem invalid_move_rejected (subgraph : list nat) (target_node : nat)
    (st : IterGraph) (node : nat) (nd : Node) (u : nat) :
  _freeze_cross_iter_movement st = false ->
  (forall n, n ∈ subgraph -> is_Some (heap st !! n)) ->
  node ∈ subgraph ->
  heap st !! node = Some nd ->
  UNode u ∈ n_users nd ->
  u ∉ subgraph ->
  _find_output MainG st <> Some u ->
  move_to_next_iter_before subgraph target_node st = (Raise ValueError, st).
Proof.
  intros Hfr Hall Hin Hnd Hu Hout Hnot.
  assert (Hbad : forallb (user_allowed subgraph (_find_output MainG st)) (n_users nd) = false).
  { destruct (forallb _ _) eqn:E; [|done].
    rewrite forallb_forall in E. specialize (E (UNode u)).
    rewrite <- list_elem_of_In in E. specialize (E Hu). simpl in E.
    rewrite bool_decide_eq_false_2 in E by done.
    rewrite bool_decide_eq_false_2 in E by congruence. discriminate. }
  unfold move_to_next_iter_before, bind at 1. simpl. rewrite Hfr.
  unfold bind at 1. simpl. unfold bind at 1. unfold _is_connect_to_output.
  rewrite (is_connect_loop_false _ _ _ _ _ _ Hall Hin Hnd Hbad). reflexivity.
Qed.

(** C5, witness: on the sample engine the block [[x]] is refused, [x]
    (12) being used by [y] (13). *)
Lemma invalid_move_rejected_witness :
  move_to_next_iter_before [12] 13 Sample.engine = (Raise ValueError, Sample.engine).
Proof.
  apply (invalid_move_rejected [12] 13 Sample.engine 12
           (mkNode MainG placeholder_op (TName "x") [] [] None [UNode 13; UNode 14] false) 13).
  - reflexivity.
  - intros n Hn. apply list_elem_of_singleton in Hn as ->. vm_compute. eauto.
  - by left.
  - vm_compute. reflexivity.
  - by left.
  - intros Hn. apply list_elem_of_singleton in Hn. discriminate.
  - vm_compute. discriminate.
Defined.

(** ** What [Graph.erase_node] changes *)

Lemma skeleton_lookup_eq s1 s2 i :
  forget_users s1 = forget_users s2 ->
  set_users [] <$> heap s1 !! i = set_users [] <$> heap s2 !! i.
Proof.
  intros H. apply (f_equal (fun s => heap s !! i)) in H. simpl in H.
  by rewrite !map_lookup in H.
Qed.

Lemma skeleton_field {X} (f : Node -> X) (o1 o2 : option Node) :
  (forall nd, f (set_users [] nd) = f nd) ->
  set_users [] <$> o1 = set_users [] <$> o2 -> f <$> o1 = f <$> o2.
Proof.
  intros Hf H. destruct o1 as [n1|], o2 as [n2|]; try discriminate H; [|reflexivity].
  change (Some (set_users [] n1) = Some (set_users [] n2)) in H.
  change (Some (f n1) = Some (f n2)). f_equal.
  transitivity (f (set_users [] n1)); [symmetry; apply Hf|].
  transitivity (f (set_users [] n2)); [congruence|apply Hf].
Qed.

Lemma fx_erase_node_change g n st st' :
  fx_erase_node g (Some n) st = (Ok tt, st') ->
  exists nd, heap st !! n = Some nd /\ n_graph nd = g
    /\ edits st' = edits st ++ erasure st g n
    /\ (forall m, n_graph <$> heap st' !! m = n_graph <$> heap st !! m)
    /\ (forall m, m <> n -> n_erased <$> heap st' !! m = n_erased <$> heap st !! m)
    /\ erased st' n.
Proof.
  intros H.
  destruct (fx_erase_node_skeleton _ _ _ _ _ H)
    as [[-> Hnoop]|(n' & nd & Hn' & Hnd & Hgn & Her & Hsk)].
  - destruct (Hnoop eq_refl) as (n' & nd & [= <-] & Hnd & Hgn & Her).
    exists nd. unfold erasure. rewrite Hnd, Her, app_nil_r.
    split; [done|]. split; [done|]. split; [done|]. split; [done|]. split; [done|].
    by exists nd.
  - injection Hn' as <-. exists nd. split; [done|]. split; [done|].
    assert (Hl : forall m, set_users [] <$> heap st' !! m
                           = set_users [] <$> alter erased_node n (heap st) !! m).
    { intros m. apply (skeleton_lookup_eq _ _ m) in Hsk. exact Hsk. }
    split; [|split; [|split]].
    + destruct (same_skeleton_fields _ _ Hsk) as (_ & -> & _).
      unfold erasure. by rewrite Hnd, Her.
    + intros m. rewrite (skeleton_field n_graph _ _ ltac:(done) (Hl m)).
      destruct (decide (m = n)) as [->|Hne].
      * rewrite list_lookup_alter_eq, Hnd. done.
      * by rewrite list_lookup_alter_ne.
    + intros m Hne. rewrite (skeleton_field n_erased _ _ ltac:(done) (Hl m)).
      by rewrite list_lookup_alter_ne.
    + pose proof (skeleton_field n_erased _ _ ltac:(done) (Hl n)) as He.
      rewrite list_lookup_alter_eq, Hnd in He. simpl in He.
      destruct (heap st' !! n) as [nd'|] eqn:E; [|done].
      exists nd'. split; [done|]. simpl in He. congruence.
Qed.

Lemma erasure_ext s s' g n :
  n_erased <$> heap s' !! n = n_erased <$> heap s !! n -> erasure s' g n = erasure s g n.
Proof.
  unfold erasure. destruct (heap s' !! n) as [a|], (heap s !! n) as [b|]; simpl; try done.
  by intros [= ->].
Qed.

Lemma erasure_alive st g n : alive st g n -> erasure st g n = [(g, EErase)].
Proof. intros (nd & Hnd & _ & He). unfold erasure. by rewrite Hnd, He. Qed.

Lemma erased_kept g n st st' m :
  fx_erase_node g (Some n) st = (Ok tt, st') -> erased st m -> erased st' m.
Proof.
  intros H (md & Hmd & He).
  destruct (fx_erase_node_change _ _ _ _ H) as (nd & _ & _ & _ & _ & Hflag & Hn).
  destruct (decide (m = n)) as [->|Hne]; [done|].
  specialize (Hflag m Hne). rewrite Hmd in Hflag. simpl in Hflag.
  destruct (heap st' !! m) as [md'|] eqn:E; [|done].
  exists md'. split; [done|]. simpl in Hflag. congruence.
Qed.

(** The steps of an unfrozen [erase_node] that returns. *)
Lemma erase_node_steps to_erase st st' :
  _freeze_cross_iter_movement st = false ->
  erase_node to_erase st = (Ok tt, st') ->
  exists sn cn s1 s2,
    _setup_mapping st !! to_erase = Some sn
    /\ _cleanup_mapping st !! to_erase = Some cn
    /\ fx_erase_node SetupG (Some sn) st = (Ok tt, s1)
    /\ fx_erase_node MainG (Some to_erase) s1 = (Ok tt, s2)
    /\ fx_erase_node CleanupG (Some cn) s2 = (Ok tt, st').
Proof.
  intros Hfr H. unfold erase_node in H.
  apply bind_ok in H as (fr & s0 & Hf & H). injection Hf as <- <-. rewrite Hfr in H.
  apply bind_ok in H as (so & s0 & Hl & H). injection Hl as <- <-.
  apply bind_ok in H as ([] & s0 & Ha & H).
  pose proof (keeps_run id _ _ _ _ (keeps_assert id _) Ha) as Hs0. simpl in Hs0. subst s0.
  simpl in Ha. destruct (_setup_mapping st !! to_erase) as [sn|] eqn:Esn; [|discriminate].
  apply bind_ok in H as ([] & s1 & H1 & H).
  apply bind_ok in H as ([] & s2 & H2 & H).
  apply bind_ok in H as (co & s3 & Hl & H). injection Hl as <- <-.
  pose proof (keeps_run control _ _ _ _ (keeps_control_erase _ _) H1) as C1.
  pose proof (keeps_run control _ _ _ _ (keeps_control_erase _ _) H2) as C2.
  assert (Hcm : _cleanup_mapping s2 = _cleanup_mapping st).
  { unfold control in C1, C2. injection C1 as _ Hc1 _ _ _. injection C2 as _ Hc2 _ _ _.
    congruence. }
  simpl in H. rewrite Hcm in H.
  destruct (_cleanup_mapping st !! to_erase) as [cn|] eqn:Ecn; [|discriminate].
  by exists sn, cn, s1, s2.
Qed.

(** ** Order of mirroring *)

Lemma fx_create_node_edits g op t a k ty st n st' :
  fx_create_node g op t a k ty st = (Ok n, st') ->
  edits st' = edits st ++ [(g, ECreate op)].
Proof.
  intros H. destruct (fx_create_node_skeleton _ _ _ _ _ _ _ _ _ H) as [[_ Hsk]|[[e He] _]];
    [|discriminate].
  destruct (same_skeleton_fields _ _ Hsk) as (_ & -> & _). reflexivity.
Qed.

Lemma fx_erase_node_edits g o st r st' :
  fx_erase_node g o st = (r, st') ->
  edits st' = edits st \/ edits st' = edits st ++ [(g, EErase)].
Proof.
  intros H.
  destruct (fx_erase_node_skeleton _ _ _ _ _ H) as [[-> _]|(n & nd & _ & _ & _ & _ & Hsk)];
    [by left|right].
  destruct (same_skeleton_fields _ _ Hsk) as (_ & -> & _). reflexivity.
Qed.

(** C2, as amended.  On an unfrozen engine, [call_function] creates the
    node in the setup graph first, in the steady graph second and in the
    cleanup graph last; [erase_node], when it returns, has erased the
    setup counterpart, the steady node and the cleanup counterpart, in
    this order, each of them unless it had been erased before: for a
    node of the steady graph of an engine in correspondence these are
    exactly three erasures, setup, steady, cleanup; [placeholder] and
    [output] create in the steady graph first, then in the setup graph,
    then in the cleanup graph. *)
Theorem mirroring_order (st : IterGraph) :
  _freeze_cross_iter_movement st = false ->
  (forall f args kwargs ty n st',
     call_function f args kwargs ty st = (Ok n, st') ->
     edits st' = edits st ++ [(SetupG, ECreate call_function_op);
                              (MainG, ECreate call_function_op);
                              (CleanupG, ECreate call_function_op)])
  /\ (forall to_erase st',
        erase_node to_erase st = (Ok tt, st') ->
        exists sn cn,
          _setup_mapping st !! to_erase = Some sn
          /\ _cleanup_mapping st !! to_erase = Some cn
          /\ edits st' = edits st ++ erasure st SetupG sn ++ erasure st MainG to_erase
                                  ++ erasure st CleanupG cn
          /\ (in_correspondence st -> to_erase ∈ nodes MainG st ->
              edits st' = edits st ++ [(SetupG, EErase); (MainG, EErase);
                                       (CleanupG, EErase)]))
  /\ (forall name ty dv r st',
        placeholder name ty dv st = (Ok r, st') ->
        edits st' = edits st ++ [(MainG, ECreate placeholder_op);
                                 (SetupG, ECreate placeholder_op);
                                 (CleanupG, ECreate placeholder_op)])
  /\ (forall result ty n st',
        output result ty st = (Ok n, st') ->
        edits st' = edits st ++ [(MainG, ECreate output_op);
                                 (SetupG, ECreate output_op);
                                 (CleanupG, ECreate output_op)]).
Proof.
  intros Hfr. repeat split.
  - intros f args kwargs ty n st' H. unfold call_function in H.
    apply bind_ok in H as (fr & s0 & Hf & H). injection Hf as <- <-. rewrite Hfr in H.
    apply bind_ok in H as (sg & s0 & Hg & H). injection Hg as <- <-.
    apply bind_ok in H as (sn & s1 & H1 & H). apply fx_create_node_edits in H1.
    apply bind_ok in H as (mn & s2 & H2 & H). apply fx_create_node_edits in H2.
    apply bind_ok in H as (cn & s3 & H3 & H). apply fx_create_node_edits in H3.
    apply bind_ok in H as ([] & s4 & H4 & H). injection H4 as <-. injection H as _ <-.
    simpl. rewrite H3, H2, H1, <- !app_assoc. reflexivity.
  - intros to_erase st' H.
    destruct (erase_node_steps _ _ _ Hfr H) as (sn & cn & s1 & s2 & Hsn & Hcn & H1 & H2 & H3).
    destruct (fx_erase_node_change _ _ _ _ H1) as (nds & Hnds & Hgs & E1 & G1 & F1 & _).
    destruct (fx_erase_node_change _ _ _ _ H2) as (ndm & Hndm & Hgm & E2 & G2 & F2 & _).
    destruct (fx_erase_node_change _ _ _ _ H3) as (ndc & Hndc & Hgc & E3 & _).
    assert (Hms : to_erase <> sn).
    { intros ->. specialize (G1 sn). rewrite Hndm, Hnds in G1. simpl in G1. congruence. }
    assert (Hcm : cn <> to_erase).
    { intros ->. specialize (G2 to_erase). rewrite Hndc, Hndm in G2. simpl in G2.
      congruence. }
    assert (Hcs : cn <> sn).
    { intros ->. pose proof (G2 sn) as Ga. pose proof (G1 sn) as Gb.
      rewrite Hndc in Ga. rewrite Hnds in Gb. rewrite Gb in Ga. simpl in Ga. congruence. }
    assert (Eall : edits st' = edits st ++ erasure st SetupG sn
                     ++ erasure st MainG to_erase ++ erasure st CleanupG cn).
    { rewrite E3, E2, E1, <- !app_assoc.
      rewrite (erasure_ext st s1 MainG to_erase) by by apply F1.
      rewrite (erasure_ext s1 s2 CleanupG cn) by by apply F2.
      rewrite (erasure_ext st s1 CleanupG cn) by by apply F1.
      reflexivity. }
    exists sn, cn. split; [done|]. split; [done|]. split; [exact Eall|].
    intros (Hwf & Hps & Hpc) Hin. pose proof Hwf as (_ & _ & Hal & _).
    destruct (proj1 Hps to_erase Hin) as (sn' & Hsn' & Hsin).
    destruct (proj1 Hpc to_erase Hin) as (cn' & Hcn' & Hcin).
    rewrite Hsn in Hsn'. injection Hsn' as <-. rewrite Hcn in Hcn'. injection Hcn' as <-.
    rewrite Eall, !erasure_alive by (by apply Hal). reflexivity.
  - intros name ty dv r st' H. unfold placeholder in H.
    apply bind_ok in H as (fr & s0 & Hf & H). injection Hf as <- <-. rewrite Hfr in H.
    apply bind_ok in H as (mn & s1 & H1 & H). apply fx_create_node_edits in H1.
    apply bind_ok in H as (sn & s2 & H2 & H). apply fx_create_node_edits in H2.
    apply bind_ok in H as (cn & s3 & H3 & H). apply fx_create_node_edits in H3.
    apply bind_ok in H as ([] & s4 & H4 & H). injection H4 as <-. injection H as _ <-.
    simpl. rewrite H3, H2, H1, <- !app_assoc. reflexivity.
  - intros result ty n st' H. unfold output in H.
    apply bind_ok in H as (fr & s0 & Hf & H). injection Hf as <- <-. rewrite Hfr in H.
    apply bind_ok in H as (mn & s1 & H1 & H). apply fx_create_node_edits in H1.
    apply bind_ok in H as (sg & s0 & Hg & H). injection Hg as <- <-.
    apply bind_ok in H as (sn & s2 & H2 & H). apply fx_create_node_edits in H2.
    apply bind_ok in H as (cn & s3 & H3 & H). apply fx_create_node_edits in H3.
    injection H as _ <-.
    rewrite H3, H2, H1, <- !app_assoc. reflexivity.
Qed.

(** C2, counterexample.  On the sample engine none of the four
    primitives edits the graphs in the order setup, cleanup, steady:
    creation and erasure reach the steady graph second, placeholder and
    output reach it first. *)
Lemma mirroring_order_counterexample :
  let st := Sample.engine in
  _freeze_cross_iter_movement st = false
  /\ edited_graphs st (snd (call_function (TCallable 2) [ANode 12] [] None st))
     <> [SetupG; CleanupG; MainG]
  /\ edited_graphs st (snd (erase_node 14 st)) <> [SetupG; CleanupG; MainG]
  /\ edited_graphs st (snd (placeholder "w" None None st)) <> [SetupG; CleanupG; MainG]
  /\ edited_graphs st (snd (output (ATuple [ANode 13]) None st))
     <> [SetupG; CleanupG; MainG].
Proof.
  vm_compute. repeat split; discriminate.
Qed.

(** ** Frozen primitives *)

(** C4, at the failing input.  On the sample engine, once frozen,
    [output] hands its result to the placeholder primitive as a name:
    the call raises and the steady graph gets no output node, where the
    [fx] output primitive links a new one; and [node_update_arg] hands
    the type [int] to [update_arg] as an index: the call raises and the
    argument stays, where the [fx] primitive at the index replaces it. *)
Theorem frozen_output_and_update_arg_miss :
  let st := snd (freeze_cross_iter_movement Sample.engine) in
  _freeze_cross_iter_movement st = true
  /\ output (ATuple [ANode 13]) None st = (Raise AssertionError, st)
  /\ fst (fx_output MainG (ATuple [ANode 13]) None st) = Ok 16
  /\ nodes MainG (snd (fx_output MainG (ATuple [ANode 13]) None st)) = [12; 13; 14; 15; 16]
  /\ node_update_arg 13 0 (ANode 14) st = (Raise TypeError, st)
  /\ (n_args <$> heap st !! 13) = Some [ANode 12]
  /\ fst (fx_update_arg 13 (IInt 0) (ANode 14) st) = Ok tt
  /\ (n_args <$> heap (snd (fx_update_arg 13 (IInt 0) (ANode 14) st)) !! 13)
     = Some [ANode 14].
Proof.
  vm_compute. repeat split; reflexivity.
Qed.

(** C10, witness: under a bound of 1, with a setup module that raises
    [KeyError] and a cleanup module that raises [IndexError], the first
    call raises [KeyError]. *)
Lemma setup_precedes_cleanup_at_one_witness :
  let gms := fun (gm : Gm) (_ : list PyVal) (_ : list (string * PyVal)) =>
               match gm with
               | setup_gm => @Raise PyVal KeyError
               | cleanup_gm => Raise IndexError
               | main_gm => Raise TypeError
               end in
  let d0 := snd (setup 1 (new_module Sample.engine)) in
  forward gms [] [] d0 = (Raise KeyError, tick d0).
Proof.
  intros gms d0.
  destruct (setup_precedes_cleanup_at_one gms (new_module Sample.engine) [] [])
    as (_ & _ & _ & _ & _ & _ & H).
  destruct (H (or_introl eq_refl)) as [_ Hdiff].
  apply (Hdiff KeyError IndexError); [reflexivity|reflexivity|discriminate].
Defined.

(** C8, witness: five calls under a bound of 5. *)
Lemma dispatcher_routing_witness :
  let d := new_module Sample.engine in
  let c : list PyVal * list (string * PyVal) := ([], []) in
  (1 < 5)%Z
  /\ setup 5 d = (Ok tt, snd (setup 5 d))
  /\ routes Sample.pair_gm [c; c; c; c; c] (snd (setup 5 d))
     = [setup_gm; main_gm; main_gm; main_gm; cleanup_gm].
Proof.
  intros d c. split; [lia|]. split; [reflexivity|].
  destruct (dispatcher_routing Sample.pair_gm d (snd (setup 5 d)) 5 []
              ltac:(lia) eq_refl) as (_ & H5 & _).
  apply H5. reflexivity.
Defined.

(** ** Linking and unlinking in a node list *)

Lemma insert_before_perm a x l : insert_before a x l ≡ₚ x :: l.
Proof.
  induction l as [|y l IH]; simpl; [done|].
  case_decide; [done|]. rewrite IH. apply Permutation_swap.
Qed.

Lemma insert_after_perm a x l : insert_after a x l ≡ₚ x :: l.
Proof.
  induction l as [|y l IH]; simpl; [done|].
  case_decide; [apply Permutation_swap|]. rewrite IH. apply Permutation_swap.
Qed.

Lemma link_perm ip x l : link ip x l ≡ₚ x :: filter (fun y => y <> x) l.
Proof.
  unfold link. destruct ip as [[a|]|[a|]].
  - apply insert_before_perm.
  - by rewrite Permutation_app_comm.
  - apply insert_after_perm.
  - done.
Qed.

Lemma filter_absent (x : nat) (l : list nat) : x ∉ l -> filter (fun y => y <> x) l = l.
Proof.
  intros Hx. induction l as [|y l IH]; [done|].
  apply not_elem_of_cons in Hx as [Hne Hx].
  rewrite filter_cons_True by done. by rewrite IH.
Qed.

Lemma link_fresh_perm ip x l : x ∉ l -> link ip x l ≡ₚ x :: l.
Proof. intros Hx. by rewrite link_perm, filter_absent. Qed.

Lemma elem_of_link ip x l y : y ∈ link ip x l <-> y = x \/ y ∈ l.
Proof.
  rewrite link_perm, elem_of_cons, list_elem_of_filter.
  destruct (decide (y = x)) as [->|Hne]; [by split; left|].
  split; [intros [?|[_ ?]]; [by left | by right] | intros [?|?]; [by left | by right]].
Qed.

Lemma length_filter_present (x : nat) (l : list nat) :
  NoDup l -> x ∈ l -> S (length (filter (fun y => y <> x) l)) = length l.
Proof.
  intros Hnd Hx. induction Hnd as [|y l Hy Hnd IH]; [by apply elem_of_nil in Hx|].
  apply elem_of_cons in Hx as [->|Hx].
  - rewrite filter_cons_False by (intros Hne; by apply Hne). by rewrite filter_absent.
  - rewrite filter_cons_True by (intros ->; done). simpl. by rewrite IH.
Qed.

Lemma sk_create_new_node g op t a k ty st :
  heap (sk_create g op t a k ty st) !! length (heap st)
  = Some (mkNode g op t a k ty [] false).
Proof.
  unfold sk_create. simpl. rewrite lookup_app_r, Nat.sub_diag by lia. done.
Qed.

Lemma sk_create_nodes g op t a k ty st :
  g <> OrigG ->
  nodes g (sk_create g op t a k ty st)
  = link (g_insert (graph_of g st)) (length (heap st)) (nodes g st).
Proof. intros Hg. destruct g; done. Qed.

(** C3, as amended.  When the export returns, with or without erasing
    the block, the graph has a new output node whose result is the old
    output node's argument tuple followed by the node-valued inputs that
    the block consumes from outside, one entry for each use, in the
    order of the traversal; the number returned is the number of these
    entries. *)
Theorem export_appends_every_external_use (block : list nat) (graph : GraphId)
    (erase : bool) (st : IterGraph) (k : nat) (st' : IterGraph) :
  _forward_subgraph_inputs (map Some block) graph erase st = (Ok k, st') ->
  exists output od new_output nd',
    _find_output graph st = Some output
    /\ heap st !! output = Some od
    /\ k = length (block_inputs st block)
    /\ heap st' !! new_output = Some nd'
    /\ n_op nd' = output_op
    /\ n_target nd' = TName "output"
    /\ n_args nd' = [ATuple (n_args od ++ map ANode (block_inputs st block))]
    /\ new_output ∈ nodes graph st'.
Proof.
  unfold _forward_subgraph_inputs. intros H.
  apply bind_ok in H as (s0 & s0' & Hget & H). injection Hget as <- <-.
  apply bind_ok in H as (inputs & s1 & Hin & H).
  destruct (collect_inputs_reads _ _ _ _ _ Hin) as [-> Hinputs].
  specialize (Hinputs _ eq_refl). fold (block_inputs st block) in Hinputs. subst inputs.
  apply bind_ok in H as ([o od] & s1 & Hout & H).
  destruct (_find_output graph st) as [o'|] eqn:Efind; [|discriminate].
  simpl in Hout. apply bind_ok in Hout as (od' & s1' & Hd & Hout).
  apply deref_ok in Hd as [Hod ->]. injection Hout as -> -> <-.
  apply bind_ok in H as ([] & s2 & _ & H).
  apply bind_ok in H as ([] & s3 & _ & H).
  apply bind_ok in H as (n & s4 & Hcreate & H). injection H as <- <-.
  unfold fx_output in Hcreate.
  destruct (fx_create_node_skeleton _ _ _ _ _ _ _ _ _ Hcreate) as [[Hn Hsk]|[[e He] _]];
    [|discriminate].
  injection Hn as ->.
  assert (Hg : graph <> OrigG).
  { intros ->. unfold _find_output in Efind. discriminate. }
  destruct (same_skeleton_lookup _ _ _ _ Hsk (sk_create_new_node _ _ _ _ _ _ _))
    as (nd' & Hnd' & Heq).
  exists o, od, (length (heap s3)), nd'.
  repeat split; try done.
  - by injection Heq.
  - by injection Heq.
  - by injection Heq.
  - rewrite (same_skeleton_nodes _ _ graph Hsk), sk_create_nodes by done.
    apply elem_of_link. by left.
Qed.

(** C3, witness: exporting the block [[z]] of the sample engine's own
    graph. *)
Lemma export_appends_every_external_use_witness :
  fst (_forward_subgraph_inputs (map Some [14]) MainG false Sample.engine) = Ok 1
  /\ block_inputs Sample.engine [14] = [12]
  /\ exists new_output nd',
       heap (snd (_forward_subgraph_inputs (map Some [14]) MainG false Sample.engine))
         !! new_output = Some nd'
       /\ n_args nd' = [ATuple ([ATuple [ANode 13]] ++ map ANode [12])].
Proof.
  destruct (_forward_subgraph_inputs (map Some [14]) MainG false Sample.engine)
    as [r st'] eqn:E.
  assert (Hr : r = Ok 1) by (vm_compute in E; congruence).
  subst r. split; [done|]. split; [vm_compute; reflexivity|].
  destruct (export_appends_every_external_use _ _ _ _ _ _ E)
    as (o & od & n & nd' & Hf & Hod & _ & Hnd' & _ & _ & Hargs & _).
  exists n, nd'. split; [exact Hnd'|].
  rewrite Hargs. vm_compute in Hf. injection Hf as <-.
  vm_compute in Hod. injection Hod as <-. reflexivity.
Defined.

(** C3, counterexample.  The block [[y; z]] of the sample engine uses
    the outside value [x] (12) twice; deduplicated this is one value,
    but the export counts two and appends [x] twice. *)
Lemma export_not_deduplicated :
  let r := _forward_subgraph_inputs (map Some [13; 14]) MainG false Sample.engine in
  block_inputs_dedup Sample.engine [13; 14] = [12]
  /\ fst r = Ok 2
  /\ fst r <> Ok (length (block_inputs_dedup Sample.engine [13; 14]))
  /\ (n_args <$> heap (snd r) !! 16)
     = Some [ATuple [ATuple [ANode 13]; ANode 12; ANode 12]]
  /\ (n_args <$> heap (snd r) !! 16)
     <> Some [ATuple ([ATuple [ANode 13]]
                        ++ map ANode (block_inputs_dedup Sample.engine [13; 14]))].
Proof.
  vm_compute. repeat split; try reflexivity; discriminate.
Qed.

(** ** Structural correspondence *)

Lemma alive_same_skeleton st1 st2 g n :
  forget_users st1 = forget_users st2 -> alive st2 g n -> alive st1 g n.
Proof.
  intros H (nd & Hn & Hg & He).
  destruct (same_skeleton_lookup _ _ _ _ H Hn) as (nd1 & Hn1 & Heq).
  exists nd1. split; [done|]. injection Heq as -> _ _ _ _ _ ->. done.
Qed.

Lemma alive_lt st g n : alive st g n -> n < length (heap st).
Proof. intros (nd & Hn & _). by apply lookup_lt_Some in Hn. Qed.

Lemma well_formed_same_skeleton st1 st2 :
  forget_users st1 = forget_users st2 -> well_formed st2 -> well_formed st1.
Proof.
  intros H (Hfr & Hnd & Hal & Hsm & Hcm).
  destruct (same_skeleton_fields _ _ H) as (Hg & _ & Hs & Hc & Hf & _ & _ & Hlen).
  unfold well_formed, nodes. rewrite Hs, Hc, Hf, Hlen.
  split; [done|]. split; [|split; [|split]]; try done.
  - intros g Hne. rewrite Hg. by apply Hnd.
  - intros g n Hne Hin. rewrite Hg in Hin. eapply alive_same_skeleton; eauto.
Qed.

Lemma well_formed_fresh st g : well_formed st -> g <> OrigG -> length (heap st) ∉ nodes g st.
Proof.
  intros (_ & _ & Hal & _) Hg Hin. apply Hal, alive_lt in Hin; [lia|done].
Qed.

Lemma well_formed_sk_create g op t a k ty st :
  g <> OrigG -> well_formed st -> well_formed (sk_create g op t a k ty st).
Proof.
  intros Hg Hwf. pose proof Hwf as (Hfr & Hnd & Hal & Hsm & Hcm).
  assert (Hnodes : forall g', g' <> OrigG ->
            nodes g' (sk_create g op t a k ty st)
            = if decide (g' = g) then link (g_insert (graph_of g st)) (length (heap st)) (nodes g st)
              else nodes g' st).
  { intros g' Hg'. destruct g, g'; done. }
  assert (Hlen : length (heap (sk_create g op t a k ty st)) = S (length (heap st))).
  { unfold sk_create. simpl. rewrite length_app. simpl. lia. }
  unfold well_formed. rewrite Hlen. split; [done|]. split; [|split; [|split]].
  - intros g' Hg'. rewrite Hnodes by done. case_decide; [|by apply Hnd].
    rewrite link_fresh_perm by by apply well_formed_fresh.
    apply NoDup_cons. split; [by apply well_formed_fresh | by apply Hnd].
  - intros g' n Hg' Hin. rewrite Hnodes in Hin by done.
    assert (Hold : alive st g' n -> alive (sk_create g op t a k ty st) g' n).
    { intros (nd & Hn & ?). exists nd. split; [|done].
      unfold sk_create. simpl. rewrite lookup_app_l; [done|by eapply lookup_lt_Some]. }
    case_decide as Heq; [|by apply Hold, Hal].
    apply elem_of_link in Hin as [->|Hin].
    + subst g'. eexists. split; [apply sk_create_new_node|done].
    + subst g'. by apply Hold, Hal.
  - intros m s Hm. apply Hsm in Hm. simpl in *. lia.
  - intros m c Hm. apply Hcm in Hm. simpl in *. lia.
Qed.

(** What a returning [fx_create_node] does to a well-formed engine. *)
Lemma fx_create_node_facts g op t a k ty st n st' :
  g <> OrigG -> well_formed st ->
  fx_create_node g op t a k ty st = (Ok n, st') ->
  n = length (heap st)
  /\ length (heap st') = S (length (heap st))
  /\ well_formed st'
  /\ nodes g st' ≡ₚ n :: nodes g st
  /\ (forall g', g' <> g -> nodes g' st' = nodes g' st)
  /\ control st' = control st.
Proof.
  intros Hg Hwf H.
  destruct (fx_create_node_skeleton _ _ _ _ _ _ _ _ _ H) as [[Hn Hsk]|[[e He] _]];
    [|discriminate].
  injection Hn as ->.
  destruct (same_skeleton_fields _ _ Hsk) as (Hgr & _ & _ & _ & _ & _ & _ & Hlen).
  split; [done|]. split; [|split; [|split; [|split]]].
  - rewrite Hlen. unfold sk_create. simpl. rewrite length_app. simpl. lia.
  - eapply well_formed_same_skeleton; [exact Hsk|]. by apply well_formed_sk_create.
  - rewrite (same_skeleton_nodes _ _ g Hsk), sk_create_nodes by done.
    by apply link_fresh_perm, well_formed_fresh.
  - intros g' Hne. rewrite (same_skeleton_nodes _ _ g' Hsk). destruct g, g'; done.
  - rewrite (control_same_skeleton _ _ Hsk). reflexivity.
Qed.

Lemma well_formed_sk_erase g n nd st :
  g <> OrigG -> well_formed st ->
  heap st !! n = Some nd -> n_graph nd = g ->
  well_formed (sk_erase g n st).
Proof.
  intros Hg (Hfr & Hnd & Hal & Hsm & Hcm) Hn Hgn.
  assert (Hnodes : forall g', g' <> OrigG ->
            nodes g' (sk_erase g n st)
            = if decide (g' = g) then filter (fun y => y <> n) (nodes g st)
              else nodes g' st).
  { intros g' Hg'. destruct g, g'; done. }
  assert (Hlen : length (heap (sk_erase g n st)) = length (heap st)).
  { unfold sk_erase. simpl. apply length_alter. }
  assert (Hold : forall g' x, x <> n -> alive st g' x -> alive (sk_erase g n st) g' x).
  { intros g' x Hx (xd & Hxd & ?). exists xd. split; [|done].
    unfold sk_erase. simpl. by rewrite list_lookup_alter_ne. }
  unfold well_formed. rewrite Hlen. split; [done|]. split; [|split; [|split]]; try done.
  - intros g' Hg'. rewrite Hnodes by done. case_decide; [|by apply Hnd].
    apply NoDup_filter. by apply Hnd.
  - intros g' x Hg' Hin. rewrite Hnodes in Hin by done. case_decide as Heq.
    + subst g'. apply list_elem_of_filter in Hin as [Hx Hin]. apply Hold; [done|].
      by apply Hal.
    + apply Hold; [|by apply Hal]. intros ->.
      destruct (Hal g' n Hg' Hin) as (nd' & Hn' & Hgn' & _). congruence.
Qed.

(** What a returning [fx_erase_node] does to a well-formed engine. *)
Lemma fx_erase_node_facts g n st st' :
  g <> OrigG -> well_formed st ->
  fx_erase_node g (Some n) st = (Ok tt, st') ->
  well_formed st'
  /\ nodes g st' = filter (fun y => y <> n) (nodes g st)
  /\ (forall g', g' <> g -> nodes g' st' = nodes g' st)
  /\ control st' = control st.
Proof.
  intros Hg Hwf H.
  destruct (fx_erase_node_skeleton _ _ _ _ _ H)
    as [[-> Hnoop]|(n' & nd & Hn' & Hnd & Hgn & Her & Hsk)].
  - destruct (Hnoop eq_refl) as (n' & nd & [= <-] & Hnd & Hgn & Her).
    split; [done|]. split; [|done].
    rewrite filter_absent; [done|]. intros Hin.
    destruct Hwf as (_ & _ & Hal & _).
    destruct (Hal g n Hg Hin) as (nd' & Hnd' & _ & Her'). congruence.
  - injection Hn' as <-.
    split; [|split; [|split]].
    + eapply well_formed_same_skeleton; [exact Hsk|]. by eapply well_formed_sk_erase.
    + rewrite (same_skeleton_nodes _ _ g Hsk). destruct g; done.
    + intros g' Hne. rewrite (same_skeleton_nodes _ _ g' Hsk). destruct g, g'; done.
    + rewrite (control_same_skeleton _ _ Hsk). reflexivity.
Qed.

Lemma paired_insert (mapping : gmap nat nat) (ms ss ms' ss' : list nat) (len m_new s_new : nat) :
  paired mapping ms ss ->
  (forall m s, mapping !! m = Some s -> m < len /\ s < len) ->
  (forall x, x ∈ ms -> x < len) ->
  (forall x, x ∈ ss -> x < len) ->
  ms' ≡ₚ m_new :: ms -> ss' ≡ₚ s_new :: ss ->
  len <= m_new -> len <= s_new ->
  paired (<[m_new := s_new]> mapping) ms' ss'.
Proof.
  intros (Hmap & Hback & Hinj & Hlen) Hb Hms Hss Pm Ps Hm Hs.
  assert (Hold : forall m s, m <> m_new -> <[m_new := s_new]> mapping !! m = Some s ->
                             mapping !! m = Some s /\ s <> s_new).
  { intros m s Hne Hl. rewrite lookup_insert_ne in Hl by done.
    split; [done|]. apply Hb in Hl. lia. }
  split; [|split; [|split]].
  - intros m Hin. rewrite Pm in Hin. apply elem_of_cons in Hin as [->|Hin].
    + exists s_new. rewrite lookup_insert_eq, Ps. split; [done|by left].
    + destruct (Hmap m Hin) as (s & Hl & Hsin). exists s.
      rewrite lookup_insert_ne by (apply Hms in Hin; lia).
      rewrite Ps. split; [done|by right].
  - intros m s Hl Hin. rewrite Pm. destruct (decide (m = m_new)) as [->|Hne]; [by left|].
    right. destruct (Hold m s Hne Hl) as [Hl' Hs'].
    rewrite Ps in Hin. apply elem_of_cons in Hin as [?|Hin]; [done|]. by eapply Hback.
  - intros m m' s Hl Hl' Hin.
    destruct (decide (m = m_new)) as [->|Hne], (decide (m' = m_new)) as [->|Hne']; [done| | |].
    + rewrite lookup_insert_eq in Hl. injection Hl as <-.
      by destruct (Hold m' s_new Hne' Hl').
    + rewrite lookup_insert_eq in Hl'. injection Hl' as <-.
      by destruct (Hold m s_new Hne Hl).
    + destruct (Hold m s Hne Hl) as [H1 Hs'], (Hold m' s Hne' Hl') as [H2 _].
      rewrite Ps in Hin. apply elem_of_cons in Hin as [?|Hin]; [done|]. by eapply Hinj.
  - rewrite Pm, Ps. simpl. by rewrite Hlen.
Qed.

Lemma paired_erase (mapping : gmap nat nat) (ms ss : list nat) (m s : nat) :
  paired mapping ms ss -> NoDup ms -> NoDup ss ->
  mapping !! m = Some s ->
  paired mapping (filter (fun y => y <> m) ms) (filter (fun y => y <> s) ss).
Proof.
  intros (Hmap & Hback & Hinj & Hlen) Hndm Hnds Hms.
  destruct (decide (m ∈ ms)) as [Hin|Hnin].
  - destruct (Hmap m Hin) as (s' & Hs' & Hsin).
    rewrite Hms in Hs'. injection Hs' as <-.
    split; [|split; [|split]].
    + intros m' Hm'. apply list_elem_of_filter in Hm' as [Hne Hm'].
      destruct (Hmap m' Hm') as (s' & Hl' & Hs'in). exists s'. split; [done|].
      apply list_elem_of_filter. split; [|done].
      intros ->. apply Hne. by eapply Hinj.
    + intros m' s' Hl' Hs'. apply list_elem_of_filter in Hs' as [Hne Hs'].
      apply list_elem_of_filter. split; [|by eapply Hback]. intros ->. congruence.
    + intros m1 m2 s' H1 H2 Hs'. apply list_elem_of_filter in Hs' as [_ Hs'].
      by eapply Hinj.
    + pose proof (length_filter_present m ms Hndm Hin).
      pose proof (length_filter_present s ss Hnds Hsin). lia.
  - assert (Hsn : s ∉ ss) by (intros Hs; apply Hnin; by eapply Hback).
    rewrite !filter_absent by done. done.
Qed.

Lemma control_fields st st' :
  control st' = control st ->
  _setup_mapping st' = _setup_mapping st
  /\ _cleanup_mapping st' = _cleanup_mapping st
  /\ _freeze_cross_iter_movement st' = _freeze_cross_iter_movement st.
Proof. unfold control. intros [= -> -> -> _ _]. done. Qed.

(** The engine after three nodes, one in each graph, have been linked
    and recorded as counterparts. *)
Lemma correspondence_after_creation st s3 nm ns nc :
  in_correspondence st ->
  well_formed s3 ->
  control s3 = control st ->
  nodes MainG s3 ≡ₚ nm :: nodes MainG st ->
  nodes SetupG s3 ≡ₚ ns :: nodes SetupG st ->
  nodes CleanupG s3 ≡ₚ nc :: nodes CleanupG st ->
  length (heap st) <= nm -> length (heap st) <= ns -> length (heap st) <= nc ->
  in_correspondence (snd (record_mapping nm ns nc s3)).
Proof.
  intros (Hwf & Hps & Hpc) Hwf3 Hctl Pm Ps Pc Hm Hs Hc.
  destruct (control_fields _ _ Hctl) as (Hsm & Hcm & Hfr).
  pose proof Hwf as (_ & _ & Hal & Hbs & Hbc).
  pose proof Hwf3 as (Hfr3 & Hnd3 & Hal3 & Hbs3 & Hbc3).
  assert (Hlt : forall g x, g <> OrigG -> x ∈ nodes g st -> x < length (heap st)).
  { intros g x Hg Hx. by eapply alive_lt, Hal. }
  assert (Hlt3 : forall g x, g <> OrigG -> x ∈ nodes g s3 -> x < length (heap s3)).
  { intros g x Hg Hx. by eapply alive_lt, Hal3. }
  assert (Hnm : nm < length (heap s3)) by (apply (Hlt3 MainG); [done|rewrite Pm; by left]).
  assert (Hns : ns < length (heap s3)) by (apply (Hlt3 SetupG); [done|rewrite Ps; by left]).
  assert (Hnc : nc < length (heap s3)) by (apply (Hlt3 CleanupG); [done|rewrite Pc; by left]).
  split; [|split].
  - split; [exact Hfr3|]. split; [exact Hnd3|]. split; [exact Hal3|]. split.
    + intros m s Hl. simpl in Hl. destruct (decide (m = nm)) as [->|Hne].
      * rewrite lookup_insert_eq in Hl. injection Hl as <-. done.
      * rewrite lookup_insert_ne in Hl by done. by apply Hbs3.
    + intros m c Hl. simpl in Hl. destruct (decide (m = nm)) as [->|Hne].
      * rewrite lookup_insert_eq in Hl. injection Hl as <-. done.
      * rewrite lookup_insert_ne in Hl by done. by apply Hbc3.
  - unfold pairs_with. simpl. rewrite Hsm.
    apply (paired_insert _ (nodes MainG st) (nodes SetupG st) _ _ (length (heap st)));
      try done; intros x; by apply Hlt.
  - unfold pairs_with. simpl. rewrite Hcm.
    apply (paired_insert _ (nodes MainG st) (nodes CleanupG st) _ _ (length (heap st)));
      try done; intros x; by apply Hlt.
Qed.

Lemma correspondence_call_function f args kwargs ty st n st' :
  in_correspondence st ->
  call_function f args kwargs ty st = (Ok n, st') ->
  in_correspondence st'.
Proof.
  intros Hc H. pose proof Hc as (Hwf & _). pose proof Hwf as (Hfr & _).
  unfold call_function in H.
  apply bind_ok in H as (fr & s0 & Hf & H). injection Hf as <- <-. rewrite Hfr in H.
  apply bind_ok in H as (sg & s0 & Hg & H). injection Hg as <- <-.
  apply bind_ok in H as (sn & s1 & H1 & H).
  apply fx_create_node_facts in H1 as (-> & L1 & W1 & P1 & O1 & C1); [|done..].
  apply bind_ok in H as (mn & s2 & H2 & H).
  apply fx_create_node_facts in H2 as (-> & L2 & W2 & P2 & O2 & C2); [|done..].
  apply bind_ok in H as (cn & s3 & H3 & H).
  apply fx_create_node_facts in H3 as (-> & L3 & W3 & P3 & O3 & C3); [|done..].
  apply bind_ok in H as ([] & s4 & H4 & H). injection H as _ <-.
  replace s4 with (snd (record_mapping (length (heap s1)) (length (heap st))
                          (length (heap s2)) s3)) by by rewrite H4.
  apply (correspondence_after_creation st); try done; try lia.
  - congruence.
  - rewrite (O3 MainG), P2, (O1 MainG) by done. done.
  - rewrite (O3 SetupG), (O2 SetupG), P1 by done. done.
  - rewrite P3, (O2 CleanupG), (O1 CleanupG) by done. done.
Qed.

Lemma correspondence_placeholder name ty dv st r st' :
  in_correspondence st ->
  placeholder name ty dv st = (Ok r, st') ->
  in_correspondence st'.
Proof.
  intros Hc H. pose proof Hc as (Hwf & _). pose proof Hwf as (Hfr & _).
  unfold placeholder in H.
  apply bind_ok in H as (fr & s0 & Hf & H). injection Hf as <- <-. rewrite Hfr in H.
  apply bind_ok in H as (mn & s1 & H1 & H).
  apply fx_create_node_facts in H1 as (-> & L1 & W1 & P1 & O1 & C1); [|done..].
  apply bind_ok in H as (sn & s2 & H2 & H).
  apply fx_create_node_facts in H2 as (-> & L2 & W2 & P2 & O2 & C2); [|done..].
  apply bind_ok in H as (cn & s3 & H3 & H).
  apply fx_create_node_facts in H3 as (-> & L3 & W3 & P3 & O3 & C3); [|done..].
  apply bind_ok in H as ([] & s4 & H4 & H). injection H as _ <-.
  replace s4 with (snd (record_mapping (length (heap st)) (length (heap s1))
                          (length (heap s2)) s3)) by by rewrite H4.
  apply (correspondence_after_creation st); try done; try lia.
  - congruence.
  - rewrite (O3 MainG), (O2 MainG), P1 by done. done.
  - rewrite (O3 SetupG), P2, (O1 SetupG) by done. done.
  - rewrite P3, (O2 CleanupG), (O1 CleanupG) by done. done.
Qed.

Lemma correspondence_erase_node to_erase st st' :
  in_correspondence st ->
  erase_node to_erase st = (Ok tt, st') ->
  in_correspondence st'.
Proof.
  intros (Hwf & Hps & Hpc) H. pose proof Hwf as (Hfr & Hnd & _).
  unfold erase_node in H.
  apply bind_ok in H as (fr & s0 & Hf & H). injection Hf as <- <-. rewrite Hfr in H.
  apply bind_ok in H as (sn & s0 & Hl & H). injection Hl as <- <-.
  apply bind_ok in H as ([] & s0 & Ha & H).
  simpl in Ha, H. destruct (_setup_mapping st !! to_erase) as [s|] eqn:Es.
  2:{ rewrite bool_decide_eq_false_2 in Ha by apply is_Some_None. discriminate. }
  rewrite bool_decide_eq_true_2 in Ha by eauto. injection Ha as <-.
  apply bind_ok in H as ([] & s1 & H1 & H).
  apply fx_erase_node_facts in H1 as (W1 & N1 & O1 & C1); [|done..].
  apply bind_ok in H as ([] & s2 & H2 & H).
  apply fx_erase_node_facts in H2 as (W2 & N2 & O2 & C2); [|done..].
  apply bind_ok in H as (cn & s3 & Hl & H). injection Hl as <- <-.
  simpl in H. destruct (_cleanup_mapping s2 !! to_erase) as [c|] eqn:Ec; [|discriminate].
  apply fx_erase_node_facts in H as (W3 & N3 & O3 & C3); [|done..].
  destruct (control_fields _ _ C1) as (Hs1 & Hc1 & _).
  destruct (control_fields _ _ C2) as (Hs2 & Hc2 & _).
  destruct (control_fields _ _ C3) as (Hs3 & Hc3 & _).
  rewrite Hc2, Hc1 in Ec.
  split; [done|]. split.
  - unfold pairs_with. rewrite Hs3, Hs2, Hs1.
    rewrite (O3 MainG), N2, (O1 MainG), (O3 SetupG), (O2 SetupG), N1 by done.
    apply paired_erase; try done; by apply Hnd.
  - unfold pairs_with. rewrite Hc3, Hc2, Hc1.
    rewrite (O3 MainG), N2, (O1 MainG), N3, (O2 CleanupG), (O1 CleanupG) by done.
    apply paired_erase; try done; by apply Hnd.
Qed.

Lemma correspondence_perform op st st' :
  in_correspondence st ->
  perform op st = (Ok tt, st') ->
  in_correspondence st'.
Proof.
  intros Hc H. destruct op as [f args kwargs ty|name ty dv|n]; simpl in H.
  - apply bind_ok in H as (m & s1 & H1 & H). injection H as <-.
    by eapply correspondence_call_function.
  - apply bind_ok in H as (r & s1 & H1 & H). injection H as <-.
    by eapply correspondence_placeholder.
  - by eapply correspondence_erase_node.
Qed.

Lemma correspondence_perform_all ops : forall st st',
  in_correspondence st ->
  perform_all ops st = Some st' ->
  in_correspondence st'.
Proof.
  induction ops as [|op ops IH]; intros st st' Hc H; simpl in H.
  - by injection H as <-.
  - destruct (perform op st) as [[[]|e] s1] eqn:E; [|discriminate].
    eapply IH; [|exact H]. by eapply correspondence_perform.
Qed.

Lemma correspondence_structural st :
  in_correspondence st -> structural_correspondence st.
Proof.
  intros (Hwf & (Hms & _ & _ & Hls) & (Hmc & _ & _ & Hlc)).
  split; [|done].
  intros m Hm. split.
  - destruct (Hms m Hm) as (s & Hl & Hs). exists s. split; [done|].
    intros s' [Hl' _]. simpl in Hl'. congruence.
  - destruct (Hmc m Hm) as (c & Hl & Hc). exists c. split; [done|].
    intros c' [Hl' _]. simpl in Hl'. congruence.
Qed.

(** *** The engine as constructed *)

Lemma pair_up_split : forall ms ss cs sm cm,
  length ss = length ms -> length cs = length ms ->
  pair_up ms ss cs sm cm = (pair_map ms ss sm, pair_map ms cs cm).
Proof.
  induction ms as [|m ms IH]; intros [|s ss] [|c cs] sm cm Hs Hc;
    simpl in *; try done; try lia.
  apply IH; lia.
Qed.

Lemma pair_map_spec : forall ms ss (mapping : gmap nat nat),
  NoDup ms -> NoDup ss -> length ss = length ms ->
  (forall m s, mapping !! m = Some s -> (m ∉ ms) /\ (s ∉ ss)) ->
  (forall m, m ∈ ms -> exists s, pair_map ms ss mapping !! m = Some s /\ s ∈ ss)
  /\ (forall m s, pair_map ms ss mapping !! m = Some s ->
        mapping !! m = Some s \/ (m ∈ ms /\ s ∈ ss))
  /\ (forall m, m ∉ ms -> pair_map ms ss mapping !! m = mapping !! m)
  /\ ((forall m m' s, mapping !! m = Some s -> mapping !! m' = Some s -> m = m') ->
      (forall m m' s, pair_map ms ss mapping !! m = Some s ->
                      pair_map ms ss mapping !! m' = Some s -> m = m')).
Proof.
  induction ms as [|m ms IH]; intros [|s ss] mapping Hndm Hnds Hlen Hdisj;
    simpl in *; try lia.
  - split; [|split; [|split]]; try done.
    + intros m Hm. by apply elem_of_nil in Hm.
    + intros m s Hl. by left.
  - apply NoDup_cons in Hndm as [Hm Hndm]. apply NoDup_cons in Hnds as [Hs Hnds].
    assert (Hdisj1 : forall m0 s0, <[m := s]> mapping !! m0 = Some s0 ->
                                   (m0 ∉ ms) /\ (s0 ∉ ss)).
    { intros m0 s0 Hl. destruct (decide (m0 = m)) as [->|Hne].
      - rewrite lookup_insert_eq in Hl. by injection Hl as <-.
      - rewrite lookup_insert_ne in Hl by done. apply Hdisj in Hl as [H1 H2].
        apply not_elem_of_cons in H1 as [_ H1]. apply not_elem_of_cons in H2 as [_ H2].
        done. }
    destruct (IH ss (<[m := s]> mapping) Hndm Hnds ltac:(lia) Hdisj1)
      as (I1 & I2 & I3 & I4).
    split; [|split; [|split]].
    + intros m0 Hin. apply elem_of_cons in Hin as [->|Hin].
      * exists s. rewrite I3, lookup_insert_eq by done. split; [done|by left].
      * destruct (I1 m0 Hin) as (s0 & Hl & Hs0). exists s0. split; [done|by right].
    + intros m0 s0 Hl. apply I2 in Hl as [Hl|[H1 H2]].
      * destruct (decide (m0 = m)) as [->|Hne].
        -- rewrite lookup_insert_eq in Hl. injection Hl as <-. right. split; by left.
        -- rewrite lookup_insert_ne in Hl by done. by left.
      * right. split; by right.
    + intros m0 Hnin. apply not_elem_of_cons in Hnin as [Hne Hnin].
      rewrite I3, lookup_insert_ne by done. done.
    + intros Hinj. apply I4. intros m1 m2 s0 H1 H2.
      destruct (decide (m1 = m)) as [->|Hne1], (decide (m2 = m)) as [->|Hne2]; [done| | |].
      * rewrite lookup_insert_eq in H1. injection H1 as <-.
        rewrite lookup_insert_ne in H2 by done. apply Hdisj in H2 as [_ H2].
        exfalso. apply H2. by left.
      * rewrite lookup_insert_eq in H2. injection H2 as <-.
        rewrite lookup_insert_ne in H1 by done. apply Hdisj in H1 as [_ H1].
        exfalso. apply H1. by left.
      * rewrite lookup_insert_ne in H1, H2 by done. by eapply Hinj.
Qed.

Lemma paired_pair_map ms ss :
  NoDup ms -> NoDup ss -> length ss = length ms ->
  paired (pair_map ms ss ∅) ms ss
  /\ (forall m s, pair_map ms ss ∅ !! m = Some s -> m ∈ ms /\ s ∈ ss).
Proof.
  intros Hm Hs Hlen.
  destruct (pair_map_spec ms ss ∅ Hm Hs Hlen) as (I1 & I2 & _ & I4).
  { intros m s Hl. by rewrite lookup_empty in Hl. }
  assert (Hin : forall m s, pair_map ms ss ∅ !! m = Some s -> m ∈ ms /\ s ∈ ss).
  { intros m s Hl. apply I2 in Hl as [Hl|?]; [by rewrite lookup_empty in Hl|done]. }
  split; [|done]. split; [done|]. split; [|split; [|done]].
  - intros m s Hl _. by apply Hin in Hl as [? _].
  - intros m m' s H1 H2 _. eapply I4; eauto. intros ? ? ? Hl. by rewrite lookup_empty in Hl.
Qed.

Lemma map_arg_val_reads val_map args st r st' :
  map_arg_val val_map args st = (r, st') -> st' = st.
Proof. unfold map_arg_val. destruct (forallb _ _); by intros [= _ <-]. Qed.

Lemma graph_copy_facts : forall l val_map st r st',
  well_formed st ->
  graph_copy l val_map st = (Ok r, st') ->
  well_formed st'
  /\ nodes SetupG st' = nodes SetupG st
  /\ nodes CleanupG st' = nodes CleanupG st
  /\ control st' = control st.
Proof.
  induction l as [|node rest IH]; intros val_map st r st' Hwf H; simpl in H.
  - by injection H as _ <-.
  - case_bool_decide; [by eapply IH|].
    apply bind_ok in H as (nd & s0 & Hd & H). apply deref_ok in Hd as [_ ->].
    case_decide.
    + destruct (n_args nd) as [|a args]; [discriminate|].
      apply bind_ok in H as (rv & s0 & Hm & H). apply map_arg_val_reads in Hm as ->.
      by injection H as _ <-.
    + apply bind_ok in H as (args & s0 & Hm & H). apply map_arg_val_reads in Hm as ->.
      apply bind_ok in H as (kwvals & s0 & Hm & H). apply map_arg_val_reads in Hm as ->.
      apply bind_ok in H as (copy & s1 & Hc & H).
      apply fx_create_node_facts in Hc as (_ & _ & W1 & _ & O1 & C1); [|done..].
      destruct (IH _ _ _ _ W1 H) as (W & Hs & Hc & Hctl).
      split; [done|]. rewrite Hs, Hc, Hctl, (O1 SetupG), (O1 CleanupG) by done. done.
Qed.

Lemma correspondence_init store orig setup_nodes cleanup_nodes st0 :
  __init__ store orig setup_nodes cleanup_nodes = (Ok tt, st0) ->
  NoDup setup_nodes -> NoDup cleanup_nodes ->
  (forall n, n ∈ setup_nodes ->
     exists nd, store !! n = Some nd /\ n_graph nd = SetupG /\ n_erased nd = false) ->
  (forall n, n ∈ cleanup_nodes ->
     exists nd, store !! n = Some nd /\ n_graph nd = CleanupG /\ n_erased nd = false) ->
  length setup_nodes = length (nodes MainG st0) ->
  length cleanup_nodes = length (nodes MainG st0) ->
  in_correspondence st0.
Proof.
  intros H Hnds Hndc Hals Halc Hls Hlc. unfold __init__ in H.
  set (r0 := mkIterGraph _ _ _ _ _ _ _ _ _ _) in H.
  assert (W0 : well_formed r0).
  { split; [done|]. split; [|split; [|split]].
    - intros [] Hg; try done. apply NoDup_nil_2.
    - intros [] n Hg Hin; try done.
      + by apply Hals.
      + by apply Halc.
      + by apply elem_of_nil in Hin.
    - intros m s Hl. unfold r0 in Hl. simpl in Hl. by rewrite lookup_empty in Hl.
    - intros m s Hl. unfold r0 in Hl. simpl in Hl. by rewrite lookup_empty in Hl. }
  apply bind_ok in H as (ov & s1 & Hcopy & H).
  apply graph_copy_facts in Hcopy as (W1 & S1 & C1 & _); [|done].
  destruct ov as [[output_val old]|]; [|discriminate].
  apply bind_ok in H as (od & s1' & Hd & H). apply deref_ok in Hd as [_ ->].
  apply bind_ok in H as (out & s2 & Hout & H).
  apply fx_create_node_facts in Hout as (_ & _ & W2 & _ & O2 & _); [|done..].
  injection H as <-.
  assert (S2 : nodes SetupG s2 = setup_nodes) by by rewrite (O2 SetupG), S1.
  assert (C2 : nodes CleanupG s2 = cleanup_nodes) by by rewrite (O2 CleanupG), C1.
  destruct (pair_up _ _ _ ∅ ∅) as [sm cm] eqn:Ep. simpl in Hls, Hlc.
  change (nodes MainG (with_counters 0 0 (with_freeze false (with_mappings sm cm s2))))
    with (nodes MainG s2) in Hls, Hlc.
  rewrite pair_up_split in Ep by congruence. injection Ep as <- <-.
  pose proof W2 as (_ & Hnd2 & Hal2 & _).
  destruct (paired_pair_map (nodes MainG s2) (nodes SetupG s2)) as [Ps Bs];
    [by apply Hnd2..|congruence|].
  destruct (paired_pair_map (nodes MainG s2) (nodes CleanupG s2)) as [Pc Bc];
    [by apply Hnd2..|congruence|].
  split; [|split]; [|exact Ps|exact Pc].
  split; [done|]. split; [exact Hnd2|]. split; [exact Hal2|]. split.
  - intros m s Hl. apply Bs in Hl as [Hm Hs].
    split; eapply alive_lt, Hal2; try eassumption; done.
  - intros m c Hl. apply Bc in Hl as [Hm Hc].
    split; eapply alive_lt, Hal2; try eassumption; done.
Qed.

(** C1.  Take an engine as [IterGraph.__init__] builds it from three
    graphs of equally many nodes (the setup and cleanup graphs being
    lists of distinct, live node objects of their own), and any sequence
    of [call_function], [placeholder] and [erase_node] calls each of
    which is performed (returns normally) on the unfrozen engine.  Then
    every node of the steady graph has exactly one counterpart recorded
    in the setup graph and exactly one in the cleanup graph, and the
    three graphs have equally many nodes. *)
Theorem structural_correspondence_invariant
    (store : list Node) (orig setup_nodes cleanup_nodes : list nat)
    (st0 : IterGraph) (ops : list MirroredOp) (st : IterGraph) :
  __init__ store orig setup_nodes cleanup_nodes = (Ok tt, st0) ->
  NoDup setup_nodes -> NoDup cleanup_nodes ->
  (forall n, n ∈ setup_nodes ->
     exists nd, store !! n = Some nd /\ n_graph nd = SetupG /\ n_erased nd = false) ->
  (forall n, n ∈ cleanup_nodes ->
     exists nd, store !! n = Some nd /\ n_graph nd = CleanupG /\ n_erased nd = false) ->
  length setup_nodes = length (nodes MainG st0) ->
  length cleanup_nodes = length (nodes MainG st0) ->
  perform_all ops st0 = Some st ->
  _freeze_cross_iter_movement st = false /\ structural_correspondence st.
Proof.
  intros Hinit Hnds Hndc Hals Halc Hls Hlc Hops.
  assert (Hc : in_correspondence st).
  { eapply correspondence_perform_all; [|exact Hops].
    by eapply correspondence_init. }
  split; [apply Hc | by apply correspondence_structural].
Qed.

(** C1, witness: on the sample engine, a mirrored [call_function], a
    mirrored [placeholder], and the erasure of the node just created. *)
Lemma structural_correspondence_invariant_witness :
  let ops := [DoCallFunction (TCallable 2) [ANode 12] [] None;
              DoPlaceholder "w" None None;
              DoEraseNode 17] in
  __init__ Sample.store [0; 1; 2; 3] [4; 5; 6; 7] [8; 9; 10; 11] = (Ok tt, Sample.engine)
  /\ exists st, perform_all ops Sample.engine = Some st
                /\ _freeze_cross_iter_movement st = false
                /\ structural_correspondence st.
Proof.
  intros ops.
  assert (Hinit : __init__ Sample.store [0; 1; 2; 3] [4; 5; 6; 7] [8; 9; 10; 11]
                  = (Ok tt, Sample.engine)) by (vm_compute; reflexivity).
  split; [exact Hinit|].
  destruct (perform_all ops Sample.engine) as [st|] eqn:E;
    [|vm_compute in E; discriminate E].
  exists st. split; [reflexivity|].
  apply (structural_correspondence_invariant Sample.store [0; 1; 2; 3] [4; 5; 6; 7]
           [8; 9; 10; 11] Sample.engine ops st Hinit).
  - apply (bool_decide_unpack _). vm_compute. exact I.
  - apply (bool_decide_unpack _). vm_compute. exact I.
  - clear. intros n Hn.
    repeat (apply elem_of_cons in Hn as [->|Hn];
            [eexists; split; [reflexivity|exact (conj eq_refl eq_refl)]|]).
    by apply elem_of_nil in Hn.
  - clear. intros n Hn.
    repeat (apply elem_of_cons in Hn as [->|Hn];
            [eexists; split; [reflexivity|exact (conj eq_refl eq_refl)]|]).
    by apply elem_of_nil in Hn.
  - clear. vm_compute. reflexivity.
  - clear. vm_compute. reflexivity.
  - exact E.
Defined.

Lemma sample_engine_in_correspondence : in_correspondence Sample.engine.
Proof.
  apply (correspondence_init Sample.store [0; 1; 2; 3] [4; 5; 6; 7] [8; 9; 10; 11]).
  - vm_compute. reflexivity.
  - apply (bool_decide_unpack _). vm_compute. exact I.
  - apply (bool_decide_unpack _). vm_compute. exact I.
  - clear. intros n Hn.
    repeat (apply elem_of_cons in Hn as [->|Hn];
            [eexists; split; [reflexivity|exact (conj eq_refl eq_refl)]|]).
    by apply elem_of_nil in Hn.
  - clear. intros n Hn.
    repeat (apply elem_of_cons in Hn as [->|Hn];
            [eexists; split; [reflexivity|exact (conj eq_refl eq_refl)]|]).
    by apply elem_of_nil in Hn.
  - vm_compute. reflexivity.
  - vm_compute. reflexivity.
Qed.

(** C2, witness: a mirrored [call_function] and a mirrored
    [erase_node] on the sample engine. *)
Lemma mirroring_order_witness :
  _freeze_cross_iter_movement Sample.engine = false
  /\ edited_graphs Sample.engine
       (snd (call_function (TCallable 2) [ANode 12] [] None Sample.engine))
     = [SetupG; MainG; CleanupG]
  /\ edited_graphs Sample.engine (snd (erase_node 14 Sample.engine))
     = [SetupG; MainG; CleanupG].
Proof.
  split; [reflexivity|].
  destruct (mirroring_order Sample.engine eq_refl) as (Hcall & Herase & _).
  unfold edited_graphs. split.
  - rewrite (Hcall (TCallable 2) [ANode 12] [] None 17
               (snd (call_function (TCallable 2) [ANode 12] [] None Sample.engine)))
      by (vm_compute; reflexivity).
    rewrite drop_app_length. reflexivity.
  - destruct (Herase 14 (snd (erase_node 14 Sample.engine)))
      as (sn & cn & _ & _ & _ & Hthree); [vm_compute; reflexivity|].
    rewrite Hthree.
    + rewrite drop_app_length. reflexivity.
    + exact sample_engine_in_correspondence.
    + clear. change (14 ∈ [12; 13; 14; 15]).
      apply elem_of_cons. right. apply elem_of_cons. right. apply elem_of_cons. by left.
Defined.

(** ** Erasure and the correspondence maps *)

(** C7, as amended.  [erase_node], frozen or not, returning or raising,
    leaves both correspondence maps exactly as they were: no entry is
    ever removed.  When it returns on a well-formed (hence unfrozen)
    engine, the node and its two counterparts are no longer linked in
    their graphs and are marked erased, and the entry of the erased
    steady node is still there, relating it to its erased setup and
    cleanup counterparts. *)
Theorem erase_node_keeps_mappings (to_erase : nat) (st : IterGraph) :
  _setup_mapping (snd (erase_node to_erase st)) = _setup_mapping st
  /\ _cleanup_mapping (snd (erase_node to_erase st)) = _cleanup_mapping st
  /\ (forall st', well_formed st -> erase_node to_erase st = (Ok tt, st') ->
        exists sn cn,
          _setup_mapping st' !! to_erase = Some sn
          /\ _cleanup_mapping st' !! to_erase = Some cn
          /\ erased st' sn /\ erased st' to_erase /\ erased st' cn
          /\ (sn ∉ nodes SetupG st') /\ (to_erase ∉ nodes MainG st')
          /\ (cn ∉ nodes CleanupG st')).
Proof.
  assert (H : keeps control (erase_node to_erase)).
  { unfold erase_node. apply keeps_bind; [apply keeps_is_frozen|]. intros [|].
    - apply keeps_control_erase.
    - apply keeps_bind; [apply keeps_lookup|]. intros s.
      apply keeps_bind; [apply keeps_assert|]. intros _.
      apply keeps_bind; [apply keeps_control_erase|]. intros _.
      apply keeps_bind; [apply keeps_control_erase|]. intros _.
      apply keeps_bind; [apply keeps_lookup|]. intros c.
      apply keeps_control_erase. }
  pose proof (H st) as Hst. unfold control in Hst. injection Hst as Hs Hc _ _ _.
  split; [exact Hs|]. split; [exact Hc|].
  intros st' Hwf Hrun. pose proof Hwf as (Hfr & _).
  rewrite Hrun in Hs, Hc. simpl in Hs, Hc.
  destruct (erase_node_steps _ _ _ Hfr Hrun)
    as (sn & cn & s1 & s2 & Hsn & Hcn & H1 & H2 & H3).
  destruct (fx_erase_node_change _ _ _ _ H1) as (_ & _ & _ & _ & _ & _ & Es).
  destruct (fx_erase_node_change _ _ _ _ H2) as (_ & _ & _ & _ & _ & _ & Em).
  destruct (fx_erase_node_change _ _ _ _ H3) as (_ & _ & _ & _ & _ & _ & Ec).
  destruct (fx_erase_node_facts SetupG _ _ _ ltac:(done) Hwf H1) as (W1 & N1 & O1 & _).
  destruct (fx_erase_node_facts MainG _ _ _ ltac:(done) W1 H2) as (W2 & N2 & O2 & _).
  destruct (fx_erase_node_facts CleanupG _ _ _ ltac:(done) W2 H3) as (_ & N3 & O3 & _).
  exists sn, cn. rewrite Hs, Hc.
  split; [done|]. split; [done|].
  split; [by eapply erased_kept, erased_kept|].
  split; [by eapply erased_kept|]. split; [done|].
  split; [|split].
  - rewrite (O3 SetupG), (O2 SetupG), N1 by done.
    intros Hin. apply list_elem_of_filter in Hin as [Hne _]. by apply Hne.
  - rewrite (O3 MainG), N2 by done.
    intros Hin. apply list_elem_of_filter in Hin as [Hne _]. by apply Hne.
  - rewrite N3. intros Hin. apply list_elem_of_filter in Hin as [Hne _]. by apply Hne.
Qed.

(** C7, witness: the node [z] (14) of the sample engine. *)
Lemma erase_node_keeps_mappings_witness :
  well_formed Sample.engine
  /\ exists st', erase_node 14 Sample.engine = (Ok tt, st')
       /\ _setup_mapping st' !! 14 = Some 6 /\ erased st' 6 /\ (6 ∉ nodes SetupG st').
Proof.
  pose proof (proj1 sample_engine_in_correspondence) as Hwf.
  split; [exact Hwf|].
  destruct (erase_node 14 Sample.engine) as [[[]|e] st'] eqn:E;
    [|clear Hwf; vm_compute in E; discriminate E].
  exists st'. split; [reflexivity|].
  destruct (erase_node_keeps_mappings 14 Sample.engine) as (Hs & _ & H).
  destruct (H st' Hwf E) as (sn & cn & Hsn & _ & Hes & _ & _ & Hns & _).
  assert (sn = 6) as ->.
  { rewrite E in Hs. simpl in Hs. rewrite Hs in Hsn. clear -Hsn.
    vm_compute in Hsn. congruence. }
  done.
Defined.

(** C7, counterexample.  On the sample engine the node [z] (14) is
    erased from the three graphs, yet it is still a key of both maps,
    related to the erased nodes 6 and 10. *)
Lemma erase_node_leaves_stale_entry :
  let st := snd (erase_node 14 Sample.engine) in
  _freeze_cross_iter_movement Sample.engine = false
  /\ fst (erase_node 14 Sample.engine) = Ok tt
  /\ (14 ∉ nodes MainG st) /\ (6 ∉ nodes SetupG st) /\ (10 ∉ nodes CleanupG st)
  /\ _setup_mapping st !! 14 = Some 6
  /\ _cleanup_mapping st !! 14 = Some 10
  /\ (n_erased <$> heap st !! 6) = Some true
  /\ (n_erased <$> heap st !! 10) = Some true.
Proof.
  vm_compute. repeat split; try reflexivity.
  all: intros H; repeat (apply elem_of_cons in H as [H|H]; [discriminate|]);
    by apply elem_of_nil in H.
Qed.

(** * Further properties *)

(** ** The dispatcher: edges of [setup], [forward] and [_run] *)

Section DispatcherEdges.

Variable call_gm : Gm -> list PyVal -> list (string * PyVal) -> Res PyVal.

(** X1.  With no boundary value synthesized, a call hands positional
    and keyword arguments to the selected graph module unchanged and
    returns its result as it is (for a result that supports [len]); the
    retained tuple is not touched and only the call counter moves. *)
Theorem forward_passes_through (args : list PyVal) (kwargs : list (string * PyVal))
    (d : IterGraphModule) (out : PyVal) (n : nat) :
  num_extra_output (graph d) = 0 ->
  call_gm (select_gm (tick d)) args kwargs = Ok out ->
  py_len out = Ok n ->
  forward call_gm args kwargs d = (Ok out, tick d).
Proof.
  intros Hk Hcall Hlen. unfold forward, _run. simpl. rewrite Hk. simpl.
  simpl in Hcall. rewrite Hcall. by eapply debug_and_return_ok.
Qed.

(** X2.  Every call counts, whatever happens to it: [forward] advances
    the call counter by exactly one and leaves the bound and the engine
    alone, also when the graph module or one of the assertions of [_run]
    raises; a failed call is therefore never repeated on the same
    graph module.  An exception of the graph module is the exception of
    the call, for a call without keyword arguments and for any call made
    while no boundary value is threaded. *)
Theorem forward_always_counts (args : list PyVal) (kwargs : list (string * PyVal))
    (d : IterGraphModule) :
  _iter (snd (forward call_gm args kwargs d)) = (_iter d + 1)%Z
  /\ _max_iters (snd (forward call_gm args kwargs d)) = _max_iters d
  /\ graph (snd (forward call_gm args kwargs d)) = graph d
  /\ (forall e,
        kwargs = [] ->
        call_gm (select_gm (tick d))
          (if 0 <? num_extra_output (graph d) then args ++ _previous_output d else args)
          [] = Raise e ->
        forward call_gm args kwargs d = (Raise e, tick d))
  /\ (forall e,
        kwargs = [] \/ num_extra_output (graph d) = 0 ->
        call_gm (select_gm (tick d)) (passed_args args d) kwargs = Raise e ->
        forward call_gm args kwargs d = (Raise e, tick d)).
Proof.
  destruct (run_counters call_gm (select_gm (tick d)) args kwargs (tick d)) as (Hi & Hm & Hg).
  split; [|split; [|split; [|split]]].
  - unfold forward. by rewrite Hi.
  - unfold forward. by rewrite Hm.
  - unfold forward. by rewrite Hg.
  - intros e -> He. unfold forward, _run. simpl in *.
    destruct (0 <? num_extra_output (graph d)); by rewrite He.
  - intros e Hk He. by apply (forward_executes call_gm args kwargs d Hk).
Qed.

(** X3.  With boundary values threaded, a call is refused with
    [AssertionError] when it carries keyword arguments (before the graph
    module is called) and, while the counter is below the bound, when
    the graph module returns something that is not a tuple or a tuple no
    longer than the count; in each case the retained tuple stays as it
    was. *)
Theorem run_refusals_keep_retained (args : list PyVal) (kwargs : list (string * PyVal))
    (d : IterGraphModule) :
  0 < num_extra_output (graph d) ->
  (kwargs <> [] -> forward call_gm args kwargs d = (Raise AssertionError, tick d))
  /\ (forall len id,
        (_iter (tick d) < _max_iters (tick d))%Z ->
        call_gm (select_gm (tick d)) (args ++ _previous_output d) [] = Ok (VObj len id) ->
        forward call_gm args [] d = (Raise AssertionError, tick d))
  /\ (forall l,
        (_iter (tick d) < _max_iters (tick d))%Z ->
        call_gm (select_gm (tick d)) (args ++ _previous_output d) [] = Ok (VTuple l) ->
        length l <= num_extra_output (graph d) ->
        forward call_gm args [] d = (Raise AssertionError, tick d)).
Proof.
  intros Hk. unfold forward, _run. simpl.
  destruct (0 <? num_extra_output (graph d)) eqn:Ek; [|apply Nat.ltb_ge in Ek; lia].
  split; [|split].
  - intros Hkw. by destruct kwargs.
  - intros len id Hlt Hcall. simpl in Hcall. rewrite Hcall.
    destruct (_ <? _)%Z eqn:E; [done|lia].
  - intros l Hlt Hcall Hlen. simpl in Hcall. rewrite Hcall.
    destruct (_ <? _)%Z eqn:E; [|lia].
    destruct (num_extra_output (graph d) <? length l) eqn:El; [|done].
    apply Nat.ltb_lt in El. lia.
Qed.

(** X4.  Past the bound the dispatcher does not stop: after [setup(N)],
    every call numbered above [N] runs the main (steady) graph module:
    it is routed to it and executes it (the module is called on the
    arguments passed and its exception or result is that of the call),
    unless the call carries keyword arguments while boundary values are
    threaded. *)
Theorem calls_past_bound_run_steady (d d0 : IterGraphModule) (N : Z)
    (before : list (list PyVal * list (string * PyVal)))
    (args : list PyVal) (kwargs : list (string * PyVal)) :
  setup N d = (Ok tt, d0) ->
  (N < Z.of_nat (length before) + 1)%Z ->
  forward call_gm args kwargs (after_calls call_gm before d0)
  = _run call_gm main_gm args kwargs (tick (after_calls call_gm before d0))
  /\ (kwargs = [] \/ num_extra_output (graph (after_calls call_gm before d0)) = 0 ->
      executes call_gm main_gm args kwargs (after_calls call_gm before d0)).
Proof.
  intros Hsetup Hi.
  destruct (setup_ok _ _ _ Hsetup) as (HN & Hi0 & Hm0).
  destruct (after_calls_counters call_gm before d0) as [Hib Hmb].
  assert (Hsel : select_gm (tick (after_calls call_gm before d0)) = main_gm).
  { unfold select_gm. simpl. rewrite Hib, Hmb, Hi0, Hm0.
    destruct (_ =? 1)%Z eqn:E1; [lia|]. destruct (_ =? N)%Z eqn:E2; [lia|]. done. }
  split.
  - unfold forward. by rewrite Hsel.
  - intros Hk. rewrite <- Hsel. by apply forward_executes.
Qed.

(** X5.  [setup] refuses a bound that is not positive with [ValueError]
    and changes nothing; with a positive bound it restarts the counter
    whatever calls went before, so that the next call runs the setup
    graph module again (it is routed to it and executes it), but it
    keeps the tuple retained from the last call, which that next call
    still passes on. *)
Theorem setup_restarts_routing (d : IterGraphModule) (N : Z)
    (args : list PyVal) (kwargs : list (string * PyVal)) :
  ((N <= 0)%Z -> setup N d = (Raise ValueError, d))
  /\ ((0 < N)%Z ->
      fst (setup N d) = Ok tt
      /\ _previous_output (snd (setup N d)) = _previous_output d
      /\ forward call_gm args kwargs (snd (setup N d))
         = _run call_gm setup_gm args kwargs
             (mkIterGraphModule (graph d) 1 N (_previous_output d))
      /\ (kwargs = [] \/ num_extra_output (graph d) = 0 ->
          executes call_gm setup_gm args kwargs (snd (setup N d)))).
Proof.
  split; intros HN.
  - unfold setup. destruct (N <=? 0)%Z eqn:E; [done|lia].
  - assert (Hs : setup N d
                 = (Ok tt, mkIterGraphModule (graph d) 0 N (_previous_output d))).
    { unfold setup. destruct (N <=? 0)%Z eqn:E; [lia|]. done. }
    rewrite Hs. simpl. split; [done|]. split; [done|]. split; [done|].
    intros Hk.
    by apply (forward_executes call_gm args kwargs
                (mkIterGraphModule (graph d) 0 N (_previous_output d))).
Qed.

End DispatcherEdges.

(** X1, witness: the sample engine has no boundary value. *)
Lemma forward_passes_through_witness :
  forward Sample.pair_gm [VObj None 7] [("k"%string, VObj None 8)]
    (new_module Sample.engine)
  = (Ok (VTuple [VObj (Some 1) 1; VObj (Some 1) 2]), tick (new_module Sample.engine)).
Proof.
  apply (forward_passes_through Sample.pair_gm _ _ _ _ 2); reflexivity.
Defined.

(** X3, witness: keyword arguments after a move. *)
Lemma run_refusals_keep_retained_witness :
  0 < num_extra_output (graph (new_module Sample.moved))
  /\ forward Sample.pair_gm [] [("k"%string, VObj None 8)] (new_module Sample.moved)
     = (Raise AssertionError, tick (new_module Sample.moved)).
Proof.
  assert (H : 0 < num_extra_output (graph (new_module Sample.moved)))
    by (vm_compute; lia).
  split; [exact H|].
  destruct (run_refusals_keep_retained Sample.pair_gm []
              [("k"%string, VObj None 8)] (new_module Sample.moved) H) as [Hkw _].
  apply Hkw. clear. discriminate.
Defined.

(** X4, witness: the third call under a bound of 2. *)
Lemma calls_past_bound_run_steady_witness :
  let d := new_module Sample.engine in
  let c : list PyVal * list (string * PyVal) := ([], []) in
  setup 2 d = (Ok tt, snd (setup 2 d))
  /\ forward Sample.pair_gm [] [] (after_calls Sample.pair_gm [c; c] (snd (setup 2 d)))
     = _run Sample.pair_gm main_gm [] []
         (tick (after_calls Sample.pair_gm [c; c] (snd (setup 2 d)))).
Proof.
  intros d c. split; [reflexivity|].
  refine (proj1 (calls_past_bound_run_steady Sample.pair_gm d _ 2 [c; c] [] [] _ _)); [reflexivity|].
  simpl. lia.
Defined.

(** ** What the methods of the engine leave alone *)

Lemma keeps_proj {X Y A} (f : IterGraph -> X) (h : X -> Y) (m : M A) :
  keeps f m -> keeps (fun st => h (f st)) m.
Proof. intros H st. by rewrite H. Qed.

Ltac keeps_step :=
  first
    [ apply keeps_ret | apply keeps_raise | apply keeps_get | apply keeps_lookup
    | apply keeps_is_frozen | apply keeps_assert | apply keeps_deref
    | apply keeps_deref_opt
    | apply keeps_control_create | apply keeps_control_placeholder
    | apply keeps_control_erase | apply keeps_control_prepend
    | apply keeps_control_users_setdefault | apply keeps_control_users_pop
    | apply keeps_control_update_args_kwargs | apply keeps_control_log
    | apply keeps_control_set_nodes
    | apply keeps_forM; intros ?
    | apply keeps_mapM; intros ?
    | apply keeps_bind; [|intros ?]
    | match goal with |- keeps _ (match ?x with _ => _ end) => destruct x end ].

Lemma keeps_control_append a x : keeps control (fx_node_append a x).
Proof. unfold fx_node_append. repeat keeps_step. Qed.

Lemma keeps_control_update_arg n idx arg : keeps control (fx_update_arg n idx arg).
Proof. unfold fx_update_arg. repeat keeps_step. Qed.

Lemma keeps_control_move_after_loop ns : forall t, keeps control (move_after_loop ns t).
Proof.
  induction ns as [|n ns IH]; intros t; simpl; [apply keeps_ret|].
  destruct t as [t|]; [|apply keeps_raise].
  apply keeps_bind; [|intros _; apply IH].
  destruct n; simpl; [apply keeps_control_append | apply keeps_raise].
Qed.

Ltac keeps_control_tac :=
  repeat first
    [ apply keeps_control_append | apply keeps_control_update_arg
    | apply keeps_control_move_after_loop | keeps_step ].

Lemma keeps_control_erase_node n : keeps control (erase_node n).
Proof. unfold erase_node. keeps_control_tac. Qed.

Lemma keeps_control_output result ty : keeps control (output result ty).
Proof. unfold output, fx_output. keeps_control_tac. Qed.

Lemma keeps_control_node_prepend t n : keeps control (node_prepend t n).
Proof. unfold node_prepend. keeps_control_tac. Qed.

Lemma keeps_control_node_append t n : keeps control (node_append t n).
Proof. unfold node_append. keeps_control_tac. Qed.

Lemma keeps_control_node_update_arg n idx arg : keeps control (node_update_arg n idx arg).
Proof. unfold node_update_arg. keeps_control_tac. Qed.

Lemma keeps_control_move_before ns t : keeps control (move_before ns t).
Proof. unfold move_before, fx_node_prepend_opt. keeps_control_tac. Qed.

Lemma keeps_control_move_after ns t : keeps control (move_after ns t).
Proof. unfold move_after. keeps_control_tac. Qed.

Lemma keeps_control_node_add_user n u : keeps control (node_add_user n u).
Proof. unfold node_add_user. keeps_control_tac. Qed.

Lemma keeps_control_node_remove_user n u : keeps control (node_remove_user n u).
Proof. unfold node_remove_user. keeps_control_tac. Qed.

Lemma keeps_control_keep_unused_nodes : keeps control keep_unused_nodes.
Proof.
  unfold keep_unused_nodes.
  apply keeps_bind; [apply keeps_get|]. intros st0. apply keeps_forM. intros node.
  apply keeps_bind; [apply keeps_deref|]. intros nd.
  destruct (_ && _); [apply keeps_control_node_add_user | apply keeps_ret].
Qed.

Lemma keeps_switches_of_control {A} (m : M A) : keeps control m -> keeps switches m.
Proof.
  intros H.
  apply (keeps_proj control (fun c => match c with (_, _, fr, bc, ne) => (fr, bc, ne) end) m H).
Qed.

Lemma keeps_maps_of_control {A} (m : M A) : keeps control m -> keeps maps m.
Proof.
  intros H.
  apply (keeps_proj control (fun c => match c with (sm, cm, _, _, _) => (sm, cm) end) m H).
Qed.

Lemma keeps_freeze_of_switches {A} (m : M A) :
  keeps switches m -> keeps _freeze_cross_iter_movement m.
Proof.
  intros H.
  apply (keeps_proj switches (fun c => match c with (fr, _, _) => fr end) m H).
Qed.

Lemma keeps_switches_record_mapping m s c : keeps switches (record_mapping m s c).
Proof. done. Qed.

Lemma keeps_switches_call_function f args kwargs ty :
  keeps switches (call_function f args kwargs ty).
Proof.
  unfold call_function. apply keeps_bind; [apply keeps_is_frozen|]. intros [|].
  - apply keeps_switches_of_control, keeps_control_create.
  - apply keeps_bind; [apply keeps_get|]. intros st0.
    apply keeps_bind; [apply keeps_switches_of_control, keeps_control_create|]. intros sn.
    apply keeps_bind; [apply keeps_switches_of_control, keeps_control_create|]. intros mn.
    apply keeps_bind; [apply keeps_switches_of_control, keeps_control_create|]. intros cn.
    apply keeps_bind; [apply keeps_switches_record_mapping|]. intros. apply keeps_ret.
Qed.

Lemma keeps_switches_placeholder name ty dv : keeps switches (placeholder name ty dv).
Proof.
  unfold placeholder. apply keeps_bind; [apply keeps_is_frozen|]. intros [|].
  - apply keeps_bind; [apply keeps_switches_of_control, keeps_control_placeholder|].
    intros. apply keeps_ret.
  - apply keeps_bind; [apply keeps_switches_of_control, keeps_control_placeholder|]. intros mn.
    apply keeps_bind; [apply keeps_switches_of_control, keeps_control_placeholder|]. intros sn.
    apply keeps_bind; [apply keeps_switches_of_control, keeps_control_placeholder|]. intros cn.
    apply keeps_bind; [apply keeps_switches_record_mapping|]. intros. apply keeps_ret.
Qed.

Lemma keeps_control_is_connect subgraph output :
  keeps control (_is_connect_to_output subgraph output).
Proof.
  intros st. pose proof (is_connect_loop_reads subgraph subgraph output st) as H.
  simpl in H. unfold _is_connect_to_output. by rewrite H.
Qed.

Lemma keeps_control_move_setup_part subgraph : keeps control (move_setup_part subgraph).
Proof.
  unfold move_setup_part. apply keeps_bind; [apply keeps_get|]. intros st0.
  apply keeps_control_forward_subgraph_inputs.
Qed.

(** The move keeps the maps and the flag; only its counters change. *)
Lemma keeps_move_to_next_iter_before subgraph target :
  keeps (fun st => (maps st, _freeze_cross_iter_movement st))
    (move_to_next_iter_before subgraph target).
Proof.
  assert (Hc : forall A (m : M A), keeps control m ->
                 keeps (fun st => (maps st, _freeze_cross_iter_movement st)) m).
  { intros A m H.
    apply (keeps_proj control
             (fun c => match c with (sm, cm, fr, _, _) => ((sm, cm), fr) end) m H). }
  unfold move_to_next_iter_before.
  apply keeps_bind; [apply keeps_is_frozen|]. intros [|]; [apply keeps_raise|].
  apply keeps_bind; [apply keeps_get|]. intros st0.
  apply keeps_bind; [apply Hc, keeps_control_is_connect|]. intros [|]; [|apply keeps_raise].
  simpl.
  apply keeps_bind; [by apply keeps_modify|]. intros _.
  apply keeps_bind; [apply Hc, keeps_control_move_setup_part|]. intros k.
  apply keeps_bind; [apply Hc, keeps_control_move_cleanup_part|]. intros _.
  apply keeps_bind; [apply Hc, keeps_control_forward_subgraph_inputs|]. intros k'.
  apply keeps_bind; [apply keeps_assert|]. intros _.
  apply keeps_bind.
  { apply Hc, keeps_forM. intros x. apply keeps_control_prepend. }
  intros _.
  apply keeps_bind; [apply Hc, keeps_control_forward_inputs_to_subgraph|]. intros _.
  apply keeps_bind; [apply Hc, keeps_control_hold_unused|]. intros _.
  apply keeps_bind; [apply Hc, keeps_control_hold_unused|]. intros _.
  by apply keeps_modify.
Qed.

(** Every call but a creation, the move and the freeze keeps all of
    [control]. *)
Lemma keeps_control_call c :
  is_creation c = false -> is_move_to_next_iter c = false -> is_freeze c = false ->
  keeps control (call c).
Proof.
  destruct c; simpl; try discriminate; intros _ _ _.
  - apply keeps_control_erase_node.
  - apply keeps_bind; [apply keeps_control_output | intros; apply keeps_ret].
  - apply keeps_control_node_prepend.
  - apply keeps_control_node_append.
  - apply keeps_control_node_update_arg.
  - apply keeps_control_move_before.
  - apply keeps_control_move_after.
  - apply keeps_control_node_add_user.
  - apply keeps_control_node_remove_user.
  - apply keeps_control_keep_unused_nodes.
Qed.

Lemma keeps_switches_creation c : is_creation c = true -> keeps switches (call c).
Proof.
  destruct c; simpl; try discriminate; intros _.
  - apply keeps_bind; [apply keeps_switches_call_function | intros; apply keeps_ret].
  - apply keeps_bind; [apply keeps_switches_placeholder | intros; apply keeps_ret].
Qed.

Lemma call_keeps_freeze c :
  is_freeze c = false -> keeps _freeze_cross_iter_movement (call c).
Proof.
  intros Hf. destruct (is_creation c) eqn:Ec.
  { by apply keeps_freeze_of_switches, keeps_switches_creation. }
  destruct (is_move_to_next_iter c) eqn:Em.
  { destruct c; try discriminate. simpl.
    apply (keeps_proj _ snd _ (keeps_move_to_next_iter_before subgraph target_node)). }
  by apply keeps_freeze_of_switches, keeps_switches_of_control, keeps_control_call.
Qed.

Lemma calls_leave_alone_maps c st :
  is_creation c = false ->
  _setup_mapping (snd (call c st)) = _setup_mapping st
  /\ _cleanup_mapping (snd (call c st)) = _cleanup_mapping st.
Proof.
  intros Hc.
  assert (H : maps (snd (call c st)) = maps st).
  { destruct (is_move_to_next_iter c) eqn:Em.
    { destruct c; try discriminate. simpl.
      apply (keeps_proj _ fst _ (keeps_move_to_next_iter_before subgraph target_node)). }
    destruct (is_freeze c) eqn:Ef; [by destruct c|].
    by apply keeps_maps_of_control, keeps_control_call. }
  unfold maps in H. by injection H.
Qed.

(** X6.  What the editing methods never touch: none but
    [freeze_cross_iter_movement] changes the freeze flag, none but
    [move_to_next_iter_before] changes the block counter or
    [num_extra_output], and none but [call_function] and [placeholder]
    changes a correspondence map, whether the call returns or
    raises. *)
Theorem calls_leave_alone (c : Call) (st : IterGraph) :
  (is_freeze c = false ->
   _freeze_cross_iter_movement (snd (call c st)) = _freeze_cross_iter_movement st)
  /\ (is_move_to_next_iter c = false ->
      _cross_iter_block_count (snd (call c st)) = _cross_iter_block_count st
      /\ num_extra_output (snd (call c st)) = num_extra_output st)
  /\ (is_creation c = false ->
      _setup_mapping (snd (call c st)) = _setup_mapping st
      /\ _cleanup_mapping (snd (call c st)) = _cleanup_mapping st).
Proof.
  split; [|split].
  - intros Hf. by apply call_keeps_freeze.
  - intros Hm.
    destruct (is_freeze c) eqn:Ef; [by destruct c|].
    assert (H : switches (snd (call c st)) = switches st).
    { destruct (is_creation c) eqn:Ec; [by apply keeps_switches_creation|].
      by apply keeps_switches_of_control, keeps_control_call. }
    unfold switches in H. by injection H.
  - apply calls_leave_alone_maps.
Qed.

Lemma calls_keep_frozen cs : forall st,
  _freeze_cross_iter_movement st = true ->
  _freeze_cross_iter_movement (calls cs st) = true.
Proof.
  induction cs as [|c cs IH]; intros st Hfr; simpl; [done|].
  apply IH. destruct (is_freeze c) eqn:Ef.
  - by destruct c.
  - by rewrite call_keeps_freeze.
Qed.

(** X7.  Freezing is permanent: after any further calls of the editing
    methods, returning or raising, a frozen engine is still frozen, and
    [move_to_next_iter_before] is refused on it with [RuntimeError]
    without changing anything. *)
Theorem freeze_is_permanent (cs : list Call) (st : IterGraph)
    (subgraph : list nat) (target_node : nat) :
  let frozen := calls cs (snd (freeze_cross_iter_movement st)) in
  _freeze_cross_iter_movement frozen = true
  /\ move_to_next_iter_before subgraph target_node frozen = (Raise RuntimeError, frozen).
Proof.
  intros frozen.
  assert (H : _freeze_cross_iter_movement frozen = true) by by apply calls_keep_frozen.
  split; [done|].
  unfold move_to_next_iter_before, bind, is_frozen, get, ret. simpl. by rewrite H.
Qed.

(** ** The two maps have the same keys *)

Lemma bind_split {A B} (m : M A) (k : A -> M B) st :
  (exists e s1, m st = (Raise e, s1) /\ bind m k st = (Raise e, s1))
  \/ (exists a s1, m st = (Ok a, s1) /\ bind m k st = k a s1).
Proof.
  unfold bind. destruct (m st) as [[a|e] s1]; [right|left]; eauto.
Qed.

Lemma three_creations_maps {A} (c1 c2 c3 : M nat) (fin : nat -> nat -> nat -> M A) st :
  keeps maps c1 -> keeps maps c2 -> keeps maps c3 ->
  (forall n1 n2 n3 s, maps_grown (maps s) (maps (snd (fin n1 n2 n3 s)))) ->
  maps_grown (maps st)
    (maps (snd ((n1 <- c1 ;; n2 <- c2 ;; n3 <- c3 ;; fin n1 n2 n3) st))).
Proof.
  intros K1 K2 K3 Hfin.
  destruct (bind_split c1 (fun n1 => n2 <- c2 ;; n3 <- c3 ;; fin n1 n2 n3) st)
    as [(e & s1 & E1 & ->)|(n1 & s1 & E1 & ->)];
    pose proof (keeps_run maps _ _ _ _ K1 E1) as <-; [by left|].
  destruct (bind_split c2 (fun n2 => n3 <- c3 ;; fin n1 n2 n3) s1)
    as [(e & s2 & E2 & ->)|(n2 & s2 & E2 & ->)];
    pose proof (keeps_run maps _ _ _ _ K2 E2) as <-; [by left|].
  destruct (bind_split c3 (fun n3 => fin n1 n2 n3) s2)
    as [(e & s3 & E3 & ->)|(n3 & s3 & E3 & ->)];
    pose proof (keeps_run maps _ _ _ _ K3 E3) as <-; [by left|].
  apply Hfin.
Qed.

Lemma record_mapping_grown {A} m s c (a : A) st :
  maps_grown (maps st) (maps (snd ((record_mapping m s c >> ret a) st))).
Proof. right. by exists m, s, c. Qed.

Lemma bind_is_frozen {A} (k : bool -> M A) st :
  bind is_frozen k st = k (_freeze_cross_iter_movement st) st.
Proof. reflexivity. Qed.

Lemma bind_get {A} (k : IterGraph -> M A) st : bind get k st = k st st.
Proof. reflexivity. Qed.

Lemma snd_then_ret {A B} (m : M A) (b : B) st :
  snd ((m >> ret b) st) = snd (m st).
Proof. unfold bind. by destruct (m st) as [[a|e] s1]. Qed.

Lemma snd_then_ret_any {A B} (m : M A) (h : A -> B) st :
  snd ((x <- m ;; ret (h x)) st) = snd (m st).
Proof. unfold bind. by destruct (m st) as [[a|e] s1]. Qed.

Lemma creation_maps_grown c st :
  is_creation c = true -> maps_grown (maps st) (maps (snd (call c st))).
Proof.
  assert (Kc : forall g op t a k ty, keeps maps (fx_create_node g op t a k ty)).
  { intros. apply keeps_maps_of_control, keeps_control_create. }
  assert (Kp : forall g n ty dv, keeps maps (fx_placeholder g n ty dv)).
  { intros. apply keeps_maps_of_control, keeps_control_placeholder. }
  destruct c; simpl; try discriminate; intros _; rewrite snd_then_ret.
  - unfold call_function. rewrite bind_is_frozen.
    destruct (_freeze_cross_iter_movement st).
    + left. apply Kc.
    + rewrite bind_get.
      apply (three_creations_maps _ _ _
               (fun n1 n2 n3 => record_mapping n2 n1 n3 >> ret n2)); try apply Kc.
      intros n1 n2 n3 s. apply record_mapping_grown.
  - unfold placeholder. rewrite bind_is_frozen.
    destruct (_freeze_cross_iter_movement st).
    + left. rewrite snd_then_ret_any. apply Kp.
    + apply (three_creations_maps _ _ _
               (fun n1 n2 n3 => record_mapping n1 n2 n3 >> ret None)); try apply Kp.
      intros n1 n2 n3 s. apply record_mapping_grown.
Qed.

Lemma same_keys_grown (mp mp' : gmap nat nat * gmap nat nat) :
  maps_grown mp mp' -> dom (fst mp) = dom (snd mp) -> dom (fst mp') = dom (snd mp').
Proof.
  intros [->|(m & s & c & ->)] H; [done|]. simpl. by rewrite !dom_insert_L, H.
Qed.

Lemma call_same_keys c st :
  dom (_setup_mapping st) = dom (_cleanup_mapping st) ->
  dom (_setup_mapping (snd (call c st))) = dom (_cleanup_mapping (snd (call c st))).
Proof.
  intros H. destruct (is_creation c) eqn:Ec.
  - apply (same_keys_grown (maps st) (maps (snd (call c st)))); [|done].
    by apply creation_maps_grown.
  - destruct (calls_leave_alone_maps c st Ec) as [-> ->]. done.
Qed.

Lemma pair_up_same_keys : forall ms ss cs (sm cm : gmap nat nat),
  dom sm = dom cm ->
  dom (fst (pair_up ms ss cs sm cm)) = dom (snd (pair_up ms ss cs sm cm)).
Proof.
  induction ms as [|m ms IH]; intros [|s ss] [|c cs] sm cm H; simpl; try done.
  apply IH. by rewrite !dom_insert_L, H.
Qed.

Lemma init_same_keys store orig setup_nodes cleanup_nodes st0 :
  __init__ store orig setup_nodes cleanup_nodes = (Ok tt, st0) ->
  dom (_setup_mapping st0) = dom (_cleanup_mapping st0).
Proof.
  unfold __init__. intros H.
  apply bind_ok in H as (ov & s1 & _ & H).
  destruct ov as [[output_val old]|]; [|discriminate].
  apply bind_ok in H as (od & s1' & _ & H).
  apply bind_ok in H as (out & s2 & _ & H).
  injection H as <-.
  pose proof (pair_up_same_keys (nodes MainG s2) (nodes SetupG s2) (nodes CleanupG s2)
                ∅ ∅ eq_refl) as Hd.
  destruct (pair_up _ _ _ ∅ ∅) as [sm cm]. exact Hd.
Qed.

Lemma calls_same_keys cs : forall st,
  dom (_setup_mapping st) = dom (_cleanup_mapping st) ->
  dom (_setup_mapping (calls cs st)) = dom (_cleanup_mapping (calls cs st)).
Proof.
  induction cs as [|c cs IH]; intros st H; simpl; [done|].
  by apply IH, call_same_keys.
Qed.

(** X8.  Counterparts come in pairs: on an engine built by
    [IterGraph.__init__] and edited by any calls of its methods,
    returning or raising, a node has a counterpart recorded in the
    setup graph exactly when it has one recorded in the cleanup
    graph. *)
Theorem counterparts_come_in_pairs (store : list Node)
    (orig setup_nodes cleanup_nodes : list nat) (st0 : IterGraph)
    (cs : list Call) (n : nat) :
  __init__ store orig setup_nodes cleanup_nodes = (Ok tt, st0) ->
  is_Some (_lookup_node n SetupG (calls cs st0))
  <-> is_Some (_lookup_node n CleanupG (calls cs st0)).
Proof.
  intros Hinit.
  pose proof (calls_same_keys cs st0 (init_same_keys _ _ _ _ _ Hinit)) as H.
  simpl. rewrite <- !elem_of_dom, H. done.
Qed.

(** X8, witness: the sample engine after an erasure, an output and a
    creation. *)
Lemma counterparts_come_in_pairs_witness :
  let cs := [CallEraseNode 14; CallOutput (ANode 13) None;
             CallFunction (TCallable 2) [ANode 12] [] None] in
  __init__ Sample.store [0; 1; 2; 3] [4; 5; 6; 7] [8; 9; 10; 11] = (Ok tt, Sample.engine)
  /\ (is_Some (_lookup_node 19 SetupG (calls cs Sample.engine))
      <-> is_Some (_lookup_node 19 CleanupG (calls cs Sample.engine))).
Proof.
  intros cs.
  assert (Hinit : __init__ Sample.store [0; 1; 2; 3] [4; 5; 6; 7] [8; 9; 10; 11]
                  = (Ok tt, Sample.engine)) by (vm_compute; reflexivity).
  split; [exact Hinit|].
  exact (counterparts_come_in_pairs _ _ _ _ _ cs 19 Hinit).
Defined.

(** ** Mirrored creation *)

Lemma fx_create_node_lookups g op t a k ty st n st' :
  fx_create_node g op t a k ty st = (Ok n, st') ->
  n = length (heap st)
  /\ length (heap st') = S (length (heap st))
  /\ (forall i nd, heap st !! i = Some nd ->
        exists nd', heap st' !! i = Some nd' /\ set_users [] nd' = set_users [] nd)
  /\ (exists nd', heap st' !! n = Some nd'
                  /\ set_users [] nd' = mkNode g op t a k ty [] false)
  /\ (g <> OrigG -> n ∈ nodes g st')
  /\ (forall g' x, x ∈ nodes g' st -> x ∈ nodes g' st')
  /\ control st' = control st.
Proof.
  intros H.
  destruct (fx_create_node_skeleton _ _ _ _ _ _ _ _ _ H) as [[Hn Hsk]|[[e He] _]];
    [|discriminate].
  injection Hn as ->.
  destruct (same_skeleton_fields _ _ Hsk) as (_ & _ & _ & _ & _ & _ & _ & Hlen).
  split; [done|]. split; [|split; [|split; [|split; [|split]]]].
  - rewrite Hlen. unfold sk_create. simpl. rewrite length_app. simpl. lia.
  - intros i nd Hi. eapply same_skeleton_lookup; [exact Hsk|].
    unfold sk_create. simpl. rewrite lookup_app_l; [done|by eapply lookup_lt_Some].
  - destruct (same_skeleton_lookup _ _ _ _ Hsk (sk_create_new_node g op t a k ty st))
      as (nd' & Hnd' & Heq).
    exists nd'. split; [done|]. by rewrite Heq.
  - intros Hg. rewrite (same_skeleton_nodes _ _ g Hsk), sk_create_nodes by done.
    apply elem_of_link. by left.
  - intros g' x Hx. rewrite (same_skeleton_nodes _ _ g' Hsk).
    destruct (decide (g' = g)) as [->|Hne].
    + destruct (decide (g = OrigG)) as [->|Hg]; [done|].
      rewrite sk_create_nodes by done. apply elem_of_link. by right.
    + destruct g, g'; done.
  - rewrite (control_same_skeleton _ _ Hsk). reflexivity.
Qed.

(** X9.  A mirrored [call_function] that returns has made three new
    node objects, linked one in each graph and recorded as counterparts
    of the node returned; the steady node carries the arguments as
    given, and each satellite node carries them translated through the
    map as it was before the call, an argument node without a
    counterpart having become [None] (the call does not refuse it). *)
Theorem mirrored_call_function_translates (f : Target) (args : list Argument)
    (kwargs : list (string * Argument)) (ty : option string)
    (st : IterGraph) (n : nat) (st' : IterGraph) :
  _freeze_cross_iter_movement st = false ->
  call_function f args kwargs ty st = (Ok n, st') ->
  exists s c nd_s nd_m nd_c,
    heap st !! s = None /\ heap st !! n = None /\ heap st !! c = None
    /\ s <> n /\ n <> c /\ s <> c
    /\ _lookup_node n SetupG st' = Some s
    /\ _lookup_node n CleanupG st' = Some c
    /\ s ∈ nodes SetupG st' /\ n ∈ nodes MainG st' /\ c ∈ nodes CleanupG st'
    /\ heap st' !! s = Some nd_s /\ heap st' !! n = Some nd_m /\ heap st' !! c = Some nd_c
    /\ set_users [] nd_s
       = mkNode SetupG call_function_op f
           (map (tree_map (lookup_arg SetupG st)) args)
           (map_kwargs (lookup_arg SetupG st) kwargs) ty [] false
    /\ set_users [] nd_m = mkNode MainG call_function_op f args kwargs ty [] false
    /\ set_users [] nd_c
       = mkNode CleanupG call_function_op f
           (map (tree_map (lookup_arg CleanupG st)) args)
           (map_kwargs (lookup_arg CleanupG st) kwargs) ty [] false
    /\ (forall x, _lookup_node x SetupG st = None ->
          lookup_arg SetupG st (ANode x) = ANone).
Proof.
  intros Hfr H. unfold call_function in H.
  rewrite bind_is_frozen, Hfr, bind_get in H.
  apply bind_ok in H as (sn & s1 & H1 & H).
  apply fx_create_node_lookups in H1
    as (-> & L1 & Old1 & (nd1 & N1 & E1) & In1 & Mono1 & C1).
  apply bind_ok in H as (mn & s2 & H2 & H).
  apply fx_create_node_lookups in H2
    as (-> & L2 & Old2 & (nd2 & N2 & E2) & In2 & Mono2 & C2).
  apply bind_ok in H as (cn & s3 & H3 & H).
  apply fx_create_node_lookups in H3
    as (-> & L3 & Old3 & (nd3 & N3 & E3) & In3 & Mono3 & C3).
  apply bind_ok in H as ([] & s4 & H4 & H). injection H as <- <-. injection H4 as <-.
  destruct (Old2 _ _ N1) as (nd1' & N1' & E1').
  destruct (Old3 _ _ N1') as (nd1'' & N1'' & E1'').
  destruct (Old3 _ _ N2) as (nd2' & N2' & E2').
  exists (length (heap st)), (length (heap s2)), nd1'', nd2', nd3.
  repeat match goal with |- _ /\ _ => split end.
  - apply lookup_ge_None. lia.
  - apply lookup_ge_None. lia.
  - apply lookup_ge_None. lia.
  - lia.
  - lia.
  - lia.
  - simpl. apply lookup_insert_eq.
  - simpl. apply lookup_insert_eq.
  - apply (Mono3 SetupG), (Mono2 SetupG). by apply In1.
  - apply (Mono3 MainG). by apply In2.
  - by apply In3.
  - exact N1''.
  - exact N2'.
  - exact N3.
  - congruence.
  - congruence.
  - exact E3.
  - intros x Hx. unfold lookup_arg. by rewrite Hx.
Qed.

(** X9, witness: creating [h(x, o)] on the sample engine, [o] (3)
    being a node of the traced graph, which has no counterpart. *)
Lemma mirrored_call_function_translates_witness :
  _freeze_cross_iter_movement Sample.engine = false
  /\ exists nd_s,
       heap (snd (call_function (TCallable 2) [ANode 12; ANode 3] [] None Sample.engine))
         !! 16 = Some nd_s
       /\ n_args nd_s = [ANode 4; ANone].
Proof.
  split; [reflexivity|].
  destruct (call_function (TCallable 2) [ANode 12; ANode 3] [] None Sample.engine)
    as [[n|e] st'] eqn:E; [|vm_compute in E; discriminate E].
  destruct (mirrored_call_function_translates (TCallable 2) [ANode 12; ANode 3] [] None
              Sample.engine n st' eq_refl E)
    as (s & c & nd_s & nd_m & nd_c & Hs & _ & _ & _ & _ & _ & Hl & _ & _ & _ & _
        & Hnd & _ & _ & Es & _).
  assert (s = 16) as ->.
  { clear -E Hl. vm_compute in E. injection E as <- <-. vm_compute in Hl. congruence. }
  exists nd_s. split; [exact Hnd|].
  apply (f_equal n_args) in Es. simpl in Es. rewrite Es. clear. vm_compute. reflexivity.
Defined.

(** ** [output] records no counterpart *)

Lemma erase_node_unmapped n st :
  _freeze_cross_iter_movement st = false ->
  _setup_mapping st !! n = None ->
  erase_node n st = (Raise AssertionError, st).
Proof.
  intros Hfr Hn. unfold erase_node. rewrite bind_is_frozen, Hfr.
  unfold bind, lookup, get, ret. simpl. rewrite Hn. reflexivity.
Qed.

(** X10.  A mirrored [output] that returns links a new output node in
    each of the three graphs but records no counterpart for the steady
    one: both maps are as before, the new steady node has no entry, the
    engine is no longer in structural correspondence, and a later
    [erase_node] of that node is refused with [AssertionError]. *)
Theorem output_records_no_counterpart (result : Argument) (ty : option string)
    (st : IterGraph) (n : nat) (st' : IterGraph) :
  in_correspondence st ->
  output result ty st = (Ok n, st') ->
  n ∈ nodes MainG st'
  /\ length (nodes SetupG st') = S (length (nodes SetupG st))
  /\ length (nodes CleanupG st') = S (length (nodes CleanupG st))
  /\ _setup_mapping st' = _setup_mapping st
  /\ _cleanup_mapping st' = _cleanup_mapping st
  /\ _lookup_node n SetupG st' = None
  /\ _lookup_node n CleanupG st' = None
  /\ ~ structural_correspondence st'
  /\ erase_node n st' = (Raise AssertionError, st').
Proof.
  intros (Hwf & _ & _) H. pose proof Hwf as (Hfr & _ & _ & Hbs & Hbc).
  unfold output in H. rewrite bind_is_frozen, Hfr in H.
  apply bind_ok in H as (mn & s1 & H1 & H).
  apply fx_create_node_facts in H1 as (-> & L1 & W1 & P1 & O1 & C1); [|done..].
  rewrite bind_get in H.
  apply bind_ok in H as (sn & s2 & H2 & H).
  apply fx_create_node_facts in H2 as (-> & L2 & W2 & P2 & O2 & C2); [|done..].
  apply bind_ok in H as (cn & s3 & H3 & H).
  apply fx_create_node_facts in H3 as (-> & L3 & W3 & P3 & O3 & C3); [|done..].
  injection H as <- <-.
  destruct (control_fields _ _ C1) as (Hs1 & Hc1 & Hf1).
  destruct (control_fields _ _ C2) as (Hs2 & Hc2 & Hf2).
  destruct (control_fields _ _ C3) as (Hs3 & Hc3 & Hf3).
  assert (Hin : length (heap st) ∈ nodes MainG s3).
  { rewrite (O3 MainG), (O2 MainG), P1 by done. by left. }
  assert (HnS : _setup_mapping s3 !! length (heap st) = None).
  { rewrite Hs3, Hs2, Hs1. destruct (_setup_mapping st !! length (heap st)) eqn:E; [|done].
    apply Hbs in E. lia. }
  assert (HnC : _cleanup_mapping s3 !! length (heap st) = None).
  { rewrite Hc3, Hc2, Hc1. destruct (_cleanup_mapping st !! length (heap st)) eqn:E; [|done].
    apply Hbc in E. lia. }
  split; [done|]. split; [|split; [|split; [|split; [|split; [|split; [|split]]]]]].
  - rewrite (O3 SetupG), P2, (O1 SetupG) by done. done.
  - rewrite P3, (O2 CleanupG), (O1 CleanupG) by done. done.
  - congruence.
  - congruence.
  - exact HnS.
  - exact HnC.
  - intros (Hmap & _). destruct (Hmap _ Hin) as [(s & [Hl _] & _) _].
    simpl in Hl. congruence.
  - apply erase_node_unmapped; [congruence|done].
Qed.

(** X10, witness: rewriting the output of the sample engine. *)
Lemma output_records_no_counterpart_witness :
  in_correspondence Sample.engine
  /\ fst (output (ATuple [ANode 13]) None Sample.engine) = Ok 16
  /\ _lookup_node 16 SetupG (snd (output (ATuple [ANode 13]) None Sample.engine)) = None.
Proof.
  pose proof sample_engine_in_correspondence as Hc.
  split; [exact Hc|].
  destruct (output (ATuple [ANode 13]) None Sample.engine) as [[n|e] st'] eqn:E;
    [|clear Hc; vm_compute in E; discriminate E].
  assert (n = 16) as -> by (clear Hc; vm_compute in E; congruence).
  split; [reflexivity|].
  by destruct (output_records_no_counterpart _ _ _ _ _ Hc E) as (_ & _ & _ & _ & _ & H & _).
Defined.

(** ** A node without a counterpart *)

(** X11.  A node without an entry in the setup map is refused with
    [AssertionError] before anything is edited: by the unfrozen
    [erase_node], [node_prepend], [node_append] and [node_update_arg],
    and, frozen or not, by [node_add_user], [node_remove_user],
    [move_before] (as target) and [move_after] (as target, when there is
    a node to move; with no node to move the target is never looked at
    and the call returns). *)
Theorem missing_counterpart_is_refused (x : nat) (st : IterGraph) :
  _setup_mapping st !! x = None ->
  (_freeze_cross_iter_movement st = false ->
     erase_node x st = (Raise AssertionError, st)
     /\ (forall t, node_prepend t x st = (Raise AssertionError, st))
     /\ (forall t, node_append t x st = (Raise AssertionError, st))
     /\ (forall idx arg, node_update_arg x idx arg st = (Raise AssertionError, st)))
  /\ (forall u, node_add_user x u st = (Raise AssertionError, st))
  /\ (forall u, node_remove_user x u st = (Raise AssertionError, st))
  /\ (forall ns, move_before ns x st = (Raise AssertionError, st))
  /\ (forall n ns, move_after (n :: ns) x st = (Raise AssertionError, st))
  /\ move_after [] x st = (Ok tt, st).
Proof.
  intros Hx. split; [|split; [|split; [|split; [|split]]]].
  - intros Hfr. split; [by apply erase_node_unmapped|]. split; [|split].
    + intros t. unfold node_prepend. rewrite bind_is_frozen, Hfr.
      unfold _all_graphs, forM_, bind, lookup, get, ret. simpl. by rewrite Hx.
    + intros t. unfold node_append. rewrite bind_is_frozen, Hfr.
      unfold _all_graphs, forM_, bind, lookup, get, ret. simpl. by rewrite Hx.
    + intros idx arg. unfold node_update_arg. rewrite bind_is_frozen, Hfr.
      unfold bind, lookup, get, ret. simpl. by rewrite Hx.
  - intros u. unfold node_add_user, _all_graphs, forM_, bind, lookup, get, ret.
    simpl. by rewrite Hx.
  - intros u. unfold node_remove_user, _all_graphs, forM_, bind, lookup, get, ret.
    simpl. by rewrite Hx.
  - intros ns. unfold move_before, _all_graphs, forM_, bind, lookup, get, ret.
    simpl. by rewrite Hx.
  - intros n ns. unfold move_after, _all_graphs, forM_, bind, lookup, get, ret.
    simpl. by rewrite Hx.
  - unfold move_after, _all_graphs, forM_, bind, lookup, get, ret. simpl. done.
Qed.

(** X11, witness: node 3, of the traced graph, on the sample engine. *)
Lemma missing_counterpart_is_refused_witness :
  _setup_mapping Sample.engine !! 3 = None
  /\ erase_node 3 Sample.engine = (Raise AssertionError, Sample.engine)
  /\ move_before [12] 3 Sample.engine = (Raise AssertionError, Sample.engine).
Proof.
  assert (H : _setup_mapping Sample.engine !! 3 = None) by (vm_compute; reflexivity).
  split; [exact H|].
  destruct (missing_counterpart_is_refused 3 Sample.engine H)
    as (Hunfrozen & _ & _ & Hmb & _).
  split; [apply Hunfrozen; reflexivity | apply Hmb].
Defined.

(** ** Frozen creations *)

Lemma keeps_other_nodes_create g g' op t a k ty :
  g' <> g -> keeps (nodes g') (fx_create_node g op t a k ty).
Proof.
  intros Hne st. destruct (fx_create_node g op t a k ty st) as [r st'] eqn:E.
  destruct (fx_create_node_skeleton _ _ _ _ _ _ _ _ _ E) as [[_ H]|[_ H]]; simpl;
    rewrite (same_skeleton_nodes _ _ g' H); destruct g, g'; done.
Qed.

(** X12.  On a frozen engine [call_function] and [placeholder] are the
    [fx] primitives on the steady graph alone: they leave the node
    lists of the setup and cleanup graphs and both maps as they are,
    and the node they return is linked in the steady graph. *)
Theorem frozen_creations_stay_on_steady (st : IterGraph) :
  _freeze_cross_iter_movement st = true ->
  (forall f args kwargs ty,
     let r := call_function f args kwargs ty st in
     nodes SetupG (snd r) = nodes SetupG st
     /\ nodes CleanupG (snd r) = nodes CleanupG st
     /\ maps (snd r) = maps st
     /\ (forall n, fst r = Ok n -> n = length (heap st) /\ n ∈ nodes MainG (snd r)))
  /\ (forall name ty dv,
        let r := placeholder name ty dv st in
        nodes SetupG (snd r) = nodes SetupG st
        /\ nodes CleanupG (snd r) = nodes CleanupG st
        /\ maps (snd r) = maps st
        /\ (forall n, fst r = Ok (Some n) -> n = length (heap st) /\ n ∈ nodes MainG (snd r))).
Proof.
  intros Hfr. split.
  - intros f args kwargs ty r.
    assert (Hr : r = fx_create_node MainG call_function_op f args kwargs ty st).
    { unfold r, call_function. by rewrite bind_is_frozen, Hfr. }
    rewrite Hr. split; [|split; [|split]].
    + by apply keeps_other_nodes_create.
    + by apply keeps_other_nodes_create.
    + apply keeps_maps_of_control, keeps_control_create.
    + intros n Hn. destruct (fx_create_node MainG _ _ _ _ _ st) as [r' st'] eqn:E.
      simpl in Hn. subst r'.
      apply fx_create_node_lookups in E as (-> & _ & _ & _ & Hin & _). by split; [|apply Hin].
  - intros name ty dv r.
    assert (Hr : r = (n <- fx_placeholder MainG (NameStr name) ty dv ;; ret (Some n)) st).
    { unfold r, placeholder. by rewrite bind_is_frozen, Hfr. }
    rewrite Hr. rewrite snd_then_ret_any. split; [|split; [|split]].
    + by apply keeps_other_nodes_create.
    + by apply keeps_other_nodes_create.
    + apply keeps_maps_of_control, keeps_control_placeholder.
    + intros n Hn. unfold bind in *. simpl in *.
      destruct (fx_create_node MainG _ _ _ _ _ st) as [[n'|e] st'] eqn:E; [|discriminate].
      simpl in *. injection Hn as ->.
      apply fx_create_node_lookups in E as (-> & _ & _ & _ & Hin & _). by split; [|apply Hin].
Qed.

(** X12, witness: a frozen [call_function] on the sample engine. *)
Lemma frozen_creations_stay_on_steady_witness :
  let st := snd (freeze_cross_iter_movement Sample.engine) in
  _freeze_cross_iter_movement st = true
  /\ nodes SetupG (snd (call_function (TCallable 2) [ANode 12] [] None st))
     = nodes SetupG st.
Proof.
  intros st. split; [reflexivity|].
  destruct (frozen_creations_stay_on_steady st eq_refl) as [H _].
  apply (H (TCallable 2) [ANode 12] [] None).
Defined.

(** ** Insertion contexts *)

Lemma set_insert_graph_of g ip st g' :
  g' <> g -> graph_of g' (set_insert g ip st) = graph_of g' st.
Proof. intros Hne. destruct g, g'; done. Qed.

Lemma set_insert_point g ip st :
  g <> OrigG -> g_insert (graph_of g (set_insert g ip st)) = ip.
Proof. intros Hne. destruct g; done. Qed.

Lemma nodes_set_insert g ip st g' : nodes g' (set_insert g ip st) = nodes g' st.
Proof. destruct g, g'; done. Qed.

Lemma set_insert_back g ip st :
  set_insert g (g_insert (graph_of g st)) (set_insert g ip st) = st.
Proof. destruct st as [h [] [] [] ? ? ? ? ? ?], g; done. Qed.

Lemma with_insert_run {A} g ip (body : M A) st :
  with_insert g ip body st
  = (fst (body (set_insert g ip st)),
     set_insert g (g_insert (graph_of g st)) (snd (body (set_insert g ip st)))).
Proof. unfold with_insert. by destruct (body _). Qed.

Lemma with_insert_point {A} graph ip (inner : M A) st g :
  (g <> graph -> forall s, g_insert (graph_of g (snd (inner s))) = g_insert (graph_of g s)) ->
  g_insert (graph_of g (snd (with_insert graph ip inner st))) = g_insert (graph_of g st).
Proof.
  intros Hin. rewrite with_insert_run. simpl.
  destruct (decide (g = graph)) as [->|Hne].
  - destruct (decide (graph = OrigG)) as [->|Hg]; [done|]. by apply set_insert_point.
  - rewrite set_insert_graph_of, Hin, set_insert_graph_of by done. done.
Qed.

Lemma enter_point {A} (before : bool) graph n (inner : M A) st g :
  (g <> graph -> forall s, g_insert (graph_of g (snd (inner s))) = g_insert (graph_of g s)) ->
  g_insert (graph_of g
    (snd ((if before then @fx_inserting_before A else @fx_inserting_after A)
            graph n inner st)))
  = g_insert (graph_of g st).
Proof.
  intros Hin.
  destruct before, n as [a|]; simpl; try by apply with_insert_point.
  all: unfold bind, deref; destruct (heap st !! a) as [nd|]; simpl; [|done].
  all: unfold assert_; case_bool_decide; simpl; [|done].
  all: by apply with_insert_point.
Qed.

Lemma insert_context_loop_point {A} before node (body : M A) gs : forall st g,
  g ∈ gs ->
  g_insert (graph_of g (snd (insert_context_loop before node gs body st)))
  = g_insert (graph_of g st).
Proof.
  induction gs as [|graph rest IH]; intros st g Hg; [by apply elem_of_nil in Hg|].
  assert (Hin : g <> graph -> forall s,
            g_insert (graph_of g (snd (insert_context_loop before node rest body s)))
            = g_insert (graph_of g s)).
  { intros Hne s. apply IH. apply elem_of_cons in Hg as [?|?]; done. }
  simpl. destruct node as [n|].
  - unfold bind at 1. simpl. destruct (_lookup_node n graph st) as [a|]; simpl; [|done].
    by apply enter_point.
  - by apply enter_point.
Qed.

Lemma enter_ok {A} (before : bool) g a (inner : M A) st :
  alive st g a ->
  (if before then @fx_inserting_before A else @fx_inserting_after A) g (Some a) inner st
  = with_insert g (if before then Before (Some a) else After (Some a)) inner st.
Proof.
  intros (nd & Hnd & Hg & _).
  destruct before; simpl; unfold bind, deref; rewrite Hnd; simpl;
    unfold assert_; by rewrite bool_decide_eq_true_2.
Qed.

Lemma alive_set_insert g ip st g' n : alive (set_insert g ip st) g' n <-> alive st g' n.
Proof. done. Qed.

Lemma bind_lookup {A} x g (k : option nat -> M A) s :
  (actual_node <- lookup x g ;; k actual_node) s = k (_lookup_node x g s) s.
Proof. done. Qed.

(** With the anchor's counterparts at hand, the body runs on the engine
    whose three insertion points are at the anchor's counterparts, and
    the three points are put back afterwards. *)
Lemma insert_context_run {A} (before : bool) x (body : M A) st sx cx :
  _setup_mapping st !! x = Some sx -> _cleanup_mapping st !! x = Some cx ->
  alive st SetupG sx -> alive st CleanupG cx -> alive st MainG x ->
  let ip a := if before then Before (Some a) else After (Some a) in
  let s_in := set_insert MainG (ip x)
                (set_insert CleanupG (ip cx) (set_insert SetupG (ip sx) st)) in
  _insert_context before (Some x) body st
  = (fst (body s_in),
     set_insert SetupG (g_insert (setup_graph st))
       (set_insert CleanupG (g_insert (cleanup_graph st))
          (set_insert MainG (g_insert (self_graph st)) (snd (body s_in))))).
Proof.
  intros Hsx Hcx Has Hac Ham ip s_in.
  unfold _insert_context, _all_graphs. simpl insert_context_loop.
  rewrite bind_lookup. change (_lookup_node x SetupG st) with (_setup_mapping st !! x).
  rewrite Hsx.
  rewrite enter_ok, with_insert_run by done. fold (ip sx).
  set (s1 := set_insert SetupG (ip sx) st).
  rewrite bind_lookup. change (_lookup_node x CleanupG s1) with (_cleanup_mapping st !! x).
  rewrite Hcx.
  rewrite enter_ok, with_insert_run by done. fold (ip cx).
  set (s2 := set_insert CleanupG (ip cx) s1).
  rewrite bind_lookup. change (_lookup_node x MainG s2) with (Some x). cbv beta iota.
  rewrite enter_ok, with_insert_run by done. fold (ip x).
  done.
Qed.

(** X13.  [inserting_before], [inserting_after] (that is
    [_insert_context]) leave the insertion points of the three graphs
    as they found them, whatever the body does and whether it returns
    or raises; an anchor without a setup counterpart is refused with
    [AssertionError], and when a counterpart is missing in either
    satellite graph the body is not run and the engine is as before. *)
Theorem insert_context_restores {A} (before : bool) (node : option nat)
    (body : M A) (st : IterGraph) :
  insert_points (snd (_insert_context before node body st)) = insert_points st
  /\ (forall x, node = Some x -> _setup_mapping st !! x = None ->
        _insert_context before node body st = (Raise AssertionError, st))
  /\ (forall x, node = Some x -> _cleanup_mapping st !! x = None ->
        exists e, _insert_context before node body st = (Raise e, st)).
Proof.
  split; [|split].
  - unfold insert_points, _insert_context.
    pose proof (insert_context_loop_point before node body _all_graphs st) as H.
    assert (H1 := H SetupG). assert (H2 := H CleanupG). assert (H3 := H MainG).
    cbn [graph_of] in H1, H2, H3. unfold _all_graphs in *.
    rewrite H1, H2, H3; [done|set_solver..].
  - intros x -> Hx. unfold _insert_context, _all_graphs. simpl.
    unfold bind, lookup, get, ret. simpl. by rewrite Hx.
  - intros x -> Hx. unfold _insert_context, _all_graphs. simpl.
    unfold bind at 1. simpl.
    destruct (_setup_mapping st !! x) as [sx|]; simpl; [|by eexists].
    assert (Hinner : forall s, _cleanup_mapping s = _cleanup_mapping st ->
              (actual_node <- lookup x CleanupG ;;
               match actual_node with
               | Some a =>
                   (if before then @fx_inserting_before A else @fx_inserting_after A)
                     CleanupG (Some a) (insert_context_loop before (Some x) [MainG] body)
               | None => raise AssertionError
               end) s = (Raise AssertionError, s)).
    { intros s Hs. unfold bind, lookup, get, ret. simpl. by rewrite Hs, Hx. }
    destruct before; simpl.
    all: unfold bind at 1; unfold deref; destruct (heap st !! sx) as [nd|]; simpl;
      [|by eexists].
    all: unfold bind at 1; unfold assert_; case_bool_decide; simpl; [|by eexists].
    all: rewrite with_insert_run, Hinner by done; simpl.
    all: change (g_insert (setup_graph st)) with (g_insert (graph_of SetupG st)).
    all: rewrite set_insert_back; by eexists.
Qed.

(** X13, witness: on the sample engine node 3 has no counterpart. *)
Lemma insert_context_restores_witness :
  inserting_before (Some 3) (call_function (TCallable 2) [] [] None) Sample.engine
  = (Raise AssertionError, Sample.engine).
Proof.
  destruct (insert_context_restores true (Some 3)
              (call_function (TCallable 2) [] [] None) Sample.engine) as (_ & H & _).
  apply (H 3 eq_refl). clear. vm_compute. reflexivity.
Defined.

Lemma insert_before_split a x l :
  a ∈ l -> exists l1 l2, l = l1 ++ a :: l2 /\ insert_before a x l = l1 ++ x :: a :: l2.
Proof.
  induction l as [|y l IH]; intros Ha; [by apply elem_of_nil in Ha|].
  simpl. case_decide as Hy.
  - subst y. by exists [], l.
  - apply elem_of_cons in Ha as [?|Ha]; [done|].
    destruct (IH Ha) as (l1 & l2 & -> & ->). by exists (y :: l1), l2.
Qed.

Lemma insert_after_split a x l :
  a ∈ l -> exists l1 l2, l = l1 ++ a :: l2 /\ insert_after a x l = l1 ++ a :: x :: l2.
Proof.
  induction l as [|y l IH]; intros Ha; [by apply elem_of_nil in Ha|].
  simpl. case_decide as Hy.
  - subst y. by exists [], l.
  - apply elem_of_cons in Ha as [?|Ha]; [done|].
    destruct (IH Ha) as (l1 & l2 & -> & ->). by exists (y :: l1), l2.
Qed.

Lemma link_placed (before : bool) a x l :
  a ∈ l -> x ∉ l ->
  placed before a x l (link (if before then Before (Some a) else After (Some a)) x l).
Proof.
  intros Ha Hx. unfold link. rewrite filter_absent by done.
  destruct before.
  - destruct (insert_before_split a x l Ha) as (l1 & l2 & E1 & E2). by exists l1, l2.
  - destruct (insert_after_split a x l Ha) as (l1 & l2 & E1 & E2). by exists l1, l2.
Qed.

(** Where [fx_create_node] links the new node, and that it leaves the
    insertion points alone. *)
Lemma fx_create_node_linked g op t a k ty st n st' :
  g <> OrigG ->
  fx_create_node g op t a k ty st = (Ok n, st') ->
  nodes g st' = link (g_insert (graph_of g st)) n (nodes g st)
  /\ (forall g', g_insert (graph_of g' st') = g_insert (graph_of g' st)).
Proof.
  intros Hg H.
  destruct (fx_create_node_skeleton _ _ _ _ _ _ _ _ _ H) as [[Hn Hsk]|[[e He] _]];
    [|discriminate].
  injection Hn as ->. split.
  - rewrite (same_skeleton_nodes _ _ g Hsk). by apply sk_create_nodes.
  - intros g'. rewrite (proj1 (same_skeleton_fields _ _ Hsk) g').
    destruct g, g'; done.
Qed.

Lemma in_correspondence_set_insert g ip st :
  in_correspondence (set_insert g ip st) <-> in_correspondence st.
Proof.
  unfold in_correspondence, well_formed, pairs_with, alive.
  assert (Hn : forall g', nodes g' (set_insert g ip st) = nodes g' st)
    by (intros g'; apply nodes_set_insert).
  simpl. rewrite !Hn. by setoid_rewrite Hn.
Qed.

(** X14.  A mirrored [call_function] made under [inserting_before] or
    [inserting_after] of a steady node [x], on an engine in
    correspondence, puts the new steady node next to [x] and each new
    satellite node next to the counterpart of [x] in its graph (just
    before it, or just after it), records the new counterparts, and
    keeps the engine in correspondence. *)
Theorem creation_lands_at_anchor (before : bool) (f : Target) (args : list Argument)
    (kwargs : list (string * Argument)) (ty : option string) (x : nat)
    (st : IterGraph) (n : nat) (st' : IterGraph) :
  in_correspondence st -> x ∈ nodes MainG st ->
  _insert_context before (Some x) (call_function f args kwargs ty) st = (Ok n, st') ->
  exists sx cx sn cn,
    _setup_mapping st !! x = Some sx /\ _cleanup_mapping st !! x = Some cx
    /\ _setup_mapping st' !! n = Some sn /\ _cleanup_mapping st' !! n = Some cn
    /\ placed before x n (nodes MainG st) (nodes MainG st')
    /\ placed before sx sn (nodes SetupG st) (nodes SetupG st')
    /\ placed before cx cn (nodes CleanupG st) (nodes CleanupG st')
    /\ insert_points st' = insert_points st
    /\ in_correspondence st'.
Proof.
  intros Hc Hx H.
  assert (Hpts : insert_points st' = insert_points st).
  { pose proof (proj1 (insert_context_restores before (Some x)
                         (call_function f args kwargs ty) st)) as Hp.
    by rewrite H in Hp. }
  pose proof Hc as (Hwf & Hps & Hpc). pose proof Hwf as (Hfr & Hnd & Hal & _).
  destruct (proj1 Hps x Hx) as (sx & Hsx & Hsin).
  destruct (proj1 Hpc x Hx) as (cx & Hcx & Hcin).
  rewrite (insert_context_run before x _ st sx cx) in H by (try done; by apply Hal).
  pose (ip := fun a : nat => if before then Before (Some a) else After (Some a)).
  change (if before then Before (Some x) else After (Some x)) with (ip x) in H.
  change (if before then Before (Some cx) else After (Some cx)) with (ip cx) in H.
  change (if before then Before (Some sx) else After (Some sx)) with (ip sx) in H.
  set (s_in := set_insert MainG (ip x)
                 (set_insert CleanupG (ip cx) (set_insert SetupG (ip sx) st))) in *.
  assert (Hcin' : in_correspondence s_in)
    by (unfold s_in; by rewrite !in_correspondence_set_insert).
  destruct (call_function f args kwargs ty s_in) as [r s_out] eqn:E.
  simpl in H. injection H as -> <-.
  assert (Hcout : in_correspondence s_out) by by eapply correspondence_call_function.
  pose proof Hcin' as (Hwf' & _).
  unfold call_function in E.
  apply bind_ok in E as (fr & s0 & Hf & E). injection Hf as <- <-.
  change (_freeze_cross_iter_movement s_in) with (_freeze_cross_iter_movement st) in E.
  rewrite Hfr in E.
  apply bind_ok in E as (sg & s0 & Hg & E). injection Hg as <- <-.
  apply bind_ok in E as (sn & s1 & E1 & E).
  destruct (fx_create_node_linked SetupG _ _ _ _ _ _ _ _ ltac:(done) E1) as [K1 I1].
  apply fx_create_node_facts in E1 as (Hsn & L1 & W1 & P1 & O1 & C1); [|done..].
  apply bind_ok in E as (mn & s2 & E2 & E).
  destruct (fx_create_node_linked MainG _ _ _ _ _ _ _ _ ltac:(done) E2) as [K2 I2].
  apply fx_create_node_facts in E2 as (Hmn & L2 & W2 & P2 & O2 & C2); [|done..].
  apply bind_ok in E as (cn & s3 & E3 & E).
  destruct (fx_create_node_linked CleanupG _ _ _ _ _ _ _ _ ltac:(done) E3) as [K3 I3].
  apply fx_create_node_facts in E3 as (Hcn & L3 & W3 & P3 & O3 & C3); [|done..].
  apply bind_ok in E as ([] & s4 & E4 & E). injection E as -> <-.
  unfold record_mapping, modify in E4. injection E4 as <-.
  exists sx, cx, sn, cn.
  split; [done|]. split; [done|].
  split; [simpl; by rewrite lookup_insert_eq|].
  split; [simpl; by rewrite lookup_insert_eq|].
  assert (Hnodes : forall g, nodes g s_in = nodes g st)
    by (intros g; unfold s_in; by rewrite !nodes_set_insert).
  split; [|split; [|split; [|split; [exact Hpts|]]]].
  - rewrite !nodes_set_insert.
    change (nodes MainG (with_mappings _ _ s3)) with (nodes MainG s3).
    rewrite (O3 MainG), K2, I1, (O1 MainG), Hnodes by done.
    replace (g_insert (graph_of MainG s_in)) with (ip x) by (unfold s_in; by destruct before).
    apply link_placed; [done|].
    rewrite <- (Hnodes MainG), <- (O1 MainG), Hmn by done.
    by apply well_formed_fresh.
  - rewrite !nodes_set_insert.
    change (nodes SetupG (with_mappings _ _ s3)) with (nodes SetupG s3).
    rewrite (O3 SetupG), (O2 SetupG), K1, Hnodes by done.
    replace (g_insert (graph_of SetupG s_in)) with (ip sx) by (unfold s_in; by destruct before).
    apply link_placed; [done|].
    rewrite <- (Hnodes SetupG), Hsn. by apply well_formed_fresh.
  - rewrite !nodes_set_insert.
    change (nodes CleanupG (with_mappings _ _ s3)) with (nodes CleanupG s3).
    rewrite K3, I2, I1, (O2 CleanupG), (O1 CleanupG), Hnodes by done.
    replace (g_insert (graph_of CleanupG s_in)) with (ip cx) by (unfold s_in; by destruct before).
    apply link_placed; [done|].
    rewrite <- (Hnodes CleanupG), <- (O1 CleanupG), <- (O2 CleanupG), Hcn by done.
    by apply well_formed_fresh.
  - by rewrite !in_correspondence_set_insert.
Qed.

(** X14, witness: a node created before [y] (13) of the sample engine. *)
Lemma creation_lands_at_anchor_witness :
  in_correspondence Sample.engine
  /\ exists st', placed true 13 17 (nodes MainG Sample.engine) (nodes MainG st').
Proof.
  pose proof sample_engine_in_correspondence as Hc.
  split; [exact Hc|].
  destruct (_insert_context true (Some 13) (call_function (TCallable 2) [ANode 12] [] None)
              Sample.engine) as [[n|e] st'] eqn:E;
    [|clear Hc; vm_compute in E; discriminate E].
  assert (n = 17) as -> by (clear Hc; vm_compute in E; congruence).
  assert (Hx : 13 ∈ nodes MainG Sample.engine).
  { clear. change (13 ∈ [12; 13; 14; 15]). set_solver. }
  exists st'.
  by destruct (creation_lands_at_anchor _ _ _ _ _ _ _ _ _ Hc Hx E)
    as (sx & cx & sn & cn & _ & _ & _ & _ & H & _).
Defined.

(** ** The validation of a move and its counters *)

Lemma user_allowed_spec all_nodes output user :
  user_allowed all_nodes output user = true
  <-> (forall u, user = UNode u -> u ∈ all_nodes \/ output = Some u).
Proof.
  destruct user as [u|s]; simpl.
  - rewrite negb_true_iff, andb_false_iff, !negb_false_iff, !bool_decide_eq_true.
    split.
    + intros [H|H] u' [= <-]; [by left | by right].
    + intros H. destruct (H u eq_refl) as [?|?]; [by left | by right].
  - split; [intros _ u [=] | done].
Qed.

Lemma is_connect_loop_decides all_nodes output st : forall subgraph,
  (forall n, n ∈ subgraph -> is_Some (heap st !! n)) ->
  exists b, is_connect_loop all_nodes subgraph output st = (Ok b, st)
    /\ (b = true <->
        forall node nd u, node ∈ subgraph -> heap st !! node = Some nd ->
          UNode u ∈ n_users nd -> u ∈ all_nodes \/ output = Some u).
Proof.
  induction subgraph as [|x rest IH]; intros Hall.
  - exists true. split; [done|]. split; [|done].
    intros _ node nd u Hin. by apply elem_of_nil in Hin.
  - destruct (Hall x) as [xd Hxd]; [by left|].
    simpl. unfold bind. rewrite (deref_some _ _ _ Hxd).
    destruct (forallb (user_allowed all_nodes output) (n_users xd)) eqn:Ex.
    + destruct IH as (b & Hb & Hiff); [intros n Hn; apply Hall; by right|].
      exists b. split; [done|]. rewrite Hiff. split.
      * intros H node nd u Hin Hnd Hu. apply elem_of_cons in Hin as [->|Hin].
        -- rewrite Hxd in Hnd. injection Hnd as <-.
           rewrite forallb_forall in Ex. specialize (Ex (UNode u)).
           rewrite <- list_elem_of_In in Ex.
           by apply (proj1 (user_allowed_spec _ _ _) (Ex Hu)).
        -- by eapply H.
      * intros H node nd u Hin. apply H. by right.
    + exists false. split; [done|]. split; [done|]. intros H. exfalso.
      apply not_true_iff_false in Ex. apply Ex.
      rewrite forallb_forall. intros user Huser. rewrite <- list_elem_of_In in Huser.
      apply user_allowed_spec. intros u ->. eapply H; [by left|done..].
Qed.

Lemma bind_known {A B} (m : M A) (k : A -> M B) st a st1 :
  m st = (Ok a, st1) -> bind m k st = k a st1.
Proof. unfold bind. by intros ->. Qed.

Lemma bind_bump {A} b x (k : unit -> M A) st :
  bind (bump_counters b x) k st
  = k tt (with_counters (_cross_iter_block_count st + b) (num_extra_output st + x) st).
Proof. done. Qed.

Lemma counts_kept_bind {A} (m : M A) (k : A -> M unit) :
  keeps control m -> (forall a, counts_kept (k a)) -> counts_kept (bind m k).
Proof.
  intros Hm Hk s. unfold bind. specialize (Hm s).
  destruct (m s) as [[a|e] s1]; simpl in *.
  - destruct (Hk a s1) as [H1 H2].
    unfold control in Hm. injection Hm as _ _ _ Hc Hx.
    rewrite H1, Hc. split; [done|]. intros e He. by rewrite (H2 e He).
  - unfold control in Hm. injection Hm as _ _ _ Hc Hx. split; [done|]. by intros.
Qed.

(** The steps of [move_to_next_iter_before] that follow the advance of
    the block counter. *)
Lemma counts_kept_move_steps subgraph target_node :
  counts_kept
    (setup_extra_input <- move_setup_part subgraph ;;
     move_cleanup_part subgraph target_node setup_extra_input >>
     main_extra_input <- move_main_export subgraph ;;
     assert_ (main_extra_input =? setup_extra_input) >>
     forM_ subgraph (fun node => fx_node_prepend target_node node) >>
     _forward_inputs_to_subgraph subgraph MainG main_extra_input >>
     hold_unused CleanupG >>
     hold_unused MainG >>
     bump_counters 0 main_extra_input).
Proof.
  apply counts_kept_bind; [apply keeps_control_move_setup_part|]. intros k.
  apply counts_kept_bind; [apply keeps_control_move_cleanup_part|]. intros _.
  apply counts_kept_bind; [apply keeps_control_forward_subgraph_inputs|]. intros k'.
  apply counts_kept_bind; [apply keeps_assert|]. intros _.
  apply counts_kept_bind.
  { apply keeps_forM. intros x. apply keeps_control_prepend. }
  intros _.
  apply counts_kept_bind; [apply keeps_control_forward_inputs_to_subgraph|]. intros _.
  apply counts_kept_bind; [apply keeps_control_hold_unused|]. intros _.
  apply counts_kept_bind; [apply keeps_control_hold_unused|]. intros _.
  intros s. simpl. split; [lia|]. intros e [=].
Qed.

(** X15.  [_is_connect_to_output] decides the documented condition on a
    block of existing nodes without changing anything: it returns
    [True] exactly when every user of a block node that is a node is in
    the block or is the given output node; users that are not nodes
    (such as the ["__hold__"] marker) never count, and a block node
    without users passes. *)
Theorem is_connect_to_output_decides (subgraph : list nat) (output : option nat)
    (st : IterGraph) :
  (forall n, n ∈ subgraph -> is_Some (heap st !! n)) ->
  exists b, _is_connect_to_output subgraph output st = (Ok b, st)
    /\ (b = true <-> connected_to_output st subgraph output).
Proof. intros Hall. by apply is_connect_loop_decides. Qed.

(** X15, witness: the block [[z]] of the sample engine. *)
Lemma is_connect_to_output_decides_witness :
  exists b, _is_connect_to_output [14] (Some 15) Sample.engine = (Ok b, Sample.engine)
    /\ (b = true <-> connected_to_output Sample.engine [14] (Some 15)).
Proof.
  apply is_connect_to_output_decides.
  intros n Hn. apply list_elem_of_singleton in Hn as ->. clear. vm_compute. eauto.
Defined.

(** X16.  Once the validation has passed on an unfrozen engine,
    [move_to_next_iter_before] has advanced [_cross_iter_block_count]
    by exactly one whether it then returns or raises, and when it
    raises [num_extra_output] is as before: a move that fails after the
    validation is not rolled back. *)
Theorem failed_move_keeps_counter_advanced (subgraph : list nat) (target_node : nat)
    (st : IterGraph) :
  _freeze_cross_iter_movement st = false ->
  (forall n, n ∈ subgraph -> is_Some (heap st !! n)) ->
  connected_to_output st subgraph (_find_output MainG st) ->
  let r := move_to_next_iter_before subgraph target_node st in
  _cross_iter_block_count (snd r) = S (_cross_iter_block_count st)
  /\ (forall e, fst r = Raise e -> num_extra_output (snd r) = num_extra_output st).
Proof.
  intros Hfr Hall Hconn r.
  destruct (is_connect_loop_decides subgraph (_find_output MainG st) st subgraph Hall)
    as (b & Hb & Hiff).
  assert (b = true) as -> by by apply Hiff.
  unfold r, move_to_next_iter_before.
  rewrite bind_is_frozen, Hfr, bind_get.
  unfold _is_connect_to_output. rewrite (bind_known _ _ _ _ _ Hb). change (negb true) with false. cbv iota.
  rewrite bind_bump. cbv beta.
  match goal with |- context [?m (with_counters ?c ?x st)] =>
    pose proof (counts_kept_move_steps subgraph target_node (with_counters c x st)) as [H1 H2];
    set (s := with_counters c x st) in * end.
  simpl in H1. rewrite Nat.add_1_r in H1.
  split; [exact H1|]. intros e He. rewrite (H2 e He). simpl. lia.
Qed.

(** X16, witness: the block [[z]] of the sample engine, moved before
    [y]. *)
Lemma failed_move_keeps_counter_advanced_witness :
  _cross_iter_block_count (snd (move_to_next_iter_before [14] 13 Sample.engine))
  = S (_cross_iter_block_count Sample.engine).
Proof.
  assert (Hall : forall n, n ∈ [14] -> is_Some (heap Sample.engine !! n)).
  { intros n Hn. apply list_elem_of_singleton in Hn as ->. clear. vm_compute. eauto. }
  destruct (failed_move_keeps_counter_advanced [14] 13 Sample.engine) as [H _];
    [reflexivity|exact Hall| |exact H].
  destruct (is_connect_loop_decides [14] (_find_output MainG Sample.engine)
              Sample.engine [14] Hall) as (b & Hb & Hiff).
  unfold connected_to_output. apply Hiff. clear -Hb. vm_compute in Hb. congruence.
Defined.

(** ** The steps of a move that returns *)

Lemma move_ok_steps subgraph target_node st st' :
  move_to_next_iter_before subgraph target_node st = (Ok tt, st') ->
  _freeze_cross_iter_movement st = false
  /\ _is_connect_to_output subgraph (_find_output MainG st) st = (Ok true, st)
  /\ exists k s1 s2 s3 s4 s5 s6 s7,
       move_setup_part subgraph (snd (bump_counters 1 0 st)) = (Ok k, s1)
       /\ move_cleanup_part subgraph target_node k s1 = (Ok tt, s2)
       /\ move_main_export subgraph s2 = (Ok k, s3)
       /\ forM_ subgraph (fun node => fx_node_prepend target_node node) s3 = (Ok tt, s4)
       /\ _forward_inputs_to_subgraph subgraph MainG k s4 = (Ok tt, s5)
       /\ hold_unused CleanupG s5 = (Ok tt, s6)
       /\ hold_unused MainG s6 = (Ok tt, s7)
       /\ st' = snd (bump_counters 0 k s7).
Proof.
  unfold move_to_next_iter_before. intros H.
  apply bind_ok in H as (frozen & s0 & Hfr & H).
  injection Hfr as <- <-.
  destruct (_freeze_cross_iter_movement st); [discriminate|].
  split; [done|].
  apply bind_ok in H as (sg & s0 & Hget & H). injection Hget as <- <-.
  apply bind_ok in H as (connected & s0 & Hconn & H).
  pose proof (keeps_run id _ _ _ _ (is_connect_loop_reads _ _ _) Hconn) as Hs0.
  simpl in Hs0. subst s0.
  destruct connected; [|discriminate]. simpl in H.
  split; [done|].
  apply bind_ok in H as ([] & sb & Hbump & H).
  apply bind_ok in H as (k & s1 & Hsetup & H).
  apply bind_ok in H as ([] & s2 & Hcleanup & H).
  apply bind_ok in H as (k' & s3 & Hmain & H).
  apply bind_ok in H as ([] & s3' & Hassert & H).
  unfold assert_ in Hassert. destruct (k' =? k) eqn:Ek; [|discriminate].
  apply Nat.eqb_eq in Ek. subst k'. injection Hassert as <-.
  apply bind_ok in H as ([] & s4 & Hprep & H).
  apply bind_ok in H as ([] & s5 & Himp & H).
  apply bind_ok in H as ([] & s6 & Hhc & H).
  apply bind_ok in H as ([] & s7 & Hhm & H).
  injection Hbump as <-. injection H as <-.
  by exists k, s1, s2, s3, s4, s5, s6, s7.
Qed.

(** What the loop of [hold_unused] does over a node list: the graphs are
    left alone, a node that has users is not touched, and every node of
    the list ends up with a user. *)
Lemma hold_loop_spec : forall l s s',
  forM_ l (fun node =>
    nd <- deref node ;;
    if length (n_users nd) =? 0 then users_setdefault node held else ret tt) s
  = (Ok tt, s') ->
  (forall g, graph_of g s' = graph_of g s)
  /\ (forall n nd, heap s !! n = Some nd -> n_users nd <> [] -> heap s' !! n = Some nd)
  /\ (forall n, n ∈ l -> exists nd', heap s' !! n = Some nd' /\ n_users nd' <> []).
Proof.
  induction l as [|x rest IH]; intros s s' H.
  - injection H as <-. split; [done|]. split; [done|].
    intros n Hn. by apply elem_of_nil in Hn.
  - simpl in H. apply bind_ok in H as ([] & s1 & Hx & H).
    apply bind_ok in Hx as (xd & s0 & Hd & Hx).
    apply deref_ok in Hd as [Hxd ->].
    destruct (IH _ _ H) as (Hg & Hkeep & Hheld).
    destruct (length (n_users xd) =? 0) eqn:El.
    + apply Nat.eqb_eq, length_zero_iff_nil in El.
      unfold users_setdefault in Hx. rewrite (bind_known _ _ _ _ _ (deref_some _ _ _ Hxd)) in Hx.
      rewrite El in Hx. rewrite bool_decide_eq_false_2 in Hx by (apply not_elem_of_nil).
      injection Hx as <-. simpl in *.
      assert (Hx1 : alter (set_users [held]) x (heap s) !! x = Some (set_users [held] xd)).
      { by rewrite list_lookup_alter_eq, Hxd. }
      split; [intros g; rewrite Hg; by destruct g|]. split.
      * intros n nd Hn Hu. apply Hkeep; [|done].
        destruct (decide (n = x)) as [->|Hne]; [congruence|].
        by rewrite list_lookup_alter_ne.
      * intros n Hn. apply elem_of_cons in Hn as [->|Hn]; [|by apply Hheld].
        exists (set_users [held] xd). split; [|done]. by apply Hkeep.
    + injection Hx as <-.
      split; [done|]. split; [done|].
      intros n Hn. apply elem_of_cons in Hn as [->|Hn]; [|by apply Hheld].
      exists xd. apply Nat.eqb_neq in El.
      assert (n_users xd <> []) by (intros E; rewrite E in El; done).
      split; [by apply Hkeep | done].
Qed.

Lemma hold_unused_spec graph s s' :
  hold_unused graph s = (Ok tt, s') ->
  (forall g, nodes g s' = nodes g s)
  /\ (forall n nd, heap s !! n = Some nd -> n_users nd <> [] -> heap s' !! n = Some nd)
  /\ (forall n, n ∈ nodes graph s -> exists nd', heap s' !! n = Some nd' /\ n_users nd' <> []).
Proof.
  unfold hold_unused. rewrite bind_get. intros H.
  destruct (hold_loop_spec _ _ _ H) as (Hg & Hk & Hh).
  split; [intros g; unfold nodes; by rewrite Hg|]. done.
Qed.

(** X17.  When [move_to_next_iter_before] returns, every node linked in
    the cleanup graph and every node linked in the steady graph has a
    user, if only the ["__hold__"] marker: none of them is left for a
    dead-code pass to remove. *)
Theorem moved_graphs_are_held (subgraph : list nat) (target_node : nat)
    (st st' : IterGraph) (n : nat) :
  move_to_next_iter_before subgraph target_node st = (Ok tt, st') ->
  n ∈ nodes CleanupG st' \/ n ∈ nodes MainG st' ->
  exists nd, heap st' !! n = Some nd /\ n_users nd <> [].
Proof.
  intros H Hn.
  destruct (move_ok_steps _ _ _ _ H)
    as (_ & _ & k & s1 & s2 & s3 & s4 & s5 & s6 & s7 & _ & _ & _ & _ & _ & Hc & Hm & ->).
  destruct (hold_unused_spec _ _ _ Hc) as (Hg6 & Hk6 & Hh6).
  destruct (hold_unused_spec _ _ _ Hm) as (Hg7 & Hk7 & Hh7).
  change (heap (snd (bump_counters 0 k s7))) with (heap s7).
  change (n ∈ nodes CleanupG s7 \/ n ∈ nodes MainG s7) in Hn.
  destruct Hn as [Hn|Hn].
  - rewrite Hg7, Hg6 in Hn. destruct (Hh6 n Hn) as (nd & Hnd & Hu).
    exists nd. split; [by apply Hk7 | done].
  - rewrite Hg7 in Hn. by apply Hh7.
Qed.

(** X17, witness: the sample engine after moving [z] before [y]; the
    moved node (14) is held. *)
Lemma moved_graphs_are_held_witness :
  exists nd, heap Sample.moved !! 14 = Some nd /\ n_users nd <> [].
Proof.
  apply (moved_graphs_are_held [14] 13 Sample.engine Sample.moved 14).
  - clear. vm_compute. reflexivity.
  - right. clear. vm_compute. set_solver.
Defined.

(** ** Users added and removed by hand *)

Lemma filter_ne_absent (u : User) (l : list User) :
  u ∉ l -> filter (fun v => v <> u) l = l.
Proof.
  intros Hu. induction l as [|y l IH]; [done|].
  apply not_elem_of_cons in Hu as [Hne Hu].
  rewrite filter_cons_True by done. by rewrite IH.
Qed.

Lemma filter_ne_added (u : User) (l : list User) :
  u ∉ l -> filter (fun v => v <> u) (l ++ [u]) = l.
Proof.
  intros Hu. rewrite filter_app, filter_ne_absent by done.
  rewrite filter_cons_False by (intros H; by apply H). simpl. by rewrite app_nil_r.
Qed.

Lemma users_setdefault_new a u s nd :
  heap s !! a = Some nd -> u ∉ n_users nd ->
  users_setdefault a u s = (Ok tt, with_users a (n_users nd ++ [u]) s).
Proof.
  intros Hnd Hu. unfold users_setdefault.
  rewrite (bind_known _ _ _ _ _ (deref_some _ _ _ Hnd)).
  by rewrite bool_decide_eq_false_2.
Qed.

Lemma users_setdefault_old a u s nd :
  heap s !! a = Some nd -> u ∈ n_users nd -> users_setdefault a u s = (Ok tt, s).
Proof.
  intros Hnd Hu. unfold users_setdefault.
  rewrite (bind_known _ _ _ _ _ (deref_some _ _ _ Hnd)).
  by rewrite bool_decide_eq_true_2.
Qed.

Lemma users_pop_present a u s nd :
  heap s !! a = Some nd -> u ∈ n_users nd ->
  users_pop a u s = (Ok tt, with_users a (filter (fun v => v <> u) (n_users nd)) s).
Proof.
  intros Hnd Hu. unfold users_pop.
  rewrite (bind_known _ _ _ _ _ (deref_some _ _ _ Hnd)).
  by rewrite bool_decide_eq_true_2.
Qed.

Lemma users_pop_absent a u s nd :
  heap s !! a = Some nd -> u ∉ n_users nd -> users_pop a u s = (Raise KeyError, s).
Proof.
  intros Hnd Hu. unfold users_pop.
  rewrite (bind_known _ _ _ _ _ (deref_some _ _ _ Hnd)).
  by rewrite bool_decide_eq_false_2.
Qed.

Lemma lookup_with_users_eq a us s nd :
  heap s !! a = Some nd -> heap (with_users a us s) !! a = Some (set_users us nd).
Proof. intros H. simpl. by rewrite list_lookup_alter_eq, H. Qed.

Lemma lookup_with_users_ne a b us s :
  a <> b -> heap (with_users a us s) !! b = heap s !! b.
Proof. intros H. simpl. by rewrite list_lookup_alter_ne. Qed.

Lemma actual_user_main user s : actual_user user MainG s = user.
Proof. by destruct user. Qed.

(** One turn of the loop of [node_add_user] and of [node_remove_user]. *)
Lemma add_user_turn x user g s a (k : M unit) :
  _lookup_node x g s = Some a ->
  ((actual_node <- lookup x g ;;
    st <- get ;;
    let actual_user_node := actual_user user g st in
    match actual_node with
    | None => raise AssertionError
    | Some actual_node => users_setdefault actual_node actual_user_node
    end) >> k) s
  = (users_setdefault a (actual_user user g s) >> k) s.
Proof. intros Ha. unfold bind at 1 2. simpl. by rewrite Ha. Qed.

Lemma remove_user_turn x user g s a (k : M unit) :
  _lookup_node x g s = Some a ->
  ((actual_node <- lookup x g ;;
    st <- get ;;
    let actual_user_node := actual_user user g st in
    match actual_node with
    | None => raise AssertionError
    | Some actual_node => users_pop actual_node actual_user_node
    end) >> k) s
  = (users_pop a (actual_user user g s) >> k) s.
Proof. intros Ha. unfold bind at 1 2. simpl. by rewrite Ha. Qed.

Lemma with_heap_same st : with_heap (heap st) st = st.
Proof. by destruct st. Qed.

(** X18.  [node_add_user] and [node_remove_user] on a steady node whose
    counterparts exist: adding a user that none of the three node
    objects has yet appends it to the user set of each of them (a user
    that is a node being translated to its counterpart), adding it
    again changes nothing, removing it gives back the engine exactly as
    it was, and removing a user that is not there raises [KeyError] on
    the setup counterpart, before anything is changed. *)
Theorem add_user_then_remove_user (x : nat) (user : User) (st : IterGraph)
    (sx cx : nat) (nds ndc ndm : Node) :
  _setup_mapping st !! x = Some sx -> _cleanup_mapping st !! x = Some cx ->
  heap st !! sx = Some nds -> heap st !! cx = Some ndc -> heap st !! x = Some ndm ->
  sx <> cx -> sx <> x -> cx <> x ->
  actual_user user SetupG st ∉ n_users nds ->
  actual_user user CleanupG st ∉ n_users ndc ->
  user ∉ n_users ndm ->
  exists st1,
    node_add_user x user st = (Ok tt, st1)
    /\ heap st1 !! sx = Some (set_users (n_users nds ++ [actual_user user SetupG st]) nds)
    /\ heap st1 !! cx = Some (set_users (n_users ndc ++ [actual_user user CleanupG st]) ndc)
    /\ heap st1 !! x = Some (set_users (n_users ndm ++ [user]) ndm)
    /\ node_add_user x user st1 = (Ok tt, st1)
    /\ node_remove_user x user st1 = (Ok tt, st)
    /\ node_remove_user x user st = (Raise KeyError, st).
Proof.
  intros Hsx Hcx Hnds Hndc Hndm Hsc Hsm Hcm Hus Huc Hum.
  set (us := actual_user user SetupG st) in *.
  set (uc := actual_user user CleanupG st) in *.
  set (s1 := with_users sx (n_users nds ++ [us]) st).
  set (s2 := with_users cx (n_users ndc ++ [uc]) s1).
  set (s3 := with_users x (n_users ndm ++ [user]) s2).
  assert (H1s : heap s1 !! sx = Some (set_users (n_users nds ++ [us]) nds))
    by by apply lookup_with_users_eq.
  assert (H1c : heap s1 !! cx = Some ndc)
    by (unfold s1; by rewrite lookup_with_users_ne).
  assert (H1m : heap s1 !! x = Some ndm)
    by (unfold s1; by rewrite lookup_with_users_ne).
  assert (H2s : heap s2 !! sx = Some (set_users (n_users nds ++ [us]) nds))
    by (unfold s2; by rewrite lookup_with_users_ne).
  assert (H2c : heap s2 !! cx = Some (set_users (n_users ndc ++ [uc]) ndc))
    by by apply lookup_with_users_eq.
  assert (H2m : heap s2 !! x = Some ndm)
    by (unfold s2; by rewrite lookup_with_users_ne).
  assert (H3s : heap s3 !! sx = Some (set_users (n_users nds ++ [us]) nds))
    by (unfold s3; by rewrite lookup_with_users_ne).
  assert (H3c : heap s3 !! cx = Some (set_users (n_users ndc ++ [uc]) ndc))
    by (unfold s3; by rewrite lookup_with_users_ne).
  assert (H3m : heap s3 !! x = Some (set_users (n_users ndm ++ [user]) ndm))
    by by apply lookup_with_users_eq.
  assert (Mus : us ∈ n_users (set_users (n_users nds ++ [us]) nds))
    by (simpl; apply elem_of_app; right; by apply list_elem_of_singleton).
  assert (Muc : uc ∈ n_users (set_users (n_users ndc ++ [uc]) ndc))
    by (simpl; apply elem_of_app; right; by apply list_elem_of_singleton).
  assert (Mum : user ∈ n_users (set_users (n_users ndm ++ [user]) ndm))
    by (simpl; apply elem_of_app; right; by apply list_elem_of_singleton).
  exists s3. split; [|split; [done|split; [done|split; [done|split; [|split]]]]].
  - unfold node_add_user, _all_graphs. simpl forM_.
    rewrite (add_user_turn x user SetupG st sx) by done. fold us.
    rewrite (bind_known _ _ _ _ _ (users_setdefault_new _ _ _ _ Hnds Hus)). fold s1.
    rewrite (add_user_turn x user CleanupG s1 cx) by done.
    change (actual_user user CleanupG s1) with uc.
    rewrite (bind_known _ _ _ _ _ (users_setdefault_new _ _ _ _ H1c Huc)). fold s2.
    rewrite (add_user_turn x user MainG s2 x) by done. rewrite actual_user_main.
    rewrite (bind_known _ _ _ _ _ (users_setdefault_new _ _ _ _ H2m Hum)). done.
  - unfold node_add_user, _all_graphs. simpl forM_.
    rewrite (add_user_turn x user SetupG s3 sx) by done.
    change (actual_user user SetupG s3) with us.
    rewrite (bind_known _ _ _ _ _ (users_setdefault_old _ _ _ _ H3s Mus)).
    rewrite (add_user_turn x user CleanupG s3 cx) by done.
    change (actual_user user CleanupG s3) with uc.
    rewrite (bind_known _ _ _ _ _ (users_setdefault_old _ _ _ _ H3c Muc)).
    rewrite (add_user_turn x user MainG s3 x) by done. rewrite actual_user_main.
    rewrite (bind_known _ _ _ _ _ (users_setdefault_old _ _ _ _ H3m Mum)).
    done.
  - unfold node_remove_user, _all_graphs. simpl forM_.
    rewrite (remove_user_turn x user SetupG s3 sx) by done.
    change (actual_user user SetupG s3) with us.
    rewrite (bind_known _ _ _ _ _ (users_pop_present _ _ _ _ H3s Mus)).
    simpl n_users. rewrite filter_ne_added by done.
    set (t1 := with_users sx (n_users nds) s3).
    assert (T1c : heap t1 !! cx = Some (set_users (n_users ndc ++ [uc]) ndc))
      by (unfold t1; by rewrite lookup_with_users_ne).
    rewrite (remove_user_turn x user CleanupG t1 cx) by done.
    change (actual_user user CleanupG t1) with uc.
    rewrite (bind_known _ _ _ _ _ (users_pop_present _ _ _ _ T1c Muc)).
    simpl n_users. rewrite filter_ne_added by done.
    set (t2 := with_users cx (n_users ndc) t1).
    assert (T2m : heap t2 !! x = Some (set_users (n_users ndm ++ [user]) ndm))
      by (unfold t2, t1; by rewrite !lookup_with_users_ne).
    rewrite (remove_user_turn x user MainG t2 x) by done. rewrite actual_user_main.
    rewrite (bind_known _ _ _ _ _ (users_pop_present _ _ _ _ T2m Mum)).
    simpl n_users. rewrite filter_ne_added by done.
    unfold ret. f_equal.
    transitivity (with_heap (heap st) st); [|apply with_heap_same].
    unfold t2, t1, s3, s2, s1, with_users, with_heap. simpl. f_equal.
    apply list_eq. intros i.
    destruct (decide (i = sx)) as [->|Hi1];
      [|destruct (decide (i = cx)) as [->|Hi2]; [|destruct (decide (i = x)) as [->|Hi3]]].
    + rewrite list_lookup_alter_ne, list_lookup_alter_ne, list_lookup_alter_eq by done.
      rewrite list_lookup_alter_ne, list_lookup_alter_ne, list_lookup_alter_eq by done.
      rewrite Hnds. simpl. f_equal. by destruct nds.
    + rewrite list_lookup_alter_ne, list_lookup_alter_eq by done.
      rewrite list_lookup_alter_ne, list_lookup_alter_ne, list_lookup_alter_eq by done.
      rewrite list_lookup_alter_ne, Hndc by done. simpl. f_equal. by destruct ndc.
    + rewrite list_lookup_alter_eq.
      rewrite list_lookup_alter_ne, list_lookup_alter_ne, list_lookup_alter_eq by done.
      rewrite list_lookup_alter_ne, list_lookup_alter_ne, Hndm by done. simpl. f_equal.
      by destruct ndm.
    + by rewrite !list_lookup_alter_ne by done.
  - unfold node_remove_user, _all_graphs. simpl forM_.
    rewrite (remove_user_turn x user SetupG st sx) by done. fold us.
    unfold bind. by rewrite (users_pop_absent _ _ _ _ Hnds Hus).
Qed.

(** X18, witness: the marker ["__hold__"] added to and removed from the
    node [z] (14) of the sample engine. *)
Lemma add_user_then_remove_user_witness :
  exists st1, node_add_user 14 held Sample.engine = (Ok tt, st1)
    /\ node_remove_user 14 held st1 = (Ok tt, Sample.engine).
Proof.
  destruct (heap Sample.engine !! 6) as [nds|] eqn:Es; [|vm_compute in Es; discriminate Es].
  destruct (heap Sample.engine !! 10) as [ndc|] eqn:Ec; [|vm_compute in Ec; discriminate Ec].
  destruct (heap Sample.engine !! 14) as [ndm|] eqn:Em; [|vm_compute in Em; discriminate Em].
  destruct (add_user_then_remove_user 14 held Sample.engine 6 10 nds ndc ndm)
    as (st1 & H1 & _ & _ & _ & _ & H2 & _); try done.
  - vm_compute in Es. injection Es as <-. clear. vm_compute. set_solver.
  - vm_compute in Ec. injection Ec as <-. clear. vm_compute. set_solver.
  - vm_compute in Em. injection Em as <-. clear. vm_compute. set_solver.
  - by exists st1.
Defined.

(** ** [keep_unused_nodes] *)

Lemma users_grow_refl st : users_grow st st.
Proof. split; [done|]. intros n nd H. by exists nd. Qed.

Lemma users_grow_trans s1 s2 s3 : users_grow s1 s2 -> users_grow s2 s3 -> users_grow s1 s3.
Proof.
  intros [E1 G1] [E2 G2]. split; [congruence|].
  intros n nd H. destruct (G1 n nd H) as (nd2 & H2 & U2).
  destruct (G2 n nd2 H2) as (nd3 & H3 & U3). exists nd3. split; [done|]. auto.
Qed.

Lemma users_grow_fields s s' :
  users_grow s s' ->
  _setup_mapping s' = _setup_mapping s /\ _cleanup_mapping s' = _cleanup_mapping s
  /\ length (heap s') = length (heap s) /\ (forall g, nodes g s' = nodes g s).
Proof.
  intros [E _]. destruct (same_skeleton_fields _ _ E) as (Hg & _ & Hs & Hc & _ & _ & _ & Hl).
  split; [done|]. split; [done|]. split; [done|]. intros g. unfold nodes. by rewrite Hg.
Qed.

Lemma has_counterparts_grow s s' x :
  users_grow s s' -> has_counterparts s x -> has_counterparts s' x.
Proof.
  intros Hg. destruct (users_grow_fields _ _ Hg) as (Hs & Hc & Hl & _).
  unfold has_counterparts. by rewrite Hs, Hc, Hl.
Qed.

Lemma users_setdefault_grows a u s :
  a < length (heap s) ->
  exists s', users_setdefault a u s = (Ok tt, s') /\ users_grow s s'
    /\ exists nd', heap s' !! a = Some nd' /\ u ∈ n_users nd'.
Proof.
  intros Ha. destruct (lookup_lt_is_Some_2 _ _ Ha) as [nd Hnd].
  destruct (decide (u ∈ n_users nd)) as [Hu|Hu].
  - exists s. split; [by eapply users_setdefault_old|].
    split; [apply users_grow_refl|]. by exists nd.
  - exists (with_users a (n_users nd ++ [u]) s).
    split; [by apply users_setdefault_new|]. split; [split|].
    + apply forget_users_alter_users.
    + intros n nd0 Hn. destruct (decide (n = a)) as [->|Hne].
      * rewrite (lookup_with_users_eq _ _ _ _ Hnd). eexists. split; [done|].
        intros v Hv. simpl. apply elem_of_app. left. congruence.
      * rewrite lookup_with_users_ne by done. by exists nd0.
    + rewrite (lookup_with_users_eq _ _ _ _ Hnd). eexists. split; [done|].
      simpl. apply elem_of_app. right. by apply list_elem_of_singleton.
Qed.

Lemma node_add_user_grows x user s :
  has_counterparts s x ->
  exists s', node_add_user x user s = (Ok tt, s') /\ users_grow s s'
    /\ exists nd', heap s' !! x = Some nd' /\ user ∈ n_users nd'.
Proof.
  intros (Hx & (sx & Hsx & Hsl) & (cx & Hcx & Hcl)).
  unfold node_add_user, _all_graphs. simpl forM_.
  rewrite (add_user_turn x user SetupG s sx) by done.
  destruct (users_setdefault_grows sx (actual_user user SetupG s) s Hsl)
    as (s1 & E1 & G1 & _).
  rewrite (bind_known _ _ _ _ _ E1).
  destruct (users_grow_fields _ _ G1) as (Hs1 & Hc1 & Hl1 & _).
  rewrite (add_user_turn x user CleanupG s1 cx) by (simpl; by rewrite Hc1).
  destruct (users_setdefault_grows cx (actual_user user CleanupG s1) s1 ltac:(lia))
    as (s2 & E2 & G2 & _).
  rewrite (bind_known _ _ _ _ _ E2).
  destruct (users_grow_fields _ _ G2) as (Hs2 & Hc2 & Hl2 & _).
  rewrite (add_user_turn x user MainG s2 x) by done. rewrite actual_user_main.
  destruct (users_setdefault_grows x user s2 ltac:(lia)) as (s3 & E3 & G3 & Hu).
  rewrite (bind_known _ _ _ _ _ E3).
  exists s3. split; [done|]. split; [|done].
  eapply users_grow_trans; [|exact G3]. eapply users_grow_trans; eauto.
Qed.

Lemma keep_unused_loop : forall l s,
  (forall x, x ∈ l -> has_counterparts s x) ->
  exists s',
    forM_ l (fun node =>
      nd <- deref node ;;
      if (length (n_users nd) =? 0) && negb (bool_decide (n_op nd = output_op))
      then node_add_user node held
      else ret tt) s = (Ok tt, s')
    /\ users_grow s s'
    /\ forall x, x ∈ l ->
         exists nd', heap s' !! x = Some nd' /\ (n_op nd' = output_op \/ n_users nd' <> []).
Proof.
  induction l as [|x rest IH]; intros s Hall.
  - exists s. split; [done|]. split; [apply users_grow_refl|].
    intros x Hx. by apply elem_of_nil in Hx.
  - assert (Hx : has_counterparts s x) by (apply Hall; by left).
    destruct (lookup_lt_is_Some_2 _ _ (proj1 Hx)) as [xd Hxd].
    assert (Hstep : exists s1,
              (nd <- deref x ;;
               if (length (n_users nd) =? 0) && negb (bool_decide (n_op nd = output_op))
               then node_add_user x held
               else ret tt) s = (Ok tt, s1)
              /\ users_grow s s1
              /\ exists nd1, heap s1 !! x = Some nd1
                   /\ (n_op nd1 = output_op \/ n_users nd1 <> [])).
    { rewrite (bind_known _ _ _ _ _ (deref_some _ _ _ Hxd)).
      destruct (length (n_users xd) =? 0) eqn:El; simpl.
      - case_bool_decide as Hop; simpl.
        + exists s. split; [done|]. split; [apply users_grow_refl|].
          exists xd. split; [done|]. by left.
        + destruct (node_add_user_grows x held s Hx) as (s1 & E1 & G1 & nd1 & Hnd1 & Hu).
          exists s1. split; [done|]. split; [done|].
          exists nd1. split; [done|]. right. intros E. rewrite E in Hu.
          by apply elem_of_nil in Hu.
      - exists s. split; [done|]. split; [apply users_grow_refl|].
        exists xd. split; [done|]. right. apply Nat.eqb_neq in El.
        intros E. by rewrite E in El. }
    destruct Hstep as (s1 & E1 & G1 & nd1 & Hnd1 & Hok1).
    destruct (IH s1) as (s' & E' & G' & Hrest).
    { intros y Hy. eapply has_counterparts_grow; [exact G1|]. apply Hall. by right. }
    exists s'. split; [|split].
    + simpl. by rewrite (bind_known _ _ _ _ _ E1).
    + by eapply users_grow_trans.
    + intros y Hy. apply elem_of_cons in Hy as [->|Hy]; [|by apply Hrest].
      destruct G' as [Esk Hgrow]. destruct (Hgrow x nd1 Hnd1) as (nd' & Hnd' & Hsub).
      exists nd'. split; [done|].
      destruct (same_skeleton_lookup _ _ _ _ (eq_sym Esk) Hnd') as (nd1' & Hnd1' & Heq).
      rewrite Hnd1 in Hnd1'. injection Hnd1' as <-.
      destruct Hok1 as [Hop|Hne].
      * left. injection Heq as _ Hop' _ _ _ _ _. congruence.
      * right. destruct (n_users nd1) as [|v vs] eqn:Ev; [done|].
        intros E. specialize (Hsub v ltac:(left)). rewrite E in Hsub.
        by apply elem_of_nil in Hsub.
Qed.

Lemma in_correspondence_counterparts st x :
  in_correspondence st -> x ∈ nodes MainG st -> has_counterparts st x.
Proof.
  intros (Hwf & Hps & Hpc) Hx. pose proof Hwf as (_ & _ & Hal & _).
  split; [by apply (alive_lt st MainG), Hal|]. split.
  - destruct (proj1 Hps x Hx) as (sx & Hsx & Hin). exists sx. split; [done|].
    by apply (alive_lt st SetupG), Hal.
  - destruct (proj1 Hpc x Hx) as (cx & Hcx & Hin). exists cx. split; [done|].
    by apply (alive_lt st CleanupG), Hal.
Qed.

Lemma in_correspondence_same_skeleton st1 st2 :
  forget_users st1 = forget_users st2 -> in_correspondence st2 -> in_correspondence st1.
Proof.
  intros H (Hwf & Hps & Hpc).
  destruct (same_skeleton_fields _ _ H) as (Hg & _ & Hs & Hc & _).
  split; [by eapply well_formed_same_skeleton|].
  unfold pairs_with, nodes. by rewrite !Hg, Hs, Hc.
Qed.

(** X19.  On an engine in correspondence [keep_unused_nodes] returns;
    it changes nothing but user sets, none of which loses a user, the
    engine stays in correspondence, and afterwards every node of the
    steady graph other than an output node has a user. *)
Theorem keep_unused_nodes_holds (st : IterGraph) :
  in_correspondence st ->
  exists st',
    keep_unused_nodes st = (Ok tt, st')
    /\ users_grow st st'
    /\ in_correspondence st'
    /\ forall n, n ∈ nodes MainG st' ->
         exists nd, heap st' !! n = Some nd /\ (n_op nd = output_op \/ n_users nd <> []).
Proof.
  intros Hc.
  destruct (keep_unused_loop (nodes MainG st) st) as (st' & E & G & Hall).
  { intros x Hx. by apply in_correspondence_counterparts. }
  exists st'. split; [|split; [done|split]].
  - unfold keep_unused_nodes. by rewrite bind_get.
  - eapply in_correspondence_same_skeleton; [apply G | done].
  - intros n Hn. apply Hall.
    by rewrite (proj2 (proj2 (proj2 (users_grow_fields _ _ G)))) in Hn.
Qed.

(** X19, witness: the sample engine. *)
Lemma keep_unused_nodes_holds_witness :
  in_correspondence Sample.engine
  /\ exists st', keep_unused_nodes Sample.engine = (Ok tt, st') /\ in_correspondence st'.
Proof.
  pose proof sample_engine_in_correspondence as Hc.
  split; [exact Hc|].
  destruct (keep_unused_nodes_holds Sample.engine Hc) as (st' & H & _ & Hc' & _).
  by exists st'.
Defined.

(** ** The import of boundary values into a block *)

Lemma same_object_refl s i : same_object s s i.
Proof. intros nd H. by exists nd. Qed.

Lemma same_object_trans s1 s2 s3 i :
  same_object s1 s2 i -> same_object s2 s3 i -> same_object s1 s3 i.
Proof.
  intros H1 H2 nd Hnd. destruct (H1 nd Hnd) as (nd2 & Hnd2 & E2).
  destruct (H2 nd2 Hnd2) as (nd3 & Hnd3 & E3). exists nd3. split; [done|congruence].
Qed.

Lemma same_object_of_lookup s s' i :
  set_users [] <$> heap s' !! i = set_users [] <$> heap s !! i -> same_object s s' i.
Proof.
  intros H nd Hnd. rewrite Hnd in H. destruct (heap s' !! i) as [nd'|]; simpl in H; [|done].
  exists nd'. split; [done|]. congruence.
Qed.

Lemma update_args_kwargs_others x a k s i :
  i <> x -> same_object s (snd (update_args_kwargs x a k s)) i.
Proof.
  intros Hne. apply same_object_of_lookup.
  rewrite (skeleton_lookup_eq _ _ i (skeleton_update_args_kwargs x a k s)).
  unfold sk_set_args. simpl. by rewrite list_lookup_alter_ne.
Qed.

Lemma set_node_args_others x a s i : i <> x -> same_object s (snd (set_node_args x a s)) i.
Proof.
  intros Hne. unfold set_node_args, bind, deref.
  destruct (heap s !! x); simpl; [by apply update_args_kwargs_others | apply same_object_refl].
Qed.

Lemma set_node_kwargs_others x k s i : i <> x -> same_object s (snd (set_node_kwargs x k s)) i.
Proof.
  intros Hne. unfold set_node_kwargs, bind, deref.
  destruct (heap s !! x); simpl; [by apply update_args_kwargs_others | apply same_object_refl].
Qed.

Lemma inputs_of_same s s' all_nodes : forall block,
  (forall n, n ∈ block -> is_Some (heap s !! n)) ->
  (forall n, n ∈ block -> same_object s s' n) ->
  inputs_of s' all_nodes block = inputs_of s all_nodes block.
Proof.
  induction block as [|n block IH]; intros Hall Hsame; [done|].
  unfold inputs_of. cbn [flat_map]. fold (inputs_of s' all_nodes block).
  fold (inputs_of s all_nodes block).
  rewrite IH by (intros m Hm; first [apply Hall | apply Hsame]; by right).
  destruct (Hall n) as [nd Hnd]; [by left|].
  destruct (Hsame n ltac:(by left) nd Hnd) as (nd' & Hnd' & E).
  rewrite Hnd, Hnd'. f_equal. unfold external_inputs.
  injection E as _ _ _ -> -> _ _. done.
Qed.

Lemma redirect_inputs_count all_nodes : forall node_inputs it r it',
  redirect_inputs all_nodes node_inputs it = Some (r, it') ->
  exists c, it = c ++ it'
    /\ length c = length (omap (fun _input =>
                     match is_node _input with
                     | None => None
                     | Some i => if bool_decide (Some i ∈ map Some all_nodes) then None
                                 else Some i
                     end) node_inputs).
Proof.
  induction node_inputs as [|a rest IH]; intros it r it' H; simpl in H.
  - injection H as <- <-. by exists [].
  - cbn [omap list_omap]. destruct (is_node a) as [n|] eqn:En.
    + assert (Hmem : bool_decide (Some n ∈ map Some all_nodes) = bool_decide (n ∈ all_nodes)).
      { apply bool_decide_ext. apply (list_elem_of_fmap_inj Some _). }
      rewrite Hmem. destruct (bool_decide (n ∈ all_nodes)).
      * destruct (redirect_inputs all_nodes rest it) as [[r1 it1]|] eqn:E; [|done].
        injection H as <- <-. by apply (IH _ _ _ E).
      * destruct it as [|p it1]; [done|].
        destruct (redirect_inputs all_nodes rest it1) as [[r1 it2]|] eqn:E; [|done].
        injection H as <- <-. destruct (IH _ _ _ E) as (c & -> & Hc).
        exists (p :: c). split; [done|]. simpl. by rewrite Hc.
    + destruct (redirect_inputs all_nodes rest it) as [[r1 it1]|] eqn:E; [|done].
      injection H as <- <-. by apply (IH _ _ _ E).
Qed.

Lemma tree_unflatten_state leaves spec s r s' :
  tree_unflatten leaves spec s = (r, s') -> s' = s.
Proof.
  unfold tree_unflatten. destruct (_ =? _); [|by intros [= _ <-]].
  destruct (args_unflatten _ _) as [a r1]. destruct (kwargs_unflatten _ _) as [k r2].
  by intros [= _ <-].
Qed.

(** [import_loop] draws from the new inputs exactly one node for each
    use the block makes of a node outside it. *)
Lemma import_loop_count all_nodes : forall block it s it' s',
  NoDup block -> (forall n, n ∈ block -> is_Some (heap s !! n)) ->
  import_loop all_nodes block it s = (Ok it', s') ->
  exists c, it = c ++ it'
    /\ length c = length (inputs_of s (map Some all_nodes) block).
Proof.
  induction block as [|node rest IH]; intros it s it' s' Hnd Hall H.
  - injection H as <- <-. by exists [].
  - simpl in H. apply NoDup_cons in Hnd as [Hnotin Hnd].
    apply bind_ok in H as (nd & s0 & Hd & H). apply deref_ok in Hd as [Hnode ->].
    destruct (redirect_inputs _ _ _) as [[new it1]|] eqn:Er; [|done].
    destruct (redirect_inputs_count _ _ _ _ _ Er) as (c1 & -> & Hc1).
    apply bind_ok in H as (ak & s0 & Hu & H).
    apply tree_unflatten_state in Hu as ->.
    apply bind_ok in H as ([] & sa & Ha & H).
    apply bind_ok in H as ([] & sb & Hb & H).
    assert (Hothers : forall n, n ∈ rest -> same_object s sb n).
    { intros n Hn. assert (n <> node) by (intros ->; done).
      eapply same_object_trans.
      - apply (set_node_args_others node (fst ak) s n). done.
      - rewrite Ha. simpl. replace sb with (snd (set_node_kwargs node (snd ak) sa))
          by by rewrite Hb.
        by apply set_node_kwargs_others. }
    destruct (IH it1 sb it' s' Hnd) as (c2 & -> & Hc2); [|done|].
    { intros n Hn. destruct (Hall n) as [x Hx]; [by right|].
      destruct (Hothers n Hn x Hx) as (x' & Hx' & _). by exists x'. }
    exists (c1 ++ c2). split; [by rewrite app_assoc|].
    rewrite (inputs_of_same s sb) in Hc2
      by (try done; intros n Hn; apply Hall; by right).
    change (inputs_of s (map Some all_nodes) (node :: rest))
      with (match heap s !! node with
            | Some nd => external_inputs (map Some all_nodes) nd
            | None => []
            end ++ inputs_of s (map Some all_nodes) rest).
    rewrite Hnode.
    rewrite !length_app, Hc1, Hc2. done.
Qed.

Lemma mapM_placeholders_heap graph (name : nat -> string) : forall l s created s',
  mapM (fun i => fx_placeholder graph (NameStr (name i)) None None) l s = (Ok created, s') ->
  length created = length l /\ forall i, same_object s s' i.
Proof.
  induction l as [|x l IH]; intros s created s' H; simpl in H.
  - injection H as <- <-. split; [done|]. intros i. apply same_object_refl.
  - apply bind_ok in H as (y & s1 & Hy & H).
    apply bind_ok in H as (ys & s2 & Hys & H). injection H as <- <-.
    destruct (IH _ _ _ Hys) as [Hlen Hsame].
    simpl in Hy. apply fx_create_node_lookups in Hy as (_ & _ & Hold & _).
    split; [simpl; by rewrite Hlen|].
    intros i. eapply same_object_trans; [|apply Hsame]. intros nd Hnd. by apply Hold.
Qed.

Lemma last_placeholder_state : forall l last s,
  snd (last_placeholder_loop l last s) = s.
Proof.
  induction l as [|node rest IH]; intros last s; [done|].
  simpl. unfold bind, deref. destruct (heap s !! node) as [nd|]; simpl; [|done].
  case_decide; [apply IH | done].
Qed.

(** X20.  [_forward_inputs_to_subgraph] on a block of distinct, existing
    nodes returns only when the number of new inputs it is given is the
    number of uses the block makes of nodes outside it, one for each
    use; and a graph that does not begin with a placeholder is refused
    with [AssertionError], nothing having been changed. *)
Theorem import_takes_every_outside_use (subgraph : list nat) (graph : GraphId)
    (extra_input : nat) (st : IterGraph) :
  (forall st', NoDup subgraph -> (forall n, n ∈ subgraph -> is_Some (heap st !! n)) ->
     _forward_inputs_to_subgraph subgraph graph extra_input st = (Ok tt, st') ->
     extra_input = length (block_inputs st subgraph))
  /\ (no_leading_placeholder st graph ->
      _forward_inputs_to_subgraph subgraph graph extra_input st
      = (Raise AssertionError, st)).
Proof.
  split.
  - intros st' Hnd Hall H. unfold _forward_inputs_to_subgraph in H.
    rewrite bind_get in H.
    apply bind_ok in H as (lp & s0 & Hlp & H).
    assert (s0 = st) as -> by (rewrite <- (last_placeholder_state (nodes graph st) None st);
                               by rewrite Hlp).
    apply bind_ok in H as ([] & s0 & Hassert & H).
    unfold assert_ in Hassert. case_bool_decide as Hsome; [|discriminate].
    injection Hassert as <-. destruct lp as [lp|]; [|by destruct Hsome].
    apply bind_ok in H as (created & s1 & Hcreate & H).
    apply bind_ok in H as (unused & s2 & Himport & H).
    destruct unused as [|u unused]; [|discriminate].
    assert (Hc : length created = extra_input /\ forall i, same_object st s1 i).
    { unfold fx_inserting_after in Hcreate.
      apply bind_ok in Hcreate as (nd & s0 & Hd & Hcreate). apply deref_ok in Hd as [_ ->].
      apply bind_ok in Hcreate as ([] & s0 & Ha & Hcreate).
      unfold assert_ in Ha. case_bool_decide; [|discriminate]. injection Ha as <-.
      rewrite with_insert_run in Hcreate. injection Hcreate as Hr Hs.
      destruct (mapM _ _ _) as [[cr|e] sm] eqn:Em; simpl in Hr; [|discriminate].
      injection Hr as ->. apply mapM_placeholders_heap in Em as [Hlen Hsame].
      rewrite length_rev, length_seq in Hlen. split; [done|].
      intros i nd' Hi. subst s1. by apply (Hsame i nd'). }
    destruct Hc as [Hlen Hsame].
    destruct (import_loop_count subgraph subgraph (rev created) s1 [] s2) as (c & Hc & Hcl);
      [done| |done|].
    { intros n Hn. destruct (Hall n Hn) as [x Hx].
      destruct (Hsame n x Hx) as (x' & Hx' & _). by exists x'. }
    rewrite app_nil_r in Hc. subst c. rewrite length_rev, Hlen in Hcl.
    rewrite Hcl. unfold block_inputs. f_equal. by apply inputs_of_same.
  - intros Hno. unfold _forward_inputs_to_subgraph. rewrite bind_get.
    assert (Hlp : last_placeholder_loop (nodes graph st) None st = (Ok None, st)).
    { unfold no_leading_placeholder in Hno. destruct (nodes graph st) as [|n l]; [done|].
      destruct Hno as (nd & Hnd & Hop). simpl.
      rewrite (bind_known _ _ _ _ _ (deref_some _ _ _ Hnd)). by case_decide. }
    rewrite (bind_known _ _ _ _ _ Hlp). done.
Qed.

(** X20, witness: one new input for the block [[z]] of the sample
    engine, which uses [x]. *)
Lemma import_takes_every_outside_use_witness :
  1 = length (block_inputs Sample.engine [14]).
Proof.
  destruct (_forward_inputs_to_subgraph [14] MainG 1 Sample.engine) as [[[]|e] st'] eqn:E;
    [|vm_compute in E; discriminate E].
  destruct (import_takes_every_outside_use [14] MainG 1 Sample.engine) as [H _].
  apply (H st'); [apply NoDup_singleton| |exact E].
  intros n Hn. apply list_elem_of_singleton in Hn as ->. clear. vm_compute. eauto.
Defined.

(** ** Repositioning a node *)

Lemma next_of_split a x : forall l,
  next_of a l = Some x -> exists l1 l2, l = l1 ++ a :: x :: l2.
Proof.
  induction l as [|y l IH]; simpl; [done|]. case_decide as Hy.
  - subst y. destruct l as [|z l]; simpl; [done|]. intros [= ->]. by exists [], l.
  - intros H. destruct (IH H) as (l1 & l2 & ->). by exists (y :: l1), l2.
Qed.

Lemma present_perm (x : nat) (l : list nat) :
  NoDup l -> x ∈ l -> x :: filter (fun y => y <> x) l ≡ₚ l.
Proof.
  intros Hnd Hx. induction Hnd as [|y l Hy Hnd IH]; [by apply elem_of_nil in Hx|].
  apply elem_of_cons in Hx as [->|Hx].
  - rewrite filter_cons_False by (intros Hne; by apply Hne). by rewrite filter_absent.
  - rewrite filter_cons_True by (intros ->; done).
    rewrite Permutation_swap. by rewrite IH.
Qed.

Lemma placed_perm b a x l l' : placed b a x l l' -> l' ≡ₚ x :: l.
Proof.
  intros (l1 & l2 & -> & ->). destruct b.
  - symmetry. apply Permutation_middle.
  - etrans; [apply Permutation_app_head, Permutation_swap|].
    symmetry. apply Permutation_middle.
Qed.

Lemma placed_before_link a x l :
  a ∈ l -> a <> x ->
  placed true a x (filter (fun y => y <> x) l) (link (Before (Some a)) x l).
Proof.
  intros Ha Hne. unfold link.
  assert (Hin : a ∈ filter (fun y => y <> x) l) by by apply list_elem_of_filter.
  destruct (insert_before_split a x _ Hin) as (l1 & l2 & E1 & E2). by exists l1, l2.
Qed.

Lemma placed_after_link a x l :
  a ∈ l -> a <> x ->
  placed false a x (filter (fun y => y <> x) l) (link (After (Some a)) x l).
Proof.
  intros Ha Hne. unfold link.
  assert (Hin : a ∈ filter (fun y => y <> x) l) by by apply list_elem_of_filter.
  destruct (insert_after_split a x _ Hin) as (l1 & l2 & E1 & E2). by exists l1, l2.
Qed.

Lemma placed_after_already a x l :
  NoDup l -> next_of a l = Some x ->
  placed false a x (filter (fun y => y <> x) l) l.
Proof.
  intros Hnd H. destruct (next_of_split _ _ _ H) as (l1 & l2 & ->).
  apply NoDup_app in Hnd as (_ & Hd & Hnd).
  apply NoDup_cons in Hnd as [Ha Hnd]. apply NoDup_cons in Hnd as [Hx _].
  exists l1, l2. split; [|done].
  assert (x ∉ l1).
  { intros Hin. apply (Hd x Hin). right. by left. }
  assert (a <> x) by (intros ->; apply Ha; by left).
  rewrite filter_app, filter_cons_True, filter_cons_False, !filter_absent; try done.
  intros Hne. by apply Hne.
Qed.

(** What [Node.prepend] and [Node.append] do to the engine, for two
    different live nodes of one graph. *)
Lemma fx_reposition_spec (before : bool) t x s g :
  alive s g t -> alive s g x -> t <> x -> g <> OrigG ->
  NoDup (nodes g s) -> t ∈ nodes g s ->
  exists s',
    (if before then fx_node_prepend t x else fx_node_append t x) s = (Ok tt, s')
    /\ heap s' = heap s /\ control s' = control s
    /\ (forall g', g' <> g -> nodes g' s' = nodes g' s)
    /\ placed before t x (filter (fun y => y <> x) (nodes g s)) (nodes g s').
Proof.
  intros (nd & Hnd & Hg & _) (xd & Hxd & Hgx & _) Hne Hgo Hdup Hin.
  destruct before.
  - unfold fx_node_prepend.
    rewrite (bind_known _ _ _ _ _ (deref_some _ _ _ Hnd)).
    rewrite (bind_known _ _ _ _ _ (deref_some _ _ _ Hxd)).
    rewrite Hg, Hgx. unfold assert_. rewrite bool_decide_eq_true_2 by done.
    unfold bind at 1. simpl. case_decide; [done|].
    eexists. split; [reflexivity|]. split; [done|]. split; [done|]. split.
    + intros g' Hg'. destruct g, g'; done.
    + match goal with |- placed _ _ _ _ (nodes g ?s') =>
        assert (Hl : nodes g s' = link (Before (Some t)) x (nodes g s)) by (by destruct g);
        rewrite Hl end.
      by apply placed_before_link.
  - unfold fx_node_append.
    rewrite (bind_known _ _ _ _ _ (deref_some _ _ _ Hnd)).
    rewrite (bind_known _ _ _ _ _ (deref_some _ _ _ Hxd)).
    rewrite Hg, Hgx. unfold assert_. rewrite bool_decide_eq_true_2 by done.
    unfold bind at 1. simpl. rewrite bind_get. case_decide as Hnext.
    + exists s. split; [done|]. split; [done|]. split; [done|]. split; [done|].
      by apply placed_after_already.
    + eexists. split; [reflexivity|]. split; [done|]. split; [done|]. split.
      * intros g' Hg'. destruct g, g'; done.
      * match goal with |- placed _ _ _ _ (nodes g ?s') =>
          assert (Hl : nodes g s' = link (After (Some t)) x (nodes g s)) by (by destruct g);
          rewrite Hl end.
        by apply placed_after_link.
Qed.

Lemma reposition_turn (op : nat -> nat -> M unit) n t g s an tn (k : M unit) :
  _lookup_node n g s = Some an -> _lookup_node t g s = Some tn ->
  ((actual_node <- lookup n g ;;
    match actual_node with
    | None => raise AssertionError
    | Some actual_node =>
        actual_target_node <- lookup t g ;;
        match actual_target_node with
        | None => raise AssertionError
        | Some actual_target_node => op actual_target_node actual_node
        end
    end) >> k) s
  = (op tn an >> k) s.
Proof. intros Ha Ht. unfold bind, lookup, get, ret. simpl. by rewrite Ha, Ht. Qed.

Lemma paired_perm mapping ms ss ms' ss' :
  ms' ≡ₚ ms -> ss' ≡ₚ ss -> paired mapping ms ss -> paired mapping ms' ss'.
Proof.
  intros Pm Ps (Hmap & Hback & Hinj & Hlen). unfold paired.
  setoid_rewrite Pm. setoid_rewrite Ps. done.
Qed.

Lemma in_correspondence_reordered st st' :
  in_correspondence st -> heap st' = heap st -> control st' = control st ->
  (forall g, g <> OrigG -> nodes g st' ≡ₚ nodes g st) ->
  in_correspondence st'.
Proof.
  intros (Hwf & Hps & Hpc) Hh Hc Hn.
  destruct (control_fields _ _ Hc) as (Hs & Hcm & Hfr).
  destruct Hwf as (Hf & Hnd & Hal & Hbs & Hbc).
  split; [|split].
  - split; [congruence|]. split; [|split; [|split]].
    + intros g Hg. rewrite (Hn g Hg). by apply Hnd.
    + intros g n Hg Hin. rewrite (Hn g Hg) in Hin. unfold alive. rewrite Hh. by apply Hal.
    + intros m s. rewrite Hs, Hh. apply Hbs.
    + intros m c. rewrite Hcm, Hh. apply Hbc.
  - unfold pairs_with. rewrite Hs. eapply paired_perm; [by apply Hn..|done].
  - unfold pairs_with. rewrite Hcm. eapply paired_perm; [by apply Hn..|done].
Qed.

(** X21.  On an engine in correspondence, [node_prepend] and
    [node_append] of a steady node [n] to a different steady node [t]
    return; in each of the three graphs the counterpart of [n] is taken
    out of the node list and put back immediately before (after) the
    counterpart of [t]; no node object and neither map is changed, and
    the engine stays in correspondence. *)
Theorem reposition_is_mirrored (before : bool) (t n : nat) (st : IterGraph) :
  in_correspondence st -> t ∈ nodes MainG st -> n ∈ nodes MainG st -> t <> n ->
  exists st',
    (if before then node_prepend t n else node_append t n) st = (Ok tt, st')
    /\ heap st' = heap st /\ control st' = control st
    /\ (forall g, g ∈ _all_graphs ->
          exists tg ng, _lookup_node t g st = Some tg /\ _lookup_node n g st = Some ng
            /\ placed before tg ng (filter (fun y => y <> ng) (nodes g st)) (nodes g st'))
    /\ in_correspondence st'.
Proof.
  intros Hc Ht Hn Hne.
  pose proof Hc as (Hwf & Hps & Hpc). pose proof Hwf as (Hfr & Hnd & Hal & _).
  destruct (proj1 Hps t Ht) as (ts & Hts & Htsin).
  destruct (proj1 Hps n Hn) as (ns & Hns & Hnsin).
  destruct (proj1 Hpc t Ht) as (tc & Htc & Htcin).
  destruct (proj1 Hpc n Hn) as (nc & Hnc & Hncin).
  assert (Hnes : ts <> ns).
  { intros ->. apply Hne. by apply (proj1 (proj2 (proj2 Hps)) t n ns). }
  assert (Hnec : tc <> nc).
  { intros ->. apply Hne. by apply (proj1 (proj2 (proj2 Hpc)) t n nc). }
  set (op := fun a b => if before then fx_node_prepend a b else fx_node_append a b).
  assert (Hrun : (if before then node_prepend t n else node_append t n) st
                 = forM_ _all_graphs (fun graph =>
                     actual_node <- lookup n graph ;;
                     match actual_node with
                     | None => raise AssertionError
                     | Some actual_node =>
                         actual_target_node <- lookup t graph ;;
                         match actual_target_node with
                         | None => raise AssertionError
                         | Some actual_target_node => op actual_target_node actual_node
                         end
                     end) st).
  { unfold op. destruct before; [unfold node_prepend | unfold node_append];
      by rewrite bind_is_frozen, Hfr. }
  rewrite Hrun. unfold _all_graphs. simpl forM_.
  rewrite (reposition_turn op n t SetupG st ns ts) by done.
  destruct (fx_reposition_spec before ts ns st SetupG) as (s1 & E1 & H1 & C1 & O1 & P1);
    [by apply Hal|by apply Hal|done|done|by apply Hnd|done|].
  rewrite (bind_known _ _ _ _ _ (E1 : op ts ns st = _)).
  destruct (control_fields _ _ C1) as (Hs1 & Hc1 & _).
  rewrite (reposition_turn op n t CleanupG s1 nc tc) by (simpl; by rewrite Hc1).
  destruct (fx_reposition_spec before tc nc s1 CleanupG) as (s2 & E2 & H2 & C2 & O2 & P2);
    [unfold alive; rewrite H1; by apply Hal|unfold alive; rewrite H1; by apply Hal
    |done|done|rewrite O1 by done; by apply Hnd|by rewrite O1|].
  rewrite (bind_known _ _ _ _ _ (E2 : op tc nc s1 = _)).
  rewrite (reposition_turn op n t MainG s2 n t) by done.
  destruct (fx_reposition_spec before t n s2 MainG) as (s3 & E3 & H3 & C3 & O3 & P3);
    [unfold alive; rewrite H2, H1; by apply Hal|unfold alive; rewrite H2, H1; by apply Hal
    |done|done|rewrite O2, O1 by done; by apply Hnd|by rewrite O2, O1|].
  rewrite (bind_known _ _ _ _ _ (E3 : op t n s2 = _)).
  rewrite O1 in P2 by done. rewrite O2, O1 in P3 by done.
  assert (N1 : nodes SetupG s3 = nodes SetupG s1) by (rewrite O3, O2 by done; done).
  assert (N2 : nodes CleanupG s3 = nodes CleanupG s2) by (by rewrite O3).
  rewrite <- N1 in P1. rewrite <- N2 in P2.
  exists s3. split; [done|]. split; [congruence|]. split; [congruence|]. split.
  - intros g Hg. unfold _all_graphs in Hg.
    apply elem_of_cons in Hg as [->|Hg]; [by exists ts, ns|].
    apply elem_of_cons in Hg as [->|Hg]; [by exists tc, nc|].
    apply list_elem_of_singleton in Hg as ->. by exists t, n.
  - apply (in_correspondence_reordered st); [done|congruence|congruence|].
    intros g Hg. destruct g; [done| | |].
    + rewrite (placed_perm _ _ _ _ _ P1). by apply present_perm; [apply Hnd|].
    + rewrite (placed_perm _ _ _ _ _ P2). by apply present_perm; [apply Hnd|].
    + rewrite (placed_perm _ _ _ _ _ P3). by apply present_perm; [apply Hnd|].
Qed.

(** X21, witness: [z] (14) put before [y] (13) on the sample engine. *)
Lemma reposition_is_mirrored_witness :
  in_correspondence Sample.engine
  /\ exists st', node_prepend 13 14 Sample.engine = (Ok tt, st') /\ in_correspondence st'.
Proof.
  pose proof sample_engine_in_correspondence as Hc.
  split; [exact Hc|].
  destruct (reposition_is_mirrored true 13 14 Sample.engine Hc) as (st' & H & _ & _ & _ & Hc');
    [clear; change (13 ∈ [12; 13; 14; 15]); set_solver
    |clear; change (14 ∈ [12; 13; 14; 15]); set_solver
    |done|].
  by exists st'.
Defined.

(** ** The pairing made by the constructor *)

Lemma pair_up_other : forall ms ss cs (sm cm : gmap nat nat) m,
  m ∉ ms ->
  fst (pair_up ms ss cs sm cm) !! m = sm !! m
  /\ snd (pair_up ms ss cs sm cm) !! m = cm !! m.
Proof.
  induction ms as [|m0 ms IH]; intros [|s ss] [|c cs] sm cm m Hm; simpl; try done.
  apply not_elem_of_cons in Hm as [Hne Hm].
  destruct (IH ss cs (<[m0 := s]> sm) (<[m0 := c]> cm) m Hm) as [-> ->].
  by rewrite !lookup_insert_ne.
Qed.

Lemma pair_up_position : forall ms ss cs (sm cm : gmap nat nat) i m,
  NoDup ms -> ms !! i = Some m ->
  (i < length ss /\ i < length cs ->
     fst (pair_up ms ss cs sm cm) !! m = ss !! i
     /\ snd (pair_up ms ss cs sm cm) !! m = cs !! i)
  /\ (~ (i < length ss /\ i < length cs) ->
      fst (pair_up ms ss cs sm cm) !! m = sm !! m
      /\ snd (pair_up ms ss cs sm cm) !! m = cm !! m).
Proof.
  induction ms as [|m0 ms IH]; intros ss cs sm cm i m Hnd Hi; [done|].
  apply NoDup_cons in Hnd as [Hm0 Hnd].
  destruct ss as [|s ss]; [split; [simpl; lia|done]|].
  destruct cs as [|c cs]; [split; [simpl; lia|done]|].
  simpl pair_up. destruct i as [|j]; simpl in Hi.
  - injection Hi as <-.
    destruct (pair_up_other ms ss cs (<[m0 := s]> sm) (<[m0 := c]> cm) m0 Hm0) as [-> ->].
    rewrite !lookup_insert_eq. split; [done|]. simpl. lia.
  - assert (m <> m0).
    { intros ->. apply Hm0. by eapply list_elem_of_lookup_2. }
    destruct (IH ss cs (<[m0 := s]> sm) (<[m0 := c]> cm) j m Hnd Hi) as [H1 H2].
    split.
    + intros [Hs Hc]. simpl in Hs, Hc. apply H1. lia.
    + intros Hn. destruct H2 as [-> ->]; [simpl in Hn; lia|].
      by rewrite !lookup_insert_ne.
Qed.

(** X23.  [IterGraph.__init__] pairs the nodes by position alone: the
    [i]-th node of the steady graph gets the [i]-th node of the setup
    graph and the [i]-th node of the cleanup graph as counterparts when
    both graphs have an [i]-th node, and no counterpart in either map
    otherwise; graphs of different lengths are not refused.  The setup
    and cleanup graphs are taken as they are, and the engine starts
    unfrozen with both counters at zero. *)
Theorem init_pairs_by_position
    (store : list Node) (orig setup_nodes cleanup_nodes : list nat) (st0 : IterGraph) :
  __init__ store orig setup_nodes cleanup_nodes = (Ok tt, st0) ->
  NoDup setup_nodes -> NoDup cleanup_nodes ->
  (forall n, n ∈ setup_nodes ->
     exists nd, store !! n = Some nd /\ n_graph nd = SetupG /\ n_erased nd = false) ->
  (forall n, n ∈ cleanup_nodes ->
     exists nd, store !! n = Some nd /\ n_graph nd = CleanupG /\ n_erased nd = false) ->
  nodes SetupG st0 = setup_nodes
  /\ nodes CleanupG st0 = cleanup_nodes
  /\ switches st0 = (false, 0, 0)
  /\ forall i m, nodes MainG st0 !! i = Some m ->
       (i < length setup_nodes /\ i < length cleanup_nodes ->
          _setup_mapping st0 !! m = setup_nodes !! i
          /\ _cleanup_mapping st0 !! m = cleanup_nodes !! i)
       /\ (~ (i < length setup_nodes /\ i < length cleanup_nodes) ->
           _setup_mapping st0 !! m = None /\ _cleanup_mapping st0 !! m = None).
Proof.
  intros H Hnds Hndc Hals Halc. unfold __init__ in H.
  set (r0 := mkIterGraph _ _ _ _ _ _ _ _ _ _) in H.
  assert (W0 : well_formed r0).
  { split; [done|]. split; [|split; [|split]].
    - intros [] Hg; try done. apply NoDup_nil_2.
    - intros [] n Hg Hin; try done.
      + by apply Hals.
      + by apply Halc.
      + by apply elem_of_nil in Hin.
    - intros m s Hl. unfold r0 in Hl. simpl in Hl. by rewrite lookup_empty in Hl.
    - intros m s Hl. unfold r0 in Hl. simpl in Hl. by rewrite lookup_empty in Hl. }
  apply bind_ok in H as (ov & s1 & Hcopy & H).
  apply graph_copy_facts in Hcopy as (W1 & S1 & C1 & _); [|done].
  destruct ov as [[output_val old]|]; [|discriminate].
  apply bind_ok in H as (od & s1' & Hd & H). apply deref_ok in Hd as [_ ->].
  apply bind_ok in H as (out & s2 & Hout & H).
  apply fx_create_node_facts in Hout as (_ & _ & W2 & _ & O2 & _); [|done..].
  injection H as <-.
  assert (S2 : nodes SetupG s2 = setup_nodes) by by rewrite (O2 SetupG), S1.
  assert (C2 : nodes CleanupG s2 = cleanup_nodes) by by rewrite (O2 CleanupG), C1.
  pose proof W2 as (_ & Hnd2 & _).
  rewrite S2, C2.
  destruct (pair_up (nodes MainG s2) setup_nodes cleanup_nodes ∅ ∅) as [sm cm] eqn:Ep.
  split; [exact S2|]. split; [exact C2|]. split; [done|].
  intros i m Hi.
  change (nodes MainG (with_counters 0 0 (with_freeze false (with_mappings sm cm s2))))
    with (nodes MainG s2) in Hi.
  destruct (pair_up_position (nodes MainG s2) setup_nodes cleanup_nodes ∅ ∅ i m
              (Hnd2 MainG ltac:(done)) Hi) as [H1 H2].
  rewrite Ep in H1, H2. simpl in *. split; [exact H1|].
  intros Hn. destruct (H2 Hn) as [-> ->]. by rewrite !lookup_empty.
Qed.

(** X23, witness: the sample engine; its second steady node (13) is
    paired with the second setup node (5) and the second cleanup node
    (9). *)
Lemma init_pairs_by_position_witness :
  _setup_mapping Sample.engine !! 13 = Some 5
  /\ _cleanup_mapping Sample.engine !! 13 = Some 9.
Proof.
  assert (Hinit : __init__ Sample.store [0; 1; 2; 3] [4; 5; 6; 7] [8; 9; 10; 11]
                  = (Ok tt, Sample.engine)) by (vm_compute; reflexivity).
  destruct (init_pairs_by_position _ _ _ _ _ Hinit) as (_ & _ & _ & H).
  - apply (bool_decide_unpack _). vm_compute. exact I.
  - apply (bool_decide_unpack _). vm_compute. exact I.
  - clear. intros n Hn.
    repeat (apply elem_of_cons in Hn as [->|Hn];
            [eexists; split; [reflexivity|exact (conj eq_refl eq_refl)]|]).
    by apply elem_of_nil in Hn.
  - clear. intros n Hn.
    repeat (apply elem_of_cons in Hn as [->|Hn];
            [eexists; split; [reflexivity|exact (conj eq_refl eq_refl)]|]).
    by apply elem_of_nil in Hn.
  - apply (H 1 13); [clear; vm_compute; reflexivity | simpl; lia].
Defined.

(** ** Moving a list of nodes *)

















